(** * The process supervisor of HOPM (src/main.c)

    A shallow embedding of [main], [do_signal], [setup_corelimit] and
    [main_restart].  The program is a straight-line bootstrap followed by
    an endless loop; everything it does to the outside world is a call
    into libc, the kernel or a collaborator module (irc, scan, opercmd,
    log, config).  Those calls are recorded, in order, in a trace; their
    return values come from a [world].  The three flags shared with the
    signal handler are part of the state, and every access the main
    context makes to them is recorded in the trace as well. *)

From Stdlib Require Import ZArith List String Ascii Bool Lia.
From Stdlib Require Import DecimalString.
Import ListNotations.
Local Open Scope Z_scope.

(** ** C integers *)

Definition UINT_MAX : Z := 2 ^ 32 - 1.
Definition INT_MAX : Z := 2 ^ 31 - 1.

(** Conversion to [unsigned int] (wraps modulo 2^32). *)
Definition to_uint (z : Z) : Z := z mod 2 ^ 32.

(** Conversion to [int] (two's complement). *)
Definition to_int (z : Z) : Z := (z + 2 ^ 31) mod 2 ^ 32 - 2 ^ 31.

Definition EXIT_SUCCESS : Z := 0.
Definition EXIT_FAILURE : Z := 1.

(** The characters [getopt] hands back for the two known options. *)
Definition opt_c : Z := Z.of_nat (nat_of_ascii "c").
Definition opt_d : Z := Z.of_nat (nat_of_ascii "d").

Definition newline : string := String (ascii_of_nat 10) EmptyString.

(** ** Build-time constants

    [setup.h], [options.h] and [main.h] are not part of the sources at
    hand; the constants they define are taken as parameters. *)

Record build := {
  HOPM_PREFIX : string;
  HOPM_ETCDIR : string;
  HOPM_LOGDIR : string;
  HOPM_BINPATH : string;
  DEFAULTNAME : string;
  CONFEXT : string;
  LOGEXT : string;
  VERSION : string
}.

(** The two members of [OptionsItem] that [main] reads; [scanlog] is a
    null pointer when no scan log is configured. *)
Record OptionsConf := {
  scanlog : option string;
  pidfile : string
}.

(** ** Signals, flags, calls and events *)

Inductive signum := SIGALRM | SIGINT | SIGHUP | SIGUSR1 | SIGPIPE.

Inductive flag := RESTART | ALARMED | REOPEN.

Inductive rlimit_resource := RLIMIT_CORE | RLIMIT_NOFILE.

(** An argument of a printf-like call. *)
Inductive arg :=
| A_str (s : string)
| A_int (d : Z)
| A_uint (u : Z).

(** Every function [main.c] calls but does not define. *)
Inductive external :=
| pledge (promises : string)
| unveil (path permissions : string)
| getrlimit (resource : rlimit_resource)
| setrlimit (resource : rlimit_resource) (cur max : Z)
| getopt (argv : list string) (optstring : string)
| chdir (path : string)
| fork
| setpgid (pid pgid : Z)
| umask (mask : Z)
| open_rdwr (path : string)
| dup2 (oldfd newfd : Z)
| close (fd : Z)
| fopen (path mode : string)
| getpid
| fprintf (stream : Z) (fmt : string) (args : list arg)
| fclose (stream : Z)
| perror (s : string) (errnum : Z)
| err (eval : Z) (fmt : string) (errnum : Z)
| sigaction (sig : signum) (sa_restart : bool)
| signal_ignore (sig : signum)
| alarm (seconds : Z)
| fcntl_setfd_cloexec (fd : Z)
| execv (path : string) (argv : list string)
| log_printf (fmt : string) (args : list arg)
| log_open (path : string)
| log_close
| scanlog_open (path : string)
| scanlog_close
| config_load (path : string)
| irc_cycle
| scan_cycle
| irc_timer
| scan_timer
| command_timer.

Inductive event :=
| Call (c : external)
| Load (f : flag) (v : Z)
| Store (f : flag) (v : Z).

(** What can interrupt the main context between two of its statements:
    a signal, or a collaborator calling [main_restart]. *)
Inductive interrupt :=
| Signal (sig : signum)
| Restart_request.

(** How a process image ends. *)
Inductive outcome :=
| Exited (status : Z)
| Replaced (path : string) (argv : list string).

(** ** The outside world

    [returns] gives the value every external call returns ([-1] for a
    failing system call, a null pointer is [0]); it depends on the call
    and its arguments only.  [execv] returns only when it fails, so any
    value but [-1] stands for a successful image replacement.
    [fails_with] is the error number a failing call leaves in [errno];
    a call that succeeds leaves [errno] alone.  [getopt] keeps a cursor
    of its own: what its successive calls hand back is listed in
    [getopt_returns].  [signals] is the schedule of interrupts: entry
    [n] is delivered just before the [n]-th statement executed once the
    handlers are installed. *)

Record world := {
  returns : external -> Z;
  fails_with : external -> Z;
  getopt_returns : list (Z * string);
  loaded_options : OptionsConf;
  rlim_cur : rlimit_resource -> Z;
  rlim_max : rlimit_resource -> Z;
  strerror : Z -> string;
  signals : list (list interrupt)
}.

(** ** Program state *)

Record state := {
  st_RESTART : Z;
  st_ALARMED : Z;
  st_REOPEN : Z;
  CONFNAME : string;
  CONFFILE : string;
  LOGFILE : string;
  OPT_DEBUG : Z;
  OptionsItem : OptionsConf;
  errno : Z;
  timer : Z;
  handling : bool;
  clock : nat;
  trace : list event
}.

Definition get (f : flag) (s : state) : Z :=
  match f with
  | RESTART => st_RESTART s
  | ALARMED => st_ALARMED s
  | REOPEN => st_REOPEN s
  end.

Arguments get : simpl never.

Definition set (f : flag) (v : Z) (s : state) : state :=
  {| st_RESTART := match f with RESTART => v | _ => st_RESTART s end;
     st_ALARMED := match f with ALARMED => v | _ => st_ALARMED s end;
     st_REOPEN := match f with REOPEN => v | _ => st_REOPEN s end;
     CONFNAME := CONFNAME s; CONFFILE := CONFFILE s; LOGFILE := LOGFILE s;
     OPT_DEBUG := OPT_DEBUG s; OptionsItem := OptionsItem s;
     errno := errno s; timer := timer s; handling := handling s;
     clock := clock s; trace := trace s |}.

Definition with_CONFNAME (n : string) (s : state) : state :=
  {| st_RESTART := st_RESTART s; st_ALARMED := st_ALARMED s;
     st_REOPEN := st_REOPEN s;
     CONFNAME := n; CONFFILE := CONFFILE s; LOGFILE := LOGFILE s;
     OPT_DEBUG := OPT_DEBUG s; OptionsItem := OptionsItem s;
     errno := errno s; timer := timer s; handling := handling s;
     clock := clock s; trace := trace s |}.

Definition with_files (c l : string) (s : state) : state :=
  {| st_RESTART := st_RESTART s; st_ALARMED := st_ALARMED s;
     st_REOPEN := st_REOPEN s;
     CONFNAME := CONFNAME s; CONFFILE := c; LOGFILE := l;
     OPT_DEBUG := OPT_DEBUG s; OptionsItem := OptionsItem s;
     errno := errno s; timer := timer s; handling := handling s;
     clock := clock s; trace := trace s |}.

Definition with_OPT_DEBUG (d : Z) (s : state) : state :=
  {| st_RESTART := st_RESTART s; st_ALARMED := st_ALARMED s;
     st_REOPEN := st_REOPEN s;
     CONFNAME := CONFNAME s; CONFFILE := CONFFILE s; LOGFILE := LOGFILE s;
     OPT_DEBUG := d; OptionsItem := OptionsItem s;
     errno := errno s; timer := timer s; handling := handling s;
     clock := clock s; trace := trace s |}.

Definition with_OptionsItem (o : OptionsConf) (s : state) : state :=
  {| st_RESTART := st_RESTART s; st_ALARMED := st_ALARMED s;
     st_REOPEN := st_REOPEN s;
     CONFNAME := CONFNAME s; CONFFILE := CONFFILE s; LOGFILE := LOGFILE s;
     OPT_DEBUG := OPT_DEBUG s; OptionsItem := o;
     errno := errno s; timer := timer s; handling := handling s;
     clock := clock s; trace := trace s |}.

Definition with_errno (e : Z) (s : state) : state :=
  {| st_RESTART := st_RESTART s; st_ALARMED := st_ALARMED s;
     st_REOPEN := st_REOPEN s;
     CONFNAME := CONFNAME s; CONFFILE := CONFFILE s; LOGFILE := LOGFILE s;
     OPT_DEBUG := OPT_DEBUG s; OptionsItem := OptionsItem s;
     errno := e; timer := timer s; handling := handling s;
     clock := clock s; trace := trace s |}.

Definition with_timer (t : Z) (s : state) : state :=
  {| st_RESTART := st_RESTART s; st_ALARMED := st_ALARMED s;
     st_REOPEN := st_REOPEN s;
     CONFNAME := CONFNAME s; CONFFILE := CONFFILE s; LOGFILE := LOGFILE s;
     OPT_DEBUG := OPT_DEBUG s; OptionsItem := OptionsItem s;
     errno := errno s; timer := t; handling := handling s;
     clock := clock s; trace := trace s |}.

Definition with_handling (h : bool) (s : state) : state :=
  {| st_RESTART := st_RESTART s; st_ALARMED := st_ALARMED s;
     st_REOPEN := st_REOPEN s;
     CONFNAME := CONFNAME s; CONFFILE := CONFFILE s; LOGFILE := LOGFILE s;
     OPT_DEBUG := OPT_DEBUG s; OptionsItem := OptionsItem s;
     errno := errno s; timer := timer s; handling := h;
     clock := clock s; trace := trace s |}.

Definition with_clock (n : nat) (s : state) : state :=
  {| st_RESTART := st_RESTART s; st_ALARMED := st_ALARMED s;
     st_REOPEN := st_REOPEN s;
     CONFNAME := CONFNAME s; CONFFILE := CONFFILE s; LOGFILE := LOGFILE s;
     OPT_DEBUG := OPT_DEBUG s; OptionsItem := OptionsItem s;
     errno := errno s; timer := timer s; handling := handling s;
     clock := n; trace := trace s |}.

Definition with_trace (t : list event) (s : state) : state :=
  {| st_RESTART := st_RESTART s; st_ALARMED := st_ALARMED s;
     st_REOPEN := st_REOPEN s;
     CONFNAME := CONFNAME s; CONFFILE := CONFFILE s; LOGFILE := LOGFILE s;
     OPT_DEBUG := OPT_DEBUG s; OptionsItem := OptionsItem s;
     errno := errno s; timer := timer s; handling := handling s;
     clock := clock s; trace := t |}.

(** The state a fresh image starts in: statics are zero, [CONFNAME] is
    [DEFAULTNAME], nothing has happened yet. *)
Definition initial (B : build) : state :=
  {| st_RESTART := 0; st_ALARMED := 0; st_REOPEN := 0;
     CONFNAME := DEFAULTNAME B; CONFFILE := EmptyString;
     LOGFILE := EmptyString;
     OPT_DEBUG := 0;
     OptionsItem := {| scanlog := None; pidfile := EmptyString |};
     errno := 0; timer := 0; handling := false; clock := O; trace := [] |}.

(** ** A state monad with termination

    [Halt] is a process that has ended; [Spin] is a loop that ran out of
    fuel. *)

Inductive result (A : Type) :=
| Done (a : A)
| Halt (o : outcome)
| Spin.
Arguments Done {A} a.
Arguments Halt {A} o.
Arguments Spin {A}.

Definition M (A : Type) : Type := state -> result A * state.

Definition ret {A} (a : A) : M A := fun s => (Done a, s).

Definition bind {A B} (m : M A) (k : A -> M B) : M B :=
  fun s =>
    match m s with
    | (Done a, s') => k a s'
    | (Halt o, s') => (Halt o, s')
    | (Spin, s') => (Spin, s')
    end.

Declare Scope prog_scope.
Delimit Scope prog_scope with prog.
Notation "x <- m ;; k" := (bind m (fun x => k))
  (at level 61, m at next level, right associativity) : prog_scope.
Notation "m ;; k" := (bind m (fun _ => k))
  (at level 61, right associativity) : prog_scope.
Local Open Scope prog_scope.

Definition modify (f : state -> state) : M unit := fun s => (Done tt, f s).
Definition gets {A} (f : state -> A) : M A := fun s => (Done (f s), s).
Definition halt {A} (o : outcome) : M A := fun s => (Halt o, s).
Definition spin {A} : M A := fun s => (Spin, s).
Definition emit (e : event) : M unit :=
  modify (fun s => with_trace (trace s ++ [e]) s).

(** ** The program *)

Section Program.

Variable B : build.
Variable W : world.

(** *** External calls *)

(** [fopen] fails with a null pointer, every other call with [-1]. *)
Definition failed (c : external) (r : Z) : bool :=
  match c with
  | fopen _ _ => r =? 0
  | _ => r =? -1
  end.

(** An external call as such: it is recorded, and a failing one leaves
    its error number in [errno]. *)
Definition extern (c : external) : M Z :=
  emit (Call c) ;;
  (if failed c (returns W c)
   then modify (with_errno (fails_with W c))
   else ret tt) ;;
  ret (returns W c).

(** *** The signal handler and the restart request (lines 74-94, 327-331)

    The handler's [alarm(1)] re-arms [timer]; it is kept out of the
    trace, which lists what the main context does, plus the farewell of
    the interrupt handler. *)

Definition main_restart : M unit := modify (set RESTART 1).

Definition do_signal (sig : signum) : M unit :=
  match sig with
  | SIGALRM => modify (set ALARMED 1) ;; modify (with_timer 1)
  | SIGINT =>
      extern (log_printf "MAIN -> Caught SIGINT, bye!" []) ;;
      halt (Exited 0)
  | SIGHUP => modify (set RESTART 1)
  | SIGUSR1 => modify (set REOPEN 1)
  | SIGPIPE => ret tt
  end.

(** [SIGPIPE] is set to [SIG_IGN]: the handler is not run for it. *)
Definition handle (i : interrupt) : M unit :=
  match i with
  | Signal SIGPIPE => ret tt
  | Signal sig => do_signal sig
  | Restart_request => main_restart
  end.

Fixpoint handle_all (l : list interrupt) : M unit :=
  match l with
  | [] => ret tt
  | i :: l' => handle i ;; handle_all l'
  end.

Definition pending (s : state) : list interrupt :=
  nth (clock s) (signals W) [].

(** A delivery point: once the handlers are installed, whatever the
    schedule holds for this statement is handled before it runs. *)
Definition deliver : M unit :=
  fun s =>
    if handling s
    then (handle_all (pending s) ;;
          modify (fun s' => with_clock (S (clock s')) s')) s
    else (Done tt, s).

(** *** Statements of the main context *)

Definition call (c : external) : M Z := deliver ;; extern c.
Definition run (c : external) : M unit := call c ;; ret tt.

Definition load (f : flag) : M Z :=
  deliver ;; v <- gets (get f) ;; emit (Load f v) ;; ret v.

Definition store (f : flag) (v : Z) : M unit :=
  deliver ;; modify (set f v) ;; emit (Store f v).

(** [exit], [_exit] and [return] from [main]. *)
Definition exit {A} (status : Z) : M A := deliver ;; halt (Exited status).

(** [execv] comes back only with [-1]. *)
Definition do_execv (path : string) (argv : list string) : M Z :=
  r <- call (execv path argv) ;;
  if r =? -1 then ret r else halt (Replaced path argv).

(** [err(eval, fmt)]: message with the current [errno], then exit. *)
Definition do_err {A} (eval : Z) (fmt : string) : M A :=
  e <- gets errno ;; run (err eval fmt e) ;; exit eval.

Definition do_perror (s : string) : M unit :=
  e <- gets errno ;; run (perror s e).

(** *** The restart branch (lines 264-288) *)

Fixpoint cloexec_loop (fuel : nat) (i limit : Z) : M unit :=
  match fuel with
  | O => spin
  | S fuel' =>
      if i <? limit then
        run (fcntl_setfd_cloexec (to_int i)) ;;
        cloexec_loop fuel' (to_uint (i + 1)) limit
      else ret tt
  end.

Definition dquote : string := String (ascii_of_nat 34) EmptyString.

Definition execv_failed_fmt : string :=
  ("MAIN RESTART -> Execution of " ++ dquote ++ "%s" ++ dquote
   ++ " failed. ERROR: %s")%string.

Definition getrlimit_failed_fmt : string :=
  "MAIN RESTART -> getrlimit() error retrieving RLIMIT_NOFILE (%s)".

Definition restart (argv : list string) (fuel : nat) : M unit :=
  d <- gets OPT_DEBUG ;;
  if negb (d =? 0) then exit 1
  else
    run (log_printf "MAIN -> Restarting process" []) ;;
    r <- call (getrlimit RLIMIT_NOFILE) ;;
    if r =? -1 then
      e <- gets errno ;;
      run (log_printf getrlimit_failed_fmt [A_str (strerror W e)]) ;;
      exit 1
    else
      cloexec_loop fuel 0 (rlim_cur W RLIMIT_NOFILE) ;;
      r <- do_execv (HOPM_BINPATH B) argv ;;
      (if r =? -1 then
         e <- gets errno ;;
         run (log_printf execv_failed_fmt
                [A_str (HOPM_BINPATH B); A_str (strerror W e)])
       else ret tt) ;;
      exit 0.

(** *** Log reopening (lines 291-306) *)

Definition reopen : M unit :=
  run (log_printf "MAIN -> Caught SIGUSR1, reopening logfiles" []) ;;
  run log_close ;;
  l <- gets LOGFILE ;;
  run (log_open l) ;;
  o <- gets OptionsItem ;;
  match scanlog o with
  | Some p => run scanlog_close ;; run (scanlog_open p)
  | None => ret tt
  end ;;
  run (log_printf "MAIN -> reopened logfiles" []) ;;
  store REOPEN 0.

(** *** The one second timers (lines 309-316) *)

Definition timers : M unit :=
  run irc_timer ;;
  run scan_timer ;;
  run command_timer ;;
  store ALARMED 0.

(** *** One turn of the main loop (lines 257-317), and the loop *)

Definition restart_if_requested (argv : list string) (fuel : nat) : M unit :=
  r <- load RESTART ;;
  if r =? 0 then ret tt else restart argv fuel.

Definition reopen_if_requested : M unit :=
  o <- load REOPEN ;;
  if o =? 0 then ret tt else reopen.

Definition timers_if_alarmed : M unit :=
  a <- load ALARMED ;;
  if a =? 0 then ret tt else timers.

Definition loop_body (argv : list string) (fuel : nat) : M unit :=
  run irc_cycle ;;
  run scan_cycle ;;
  restart_if_requested argv fuel ;;
  reopen_if_requested ;;
  timers_if_alarmed.

(** [while (1)]: [n] bounds the turns taken, [fuel] the descriptor loop
    of a restart.  The statements after the loop (lines 319-324) cannot
    be reached and are left out. *)
Fixpoint main_loop (argv : list string) (fuel n : nat) : M Z :=
  match n with
  | O => spin
  | S n' => loop_body argv fuel ;; main_loop argv fuel n'
  end.

(** *** Bootstrap (lines 104-255) *)

Definition setup_corelimit : M unit :=
  r <- call (getrlimit RLIMIT_CORE) ;;
  if r =? 0
  then run (setrlimit RLIMIT_CORE (rlim_max W RLIMIT_CORE)
              (rlim_max W RLIMIT_CORE))
  else ret tt.

(** The option loop (lines 114-131).  [rets] lists what the successive
    calls of [getopt] hand back, as pairs of the return value and
    [optarg]; when the list is used up [getopt] returns [-1]. *)
Fixpoint parse_options (argv : list string) (rets : list (Z * string))
  : M unit :=
  emit (Call (getopt argv "dc:")) ;;
  match rets with
  | [] => ret tt
  | (c, optarg) :: rets' =>
      if c =? -1 then ret tt
      else
        (if c =? opt_c then modify (with_CONFNAME optarg)
         else if c =? opt_d
              then modify (fun s => with_OPT_DEBUG (to_uint (OPT_DEBUG s + 1)) s)
              else ret tt) ;;
        parse_options argv rets'
  end.

(** [snprintf(buf, size, ...)] keeps at most [size - 1] characters. *)
Definition snprintf (size : nat) (s : string) : string :=
  substring 0 (size - 1) s.

Definition path_of (dir name ext : string) : string :=
  (dir ++ "/" ++ name ++ "." ++ ext)%string.

Definition resolve_paths : M unit :=
  modify (fun s =>
    let lenc := (String.length (HOPM_ETCDIR B) + String.length (CONFNAME s)
                 + String.length (CONFEXT B) + 3)%nat in
    let lenl := (String.length (HOPM_LOGDIR B) + String.length (CONFNAME s)
                 + String.length (LOGEXT B) + 3)%nat in
    with_files
      (snprintf lenc (path_of (HOPM_ETCDIR B) (CONFNAME s) (CONFEXT B)))
      (snprintf lenl (path_of (HOPM_LOGDIR B) (CONFNAME s) (LOGEXT B)))
      s).

(** The fork-off block (lines 155-192), taken when [OPT_DEBUG == 0]. *)
Definition daemonize : M unit :=
  pid <- call fork ;;
  (if pid <? 0 then do_perror "fork()" ;; exit EXIT_FAILURE
   else if negb (pid =? 0) then exit EXIT_SUCCESS
   else ret tt) ;;
  r <- call (setpgid 0 0) ;;
  (if r <? 0 then do_perror "setpgid()" ;; exit EXIT_FAILURE else ret tt) ;;
  run (umask 63) ;;
  fd <- call (open_rdwr "/dev/null") ;;
  (if fd <? 0 then do_perror "open()" ;; exit EXIT_FAILURE else ret tt) ;;
  run (dup2 fd 0) ;;
  run (dup2 fd 1) ;;
  run (dup2 fd 2) ;;
  (if fd >? 2 then run (close fd) else ret tt) ;;
  l <- gets LOGFILE ;;
  r <- call (unveil l "wc") ;;
  (if r =? -1 then do_err 1 "unveil" else ret tt) ;;
  run (log_open l).

Definition broad_promises : string :=
  "stdio rpath wpath cpath inet dns proc exec unveil".
Definition final_promises : string := "stdio inet dns exec".

Definition pid_fmt : string := ("%u" ++ newline)%string.

(** Lines 104-110. *)
Definition enter_sandbox : M unit :=
  r <- call (pledge broad_promises) ;;
  (if r =? -1 then do_err 1 "pledge" else ret tt) ;;
  r <- call (unveil "/" "") ;;
  (if negb (r =? 0) then do_err 1 "unveil" else ret tt).

(** Lines 142-150. *)
Definition enter_prefix : M unit :=
  r <- call (unveil (HOPM_PREFIX B) "r") ;;
  (if r =? -1 then do_err 1 "unveil" else ret tt) ;;
  r <- call (chdir (HOPM_PREFIX B)) ;;
  (if negb (r =? 0) then do_perror "chdir" ;; exit EXIT_FAILURE
   else ret tt).

(** Lines 153-195. *)
Definition detach : M unit :=
  d <- gets OPT_DEBUG ;;
  if d =? 0 then daemonize
  else run (log_printf "MAIN -> Debug level %d" [A_int (to_int d)]).

(** Lines 197-212. *)
Definition load_config : M unit :=
  run (log_printf "MAIN -> HOPM %s started." [A_str (VERSION B)]) ;;
  run (log_printf "MAIN -> Reading configuration file..." []) ;;
  c <- gets CONFFILE ;;
  r <- call (unveil c "r") ;;
  (if r =? -1 then do_err 1 "unveil" else ret tt) ;;
  run (config_load c) ;;
  modify (with_OptionsItem (loaded_options W)) ;;
  o <- gets OptionsItem ;;
  match scanlog o with
  | Some p =>
      r <- call (unveil p "wc") ;;
      (if negb (r =? 0) then do_err 1 "unveil" else ret tt) ;;
      run (scanlog_open p)
  | None => ret tt
  end.

(** Lines 214-238. *)
Definition write_pidfile : M unit :=
  o <- gets OptionsItem ;;
  r <- call (unveil (pidfile o) "wc") ;;
  (if negb (r =? 0) then do_err 1 "unveil" else ret tt) ;;
  pidout <- call (fopen (pidfile o) "w") ;;
  r <- call (unveil (HOPM_BINPATH B) "x") ;;
  (if r =? -1 then do_err 1 "unveil" else ret tt) ;;
  r <- call (pledge final_promises) ;;
  (if r =? -1 then do_err 1 "pledge" else ret tt) ;;
  if negb (pidout =? 0) then
    pid <- call getpid ;;
    run (fprintf pidout pid_fmt [A_uint (to_uint pid)]) ;;
    run (fclose pidout)
  else
    e <- gets errno ;;
    run (log_printf "MAIN -> Error opening pid file %s: %s"
           [A_str (pidfile o); A_str (strerror W e)]) ;;
    exit EXIT_FAILURE.

(** Lines 240-255.  From the last installation on, the schedule of
    interrupts applies. *)
Definition install_handlers : M unit :=
  run (sigaction SIGALRM true) ;;
  run (sigaction SIGINT false) ;;
  run (sigaction SIGHUP false) ;;
  run (sigaction SIGUSR1 false) ;;
  run (signal_ignore SIGPIPE) ;;
  modify (with_handling true) ;;
  run (alarm 1) ;;
  modify (with_timer 1).

(** Everything up to the pid file (lines 104-212). *)
Definition bring_up (argv : list string) : M unit :=
  enter_sandbox ;;
  setup_corelimit ;;
  parse_options argv (getopt_returns W) ;;
  resolve_paths ;;
  enter_prefix ;;
  detach ;;
  load_config.

Definition startup (argv : list string) : M unit :=
  bring_up argv ;;
  write_pidfile ;;
  install_handlers.

Definition main (argv : list string) (fuel n : nat) : M Z :=
  startup argv ;; main_loop argv fuel n.

End Program.

(** ** Observations on runs

    Definitions used to state the properties below. *)

Definition is_SIGINT (i : interrupt) : bool :=
  match i with
  | Signal SIGINT => true
  | _ => false
  end.

(** The schedule holds no interrupt request ([SIGINT] ends the process
    on the spot, wherever the main context is). *)
Definition no_SIGINT (W : world) : bool :=
  forallb (fun l => negb (existsb is_SIGINT l)) (signals W).

(** What an interrupt other than [SIGINT] leaves behind. *)
Definition noted (s : state) (i : interrupt) : state :=
  match i with
  | Signal SIGALRM => with_timer 1 (set ALARMED 1 s)
  | Signal SIGHUP => set RESTART 1 s
  | Signal SIGUSR1 => set REOPEN 1 s
  | Restart_request => set RESTART 1 s
  | _ => s
  end.

(** The state after a delivery point that [SIGINT] does not hit. *)
Definition delivered (W : world) (s : state) : state :=
  if handling s
  then let s' := fold_left noted (pending W s) s in
       with_clock (S (clock s')) s'
  else s.

(** The state after an external call. *)
Definition called (W : world) (c : external) (s : state) : state :=
  let s' := with_trace (trace s ++ [Call c]) s in
  if failed c (returns W c) then with_errno (fails_with W c) s' else s'.

Definition loaded (f : flag) (s : state) : state :=
  with_trace (trace s ++ [Load f (get f s)]) s.

Definition stored (f : flag) (v : Z) (s : state) : state :=
  let s' := set f v s in with_trace (trace s' ++ [Store f v]) s'.

(** What a turn does when it does not restart. *)
Definition housekeeping (W : world) : M unit :=
  reopen_if_requested W ;; timers_if_alarmed W.

Definition progressed (W : world) (s : state) : state :=
  called W scan_cycle (delivered W (called W irc_cycle (delivered W s))).

(** The events recorded between two states of one run. *)
Definition since (s s' : state) : list event :=
  skipn (List.length (trace s)) (trace s').

(** The farewell of the interrupt handler. *)
Definition bye : event := Call (log_printf "MAIN -> Caught SIGINT, bye!" []).

Inductive status := Returned | Ended | Unfinished.

Definition status_of {A} (r : result A) : status :=
  match r with
  | Done _ => Returned
  | Halt _ => Ended
  | Spin => Unfinished
  end.

(** [emits P m]: whatever the state, [m] only appends to the trace, what
    it appends satisfies [P] (which is told how [m] ended), and a
    [RESTART] flag that was raised is still raised afterwards. *)
Definition emits {A} (P : status -> list event -> Prop) (m : M A) : Prop :=
  forall s, exists new,
    trace (snd (m s)) = trace s ++ new
    /\ P (status_of (fst (m s))) new
    /\ (get RESTART s <> 0 -> get RESTART (snd (m s)) <> 0).

(** Properties of traces that survive sequencing. *)
Class Sequential (P : status -> list event -> Prop) : Prop := {
  seq_nil : P Returned [];
  seq_app : forall d a b, P Returned a -> P d b -> P d (a ++ b)
}.

(** [never m]: [m] does not return to its caller. *)
Definition never {A} (m : M A) : Prop :=
  forall s, status_of (fst (m s)) <> Returned.

(** [finishes m]: [m] does not run out of fuel. *)
Definition finishes {A} (m : M A) : Prop :=
  forall s, status_of (fst (m s)) <> Unfinished.

(** *** Kinds of events *)

Definition progress_event (e : event) : bool :=
  match e with
  | Call irc_cycle | Call scan_cycle => true
  | _ => false
  end.

Definition rotation_event (e : event) : bool :=
  match e with
  | Load REOPEN _ | Store REOPEN _ => true
  | Call log_close | Call (log_open _) => true
  | Call scanlog_close | Call (scanlog_open _) => true
  | _ => false
  end.

Definition timer_event (e : event) : bool :=
  match e with
  | Load ALARMED _ | Store ALARMED _ => true
  | Call irc_timer | Call scan_timer | Call command_timer => true
  | _ => false
  end.

(** Neither a progress call, nor part of log rotation, nor part of the
    timers. *)
Definition quiescent (e : event) : bool :=
  negb (progress_event e || rotation_event e || timer_event e).

Definition reads (f : flag) (e : event) : bool :=
  match e, f with
  | Load RESTART _, RESTART => true
  | Load ALARMED _, ALARMED => true
  | Load REOPEN _, REOPEN => true
  | _, _ => false
  end.

(** Every event of the list passes the test [p]. *)
Definition all (p : event -> bool) (_ : status) (l : list event) : Prop :=
  forallb p l = true.

(** [upto i k]: the [k] numbers from [i] on. *)
Fixpoint upto (i : Z) (k : nat) : list Z :=
  match k with
  | O => []
  | S k' => i :: upto (i + 1) k'
  end.

Definition mark (fd : Z) : event := Call (fcntl_setfd_cloexec fd).

(** The descriptors a trace marks close-on-exec, in order. *)
Definition marked (l : list event) : list Z :=
  flat_map (fun e => match e with
                     | Call (fcntl_setfd_cloexec fd) => [fd]
                     | _ => []
                     end) l.

Definition restarting_log : event :=
  Call (log_printf "MAIN -> Restarting process" []).

Definition getrlimit_failed_log (W : world) : event :=
  Call (log_printf getrlimit_failed_fmt
          [A_str (strerror W (fails_with W (getrlimit RLIMIT_NOFILE)))]).

Definition execv_failed_log (B : build) (W : world) (argv : list string)
  : event :=
  Call (log_printf execv_failed_fmt
          [A_str (HOPM_BINPATH B);
           A_str (strerror W (fails_with W (execv (HOPM_BINPATH B) argv)))]).

(** What log rotation and the timers record when they run. *)
Definition rotation (s : state) : list event :=
  [Call (log_printf "MAIN -> Caught SIGUSR1, reopening logfiles" []);
   Call log_close; Call (log_open (LOGFILE s))]
  ++ match scanlog (OptionsItem s) with
     | Some p => [Call scanlog_close; Call (scanlog_open p)]
     | None => []
     end
  ++ [Call (log_printf "MAIN -> reopened logfiles" []); Store REOPEN 0].

Definition ticks : list event :=
  [Call irc_timer; Call scan_timer; Call command_timer; Store ALARMED 0].

(** ** Sample worlds

    Concrete inputs on which the properties below are exercised. *)

Definition sample_build : build :=
  {| HOPM_PREFIX := "/usr/local";
     HOPM_ETCDIR := "/usr/local/etc";
     HOPM_LOGDIR := "/usr/local/var/log";
     HOPM_BINPATH := "/usr/local/bin/hopm";
     DEFAULTNAME := "hopm";
     CONFEXT := "conf";
     LOGEXT := "log";
     VERSION := "1.1.10" |}.

Definition sample_options : OptionsConf :=
  {| scanlog := Some "/var/log/hopm-scan.log"%string;
     pidfile := "/var/run/hopm.pid" |}.

(** Every call succeeds; the standard streams are open, so [open]
    yields descriptor 3; the pid is 4242. *)
Definition all_succeed (c : external) : Z :=
  match c with
  | fopen _ _ => 7
  | open_rdwr _ => 3
  | getpid => 4242
  | _ => 0
  end.

(** As [all_succeed], but [execv] fails and so does marking
    descriptor 2. *)
Definition execv_fails (c : external) : Z :=
  match c with
  | execv _ _ => -1
  | fcntl_setfd_cloexec 2 => -1
  | _ => all_succeed c
  end.

(** As [all_succeed], but the descriptor ceiling cannot be queried. *)
Definition getrlimit_fails (c : external) : Z :=
  match c with
  | getrlimit RLIMIT_NOFILE => -1
  | _ => all_succeed c
  end.

(** As [all_succeed], but the pid file cannot be opened. *)
Definition fopen_fails (c : external) : Z :=
  match c with
  | fopen _ _ => 0
  | _ => all_succeed c
  end.

Definition sample_world (rets : external -> Z) (opts : list (Z * string))
    (sched : list (list interrupt)) : world :=
  {| returns := rets;
     fails_with := fun _ => 13;
     getopt_returns := opts;
     loaded_options := sample_options;
     rlim_cur := fun _ => 4;
     rlim_max := fun _ => 8;
     strerror := fun e => if e =? 13 then "Permission denied"%string
                          else "Unknown error"%string;
     signals := sched |}.

(** A state inside the main loop, at debug level [d]. *)
Definition running (d : Z) : state :=
  with_handling true
    (with_OptionsItem sample_options
       (with_files "/usr/local/etc/hopm.conf" "/usr/local/var/log/hopm.log"
          (with_OPT_DEBUG d (initial sample_build)))).

(** A hang-up arrives while [irc_cycle] runs. *)
Definition hangup : list (list interrupt) := [[]; [Signal SIGHUP]].

(** *** Well-formed timer handling

    [idle e]: [e] is neither a timer call, nor a write of [ALARMED], nor
    a read of [ALARMED] that finds it set.  A trace is [ticked] when
    every read of [ALARMED] that finds it set opens a block made of that
    read and of [ticks], and no timer event occurs outside such
    blocks. *)

Definition idle (e : event) : bool :=
  match e with
  | Load ALARMED v => v =? 0
  | _ => negb (timer_event e)
  end.

Inductive ticked : list event -> Prop :=
| ticked_nil : ticked []
| ticked_idle e l : idle e = true -> ticked l -> ticked (e :: l)
| ticked_block v l :
    v <> 0 -> ticked l -> ticked (Load ALARMED v :: ticks ++ l).

Definition always (P : list event -> Prop) (_ : status) (l : list event)
  : Prop := P l.

(** *** Before and after the restart request is seen

    A trace is [calm] when no read of [RESTART] in it finds the flag
    set; it is [final] when it splits into a calm part and a part
    without progress, rotation or timer events.  [phased bounded]
    relates how a program ended to what it recorded: having returned,
    the trace is calm; having ended the process, it is final; having run
    out of fuel, it is calm if the descriptor loop is known to finish
    ([bounded]) and final otherwise. *)

Definition calm_event (e : event) : bool :=
  match e with
  | Load RESTART v => v =? 0
  | _ => true
  end.

Definition calm (l : list event) : Prop := forallb calm_event l = true.

Definition final (l : list event) : Prop :=
  exists pre post,
    l = pre ++ post
    /\ forallb calm_event pre = true
    /\ forallb quiescent post = true.

Definition phased (bounded : bool) (k : status) (l : list event) : Prop :=
  match k with
  | Returned => calm l
  | Ended => final l
  | Unfinished => if bounded then calm l else final l
  end.

(** *** What a bootstrap records, phase by phase *)

Definition daemon_events (W : world) (logfile : string) : list event :=
  let fd := returns W (open_rdwr "/dev/null") in
  [Call fork; Call (setpgid 0 0); Call (umask 63);
   Call (open_rdwr "/dev/null");
   Call (dup2 fd 0); Call (dup2 fd 1); Call (dup2 fd 2)]
  ++ (if fd >? 2 then [Call (close fd)] else [])
  ++ [Call (unveil logfile "wc"); Call (log_open logfile)].

Definition detach_events (W : world) (s : state) : list event :=
  if OPT_DEBUG s =? 0 then daemon_events W (LOGFILE s)
  else [Call (log_printf "MAIN -> Debug level %d"
                [A_int (to_int (OPT_DEBUG s))])].

Definition config_events (B : build) (W : world) (s : state) : list event :=
  [Call (log_printf "MAIN -> HOPM %s started." [A_str (VERSION B)]);
   Call (log_printf "MAIN -> Reading configuration file..." []);
   Call (unveil (CONFFILE s) "r"); Call (config_load (CONFFILE s))]
  ++ match scanlog (loaded_options W) with
     | Some p => [Call (unveil p "wc"); Call (scanlog_open p)]
     | None => []
     end.

Definition pidfile_events (B : build) (W : world) : list event :=
  let pf := pidfile (loaded_options W) in
  let pidout := returns W (fopen pf "w") in
  [Call (unveil pf "wc"); Call (fopen pf "w");
   Call (unveil (HOPM_BINPATH B) "x"); Call (pledge final_promises);
   Call getpid;
   Call (fprintf pidout pid_fmt [A_uint (to_uint (returns W getpid))]);
   Call (fclose pidout)].

Definition handler_events : list event :=
  [Call (sigaction SIGALRM true); Call (sigaction SIGINT false);
   Call (sigaction SIGHUP false); Call (sigaction SIGUSR1 false);
   Call (signal_ignore SIGPIPE); Call (alarm 1)].

(** What is recorded before the installation root is entered; [k] is
    the number of calls of [getopt]. *)
Definition sandbox_events (W : world) (argv : list string) (k : nat)
  : list event :=
  [Call (pledge broad_promises); Call (unveil "/" "");
   Call (getrlimit RLIMIT_CORE)]
  ++ (if returns W (getrlimit RLIMIT_CORE) =? 0
      then [Call (setrlimit RLIMIT_CORE (rlim_max W RLIMIT_CORE)
                    (rlim_max W RLIMIT_CORE))]
      else [])
  ++ repeat (Call (getopt argv "dc:")) k.

Definition prefix_events (B : build) : list event :=
  [Call (unveil (HOPM_PREFIX B) "r"); Call (chdir (HOPM_PREFIX B))].

Definition bring_up_events (B : build) (W : world) (argv : list string)
    (k : nat) (s : state) : list event :=
  sandbox_events W argv k ++ prefix_events B ++ detach_events W s
  ++ config_events B W s.

(** The calls of [unveil] in a trace, as pairs of path and
    permissions, in order. *)
Definition unveils (l : list event) : list (string * string) :=
  flat_map (fun e => match e with
                     | Call (unveil path perms) => [(path, perms)]
                     | _ => []
                     end) l.

(** The grants among them: [unveil("/", "")] hides the filesystem and
    confers no right. *)
Definition grants (l : list event) : list (string * string) :=
  filter (fun g => negb (String.eqb (snd g) "")) (unveils l).

(** What a trace holds after the first occurrence of [e]. *)
Fixpoint after (same : event -> bool) (l : list event) : list event :=
  match l with
  | [] => []
  | e :: l' => if same e then l' else after same l'
  end.

Definition is_final_pledge (e : event) : bool :=
  match e with
  | Call (pledge promises) => String.eqb promises final_promises
  | _ => false
  end.

Definition is_pid_write (e : event) : bool :=
  match e with
  | Call (fprintf _ _ _) => true
  | _ => false
  end.

Definition is_fopen (e : event) : bool :=
  match e with
  | Call (fopen _ _) => true
  | _ => false
  end.

(** Position of the first event passing a test. *)
Fixpoint position (p : event -> bool) (l : list event) : option nat :=
  match l with
  | [] => None
  | e :: l' => if p e then Some O
               else match position p l' with
                    | Some n => Some (S n)
                    | None => None
                    end
  end.

(** A state agrees with another on what the bootstrap has settled. *)
Definition settled (s s' : state) : Prop :=
  handling s' = handling s /\ OPT_DEBUG s' = OPT_DEBUG s
  /\ CONFNAME s' = CONFNAME s
  /\ CONFFILE s' = CONFFILE s /\ LOGFILE s' = LOGFILE s
  /\ OptionsItem s' = OptionsItem s.

(** *** What [fprintf] writes

    A model of the conversions [main] uses: [%u], [%d] and [%s]. *)

Definition decimal (n : Z) : string :=
  NilZero.string_of_uint (N.to_uint (Z.to_N n)).

Definition render_arg (a : arg) : string :=
  match a with
  | A_str s => s
  | A_int d => if d <? 0 then String "-" (decimal (- d)) else decimal d
  | A_uint u => decimal u
  end.

Fixpoint render (fmt : string) (args : list arg) : string :=
  match fmt with
  | EmptyString => EmptyString
  | String "%" (String _ fmt') =>
      match args with
      | a :: args' => (render_arg a ++ render fmt' args')%string
      | [] => render fmt' []
      end
  | String c fmt' => String c (render fmt' args)
  end.

(** What a trace writes to a stream. *)
Fixpoint written (stream : Z) (l : list event) : string :=
  match l with
  | [] => EmptyString
  | Call (fprintf st fmt args) :: l' =>
      if st =? stream then (render fmt args ++ written stream l')%string
      else written stream l'
  | _ :: l' => written stream l'
  end.

(** The property that the final narrowing follows the writing of the pid,
    on a trace. *)
Definition narrowed_after_pid_write (l : list event) : Prop :=
  exists i j,
    position is_final_pledge l = Some i
    /\ position is_pid_write l = Some j
    /\ (j < i)%nat.

Definition pidfile_error_log (W : world) : event :=
  let pf := pidfile (loaded_options W) in
  Call (log_printf "MAIN -> Error opening pid file %s: %s"
          [A_str pf; A_str (strerror W (fails_with W (fopen pf "w")))]).

(** Before the pid file is dealt with, nothing opens a stream, writes
    to one, or narrows the permissions for good. *)
Definition early (e : event) : bool :=
  negb (is_final_pledge e) && negb (is_fopen e) && negb (is_pid_write e).

(** ** Further observations *)

(** The flag an interrupt raises, if any. *)
Definition raises (f : flag) (i : interrupt) : bool :=
  match i, f with
  | Signal SIGALRM, ALARMED => true
  | Signal SIGHUP, RESTART => true
  | Restart_request, RESTART => true
  | Signal SIGUSR1, REOPEN => true
  | _, _ => false
  end.

(** What [getopt] hands back before its first [-1]: the options the
    loop of [main] gets to see. *)
Fixpoint seen_options (rets : list (Z * string)) : list (Z * string) :=
  match rets with
  | [] => []
  | (c, optarg) :: rets' =>
      if c =? -1 then [] else (c, optarg) :: seen_options rets'
  end.

(** The argument of the last [-c] among the options, [name] if there
    is none. *)
Definition last_name (name : string) (opts : list (Z * string)) : string :=
  fold_left (fun n r => if fst r =? opt_c then snd r else n) opts name.

(** The number of [-d] among the options. *)
Definition debug_flags (opts : list (Z * string)) : nat :=
  List.length (filter (fun r => fst r =? opt_d) opts).

Definition is_getopt (e : event) : bool :=
  match e with
  | Call (getopt _ _) => true
  | _ => false
  end.

(** The calls the main loop and its restart branch make. *)
Definition loop_event (e : event) : bool :=
  match e with
  | Load _ _ | Store _ _ => true
  | Call irc_cycle | Call scan_cycle => true
  | Call irc_timer | Call scan_timer | Call command_timer => true
  | Call (log_printf _ _) => true
  | Call log_close | Call (log_open _) => true
  | Call scanlog_close | Call (scanlog_open _) => true
  | Call (getrlimit RLIMIT_NOFILE) => true
  | Call (fcntl_setfd_cloexec _) => true
  | Call (execv _ _) => true
  | _ => false
  end.

(** [keeps m]: [m] leaves what the bootstrap has settled as it is. *)
Definition keeps {A} (m : M A) : Prop :=
  forall s, settled s (snd (m s)).

(** The schedule holds neither [SIGINT] nor a request to restart. *)
Definition undisturbed (W : world) : bool :=
  forallb (forallb (fun i => negb (is_SIGINT i || raises RESTART i)))
    (signals W).

(** The turns of the main loop a trace shows: each one opens with the
    IRC cycle. *)
Definition turns (l : list event) : nat :=
  List.length (filter (fun e => match e with
                                | Call irc_cycle => true
                                | _ => false
                                end) l).

(** [rests W m]: [m] does not raise [RESTART]. *)
Definition rests {A} (m : M A) : Prop :=
  forall s, get RESTART s = 0 -> get RESTART (snd (m s)) = 0.

(** *** Well-formed log rotation

    [steady e]: [e] is neither a step of a rotation, nor a write of
    [REOPEN], nor a read of [REOPEN] that finds it set.  A trace is
    [rotated block] when every read of [REOPEN] that finds it set opens
    a block made of that read and of [block], and no rotation event
    occurs outside such blocks. *)

Definition steady (e : event) : bool :=
  match e with
  | Load REOPEN v => v =? 0
  | _ => negb (rotation_event e)
  end.

Inductive rotated (block : list event) : list event -> Prop :=
| rotated_nil : rotated block []
| rotated_steady e l :
    steady e = true -> rotated block l -> rotated block (e :: l)
| rotated_block v l :
    v <> 0 -> rotated block l ->
    rotated block (Load REOPEN v :: block ++ l).

(** *** How a bootstrap ends

    [boots Q m]: run before the handlers are installed, [m] leaves them
    uninstalled, does not run out of fuel, and when it ends the process
    the outcome and the trace satisfy [Q]. *)

Definition boots {A} (Q : outcome -> list event -> Prop) (m : M A) : Prop :=
  forall s, handling s = false ->
    handling (snd (m s)) = false
    /\ match fst (m s) with
       | Done _ => True
       | Halt o => Q o (trace (snd (m s)))
       | Spin => False
       end.

(** A message on the standard error stream or in the log. *)
Definition diagnostic (e : event) : bool :=
  match e with
  | Call (err _ _ _) | Call (perror _ _) | Call (log_printf _ _) => true
  | _ => false
  end.

(** The process ends with status 1 right after a diagnostic, or with
    status 0 right after a [fork] that returned the pid of a child, or
    with status 0 right after the farewell of the interrupt handler. *)
Definition loudly (W : world) (o : outcome) (l : list event) : Prop :=
  exists pre e,
    l = pre ++ [e]
    /\ ((o = Exited EXIT_FAILURE /\ diagnostic e = true)
        \/ (o = Exited EXIT_SUCCESS /\ e = Call fork
            /\ 0 < returns W fork)
        \/ (o = Exited EXIT_SUCCESS /\ e = bye)).

Definition nowhere (o : outcome) (l : list event) : Prop := False.

(** *** Restrictions that took effect

    [granted W e]: if [e] is a call of [pledge] or [unveil], the call
    did not fail. *)
Definition granted (W : world) (e : event) : bool :=
  match e with
  | Call (pledge promises) => negb (returns W (pledge promises) =? -1)
  | Call (unveil path perms) => negb (returns W (unveil path perms) =? -1)
  | _ => true
  end.

(** [sealed W m]: run before the handlers are installed, [m] leaves them
    uninstalled and returns only if every call of [pledge] and [unveil]
    it made took effect. *)
Definition sealed {A} (W : world) (m : M A) : Prop :=
  forall s pre new,
    handling s = false ->
    trace s = pre ++ new ->
    forallb (granted W) new = true ->
    handling (snd (m s)) = false
    /\ forall a,
         fst (m s) = Done a ->
         exists new',
           trace (snd (m s)) = pre ++ new'
           /\ forallb (granted W) new' = true.

(** *** Requests that arrive during a run

    [raised W f a b]: one of the batches of interrupts that the schedule
    holds for the delivery points [a], ..., [b - 1] raises the flag
    [f]. *)
Definition raised (W : world) (f : flag) (a b : nat) : bool :=
  existsb (fun k => existsb (raises f) (nth k (signals W) []))
    (seq a (b - a)).

(** [carries W f s s']: from [s] to [s'] the clock has not gone back,
    and if [f] was set in [s] or raised on the way, it is set in
    [s']. *)
Definition carries (W : world) (f : flag) (s s' : state) : Prop :=
  (clock s <= clock s')%nat
  /\ (get f s <> 0 \/ raised W f (clock s) (clock s') = true ->
      get f s' <> 0).

(** [retains W f m]: [m] loses no request made through [f]. *)
Definition retains {A} (W : world) (f : flag) (m : M A) : Prop :=
  forall s, carries W f s (snd (m s)).

(** A log rotation is requested while [irc_cycle] runs, and a hang-up
    arrives during the rotation, before the log is closed. *)
Definition hangup_in_rotation : list (list interrupt) :=
  [[Signal SIGUSR1]; []; []; []; []; [Signal SIGHUP]].

(** * Properties *)

(** ** What a delivery point and a statement leave untouched *)

Lemma noted_all_frame l s :
  let s' := fold_left noted l s in
  trace s' = trace s /\ OPT_DEBUG s' = OPT_DEBUG s /\ errno s' = errno s
  /\ LOGFILE s' = LOGFILE s /\ OptionsItem s' = OptionsItem s
  /\ handling s' = handling s /\ clock s' = clock s
  /\ CONFNAME s' = CONFNAME s /\ CONFFILE s' = CONFFILE s.
Proof.
  revert s. induction l as [|i l IH]; intros s; simpl; [tauto|].
  specialize (IH (noted s i)). simpl in IH.
  destruct i as [[]|]; simpl in *; tauto.
Qed.

Lemma noted_all_sticky f l s :
  get f s <> 0 -> get f (fold_left noted l s) <> 0.
Proof.
  revert s. induction l as [|i l IH]; intros s H; simpl; [exact H|].
  apply IH. destruct i as [[]|], f; unfold get in *; simpl in *;
    try exact H; lia.
Qed.

Ltac delivered_frame :=
  unfold delivered;
  match goal with
  | |- context [handling ?s] =>
      destruct (handling s); [simpl; apply noted_all_frame|reflexivity]
  end.

Section Frame.

Variable W : world.

Lemma trace_delivered s : trace (delivered W s) = trace s.
Proof. delivered_frame. Qed.

Lemma OPT_DEBUG_delivered s : OPT_DEBUG (delivered W s) = OPT_DEBUG s.
Proof. delivered_frame. Qed.

Lemma errno_delivered s : errno (delivered W s) = errno s.
Proof. delivered_frame. Qed.

Lemma LOGFILE_delivered s : LOGFILE (delivered W s) = LOGFILE s.
Proof. delivered_frame. Qed.

Lemma OptionsItem_delivered s : OptionsItem (delivered W s) = OptionsItem s.
Proof. delivered_frame. Qed.

Lemma CONFNAME_delivered s : CONFNAME (delivered W s) = CONFNAME s.
Proof. delivered_frame. Qed.

Lemma CONFFILE_delivered s : CONFFILE (delivered W s) = CONFFILE s.
Proof. delivered_frame. Qed.

Lemma sticky_delivered f s : get f s <> 0 -> get f (delivered W s) <> 0.
Proof.
  intros H. unfold delivered. destruct (handling s); [|exact H].
  cbv zeta.
  replace (get f (with_clock _ (fold_left noted (pending W s) s)))
    with (get f (fold_left noted (pending W s) s)) by now destruct f.
  now apply noted_all_sticky.
Qed.

Lemma trace_called c s : trace (called W c s) = trace s ++ [Call c].
Proof. unfold called. now destruct (failed c (returns W c)). Qed.

Lemma OPT_DEBUG_called c s : OPT_DEBUG (called W c s) = OPT_DEBUG s.
Proof. unfold called. now destruct (failed c (returns W c)). Qed.

Lemma LOGFILE_called c s : LOGFILE (called W c s) = LOGFILE s.
Proof. unfold called. now destruct (failed c (returns W c)). Qed.

Lemma OptionsItem_called c s : OptionsItem (called W c s) = OptionsItem s.
Proof. unfold called. now destruct (failed c (returns W c)). Qed.

Lemma CONFNAME_called c s : CONFNAME (called W c s) = CONFNAME s.
Proof. unfold called. now destruct (failed c (returns W c)). Qed.

Lemma CONFFILE_called c s : CONFFILE (called W c s) = CONFFILE s.
Proof. unfold called. now destruct (failed c (returns W c)). Qed.

Lemma handling_called c s : handling (called W c s) = handling s.
Proof. unfold called. now destruct (failed c (returns W c)). Qed.

Lemma get_called f c s : get f (called W c s) = get f s.
Proof. unfold called. now destruct (failed c (returns W c)), f. Qed.

Lemma errno_called c s :
  errno (called W c s)
  = if failed c (returns W c) then fails_with W c else errno s.
Proof. unfold called. now destruct (failed c (returns W c)). Qed.

Lemma trace_loaded f s : trace (loaded f s) = trace s ++ [Load f (get f s)].
Proof. reflexivity. Qed.

Lemma trace_stored f v s : trace (stored f v s) = trace s ++ [Store f v].
Proof. reflexivity. Qed.

End Frame.

Create Rewrite HintDb frame.
#[local] Hint Rewrite trace_delivered OPT_DEBUG_delivered errno_delivered
  LOGFILE_delivered OptionsItem_delivered CONFNAME_delivered
  CONFFILE_delivered trace_called OPT_DEBUG_called
  LOGFILE_called OptionsItem_called CONFFILE_called CONFNAME_called
  handling_called get_called
  trace_loaded trace_stored : frame.

(** ** Delivery points without [SIGINT] *)

Section Quiet.

Variable W : world.
Hypothesis quiet : no_SIGINT W = true.

Lemma extern_eq c s : extern W c s = (Done (returns W c), called W c s).
Proof.
  unfold extern, called, bind, emit, modify, ret.
  destruct (failed c (returns W c)); reflexivity.
Qed.

Lemma handle_all_quiet l s :
  existsb is_SIGINT l = false ->
  handle_all W l s = (Done tt, fold_left noted l s).
Proof.
  revert s. induction l as [|i l IH]; intros s H; [reflexivity|].
  simpl in H. apply orb_false_iff in H as [Hi Hl].
  simpl. unfold bind.
  assert (Hh : handle W i s = (Done tt, noted s i)).
  { destruct i as [[]|]; try reflexivity. discriminate. }
  rewrite Hh. now apply IH.
Qed.

Lemma pending_quiet s : existsb is_SIGINT (pending W s) = false.
Proof.
  unfold pending. pose proof quiet as H. unfold no_SIGINT in H.
  rewrite forallb_forall in H.
  destruct (nth_in_or_default (clock s) (signals W) []) as [Hin|Hd].
  - apply H in Hin. now apply negb_true_iff in Hin.
  - now rewrite Hd.
Qed.

Lemma deliver_quiet s : deliver W s = (Done tt, delivered W s).
Proof.
  unfold deliver, delivered.
  destruct (handling s); [|reflexivity].
  unfold bind. rewrite handle_all_quiet by apply pending_quiet.
  reflexivity.
Qed.

(** Each statement, followed by the rest of the program. *)

Lemma bind_ret {A C} (a : A) (k : A -> M C) s : (x <- ret a ;; k x) s = k a s.
Proof. reflexivity. Qed.

Lemma bind_gets {A C} (f : state -> A) (k : A -> M C) s :
  (x <- gets f ;; k x) s = k (f s) s.
Proof. reflexivity. Qed.

Lemma bind_modify {C} (f : state -> state) (k : unit -> M C) s :
  (x <- modify f ;; k x) s = k tt (f s).
Proof. reflexivity. Qed.

Lemma bind_assoc {A C D} (m : M A) (k : A -> M C) (k' : C -> M D) s :
  (y <- (x <- m ;; k x) ;; k' y) s = (x <- m ;; y <- k x ;; k' y) s.
Proof. unfold bind. destruct (m s) as [[a|o|] s']; reflexivity. Qed.

Lemma bind_call {C} c (k : Z -> M C) s :
  (r <- call W c ;; k r) s = k (returns W c) (called W c (delivered W s)).
Proof.
  unfold call. rewrite bind_assoc. unfold bind at 1.
  rewrite deliver_quiet. unfold bind. now rewrite extern_eq.
Qed.

Lemma bind_run {C} c (k : unit -> M C) s :
  (x <- run W c ;; k x) s = k tt (called W c (delivered W s)).
Proof. unfold run. rewrite bind_assoc. now rewrite bind_call. Qed.

Lemma bind_load {C} f (k : Z -> M C) s :
  (v <- load W f ;; k v) s
  = k (get f (delivered W s)) (loaded f (delivered W s)).
Proof.
  unfold load. rewrite bind_assoc. unfold bind at 1.
  rewrite deliver_quiet. reflexivity.
Qed.

Lemma bind_store {C} f v (k : unit -> M C) s :
  (x <- store W f v ;; k x) s = k tt (stored f v (delivered W s)).
Proof.
  unfold store. rewrite bind_assoc. unfold bind at 1.
  rewrite deliver_quiet. reflexivity.
Qed.

Lemma exit_quiet {A} status s :
  @exit W A status s = (Halt (Exited status), delivered W s).
Proof. unfold exit, bind. now rewrite deliver_quiet. Qed.

Lemma run_quiet c s : run W c s = (Done tt, called W c (delivered W s)).
Proof.
  transitivity ((x <- run W c ;; ret x) s); [|now rewrite bind_run].
  unfold bind. now destruct (run W c s) as [[[]| |] s'].
Qed.

Lemma store_quiet f v s :
  store W f v s = (Done tt, stored f v (delivered W s)).
Proof.
  transitivity ((x <- store W f v ;; ret x) s); [|now rewrite bind_store].
  unfold bind. now destruct (store W f v s) as [[[]| |] s'].
Qed.

End Quiet.

(** ** Delivery points in general *)

Section Delivery.

Variable W : world.

Lemma handle_all_cases l s :
  handle_all W l s = (Done tt, fold_left noted l s)
  \/ exists s', handle_all W l s = (Halt (Exited 0), s')
                /\ trace s' = trace s ++ [bye]
                /\ (get RESTART s <> 0 -> get RESTART s' <> 0).
Proof.
  revert s. induction l as [|i l IH]; intros s; [now left|].
  simpl. unfold bind.
  destruct (is_SIGINT i) eqn:Ei.
  - right. destruct i as [[]|]; try discriminate.
    simpl. unfold bind. rewrite extern_eq. simpl.
    eexists. split; [reflexivity|]. split; [apply trace_called|].
    intros H. unfold called. now destruct (failed _ _).
  - assert (Hh : handle W i s = (Done tt, noted s i)).
    { destruct i as [[]|]; try reflexivity. discriminate. }
    rewrite Hh. destruct (IH (noted s i)) as [E|(s' & E & T & R)].
    + now left.
    + right. exists s'. split; [exact E|]. split.
      * rewrite T. f_equal. destruct i as [[]|]; reflexivity.
      * intros H. apply R.
        destruct i as [[]|]; unfold get in *; simpl; try exact H; lia.
Qed.

Lemma deliver_cases s :
  deliver W s = (Done tt, delivered W s)
  \/ exists s', deliver W s = (Halt (Exited 0), s')
                /\ trace s' = trace s ++ [bye]
                /\ (get RESTART s <> 0 -> get RESTART s' <> 0).
Proof.
  unfold deliver, delivered. destruct (handling s); [|now left].
  unfold bind. destruct (handle_all_cases (pending W s) s) as [E|(s' & E & T)].
  - left. now rewrite E.
  - right. exists s'. now rewrite E.
Qed.

End Delivery.

(** ** A trace discipline for programs

    The rules below build [emits P m] along the syntax of [m].  At a
    delivery point the interrupt handler may end the run with its
    farewell, so either the schedule is free of [SIGINT] or [P] has to
    accept that ending. *)

Section Discipline.

Variable W : world.
Variable P : status -> list event -> Prop.
Context {PS : Sequential P}.

Lemma emits_ret {A} (a : A) : emits P (ret a).
Proof.
  intros s. exists []. simpl. rewrite app_nil_r.
  repeat split; [apply seq_nil|easy].
Qed.

Lemma emits_gets {A} (f : state -> A) : emits P (gets f).
Proof.
  intros s. exists []. simpl. rewrite app_nil_r.
  repeat split; [apply seq_nil|easy].
Qed.

Lemma emits_bind {A C} (m : M A) (k : A -> M C) :
  emits P m -> (forall a, emits P (k a)) -> emits P (x <- m ;; k x).
Proof.
  intros Hm Hk s. destruct (Hm s) as (n1 & T1 & P1 & R1).
  unfold bind. destruct (m s) as [[a| |] s1]; simpl in *.
  - destruct (Hk a s1) as (n2 & T2 & P2 & R2).
    exists (n1 ++ n2). rewrite T2, T1, app_assoc.
    repeat split; [now apply seq_app|auto].
  - now exists n1.
  - now exists n1.
Qed.

Lemma emits_halt {A} o : P Ended [] -> emits P (@halt A o).
Proof. intros H s. exists []. simpl. now rewrite app_nil_r. Qed.

Lemma emits_spin {A} : P Unfinished [] -> emits P (@spin A).
Proof. intros H s. exists []. simpl. now rewrite app_nil_r. Qed.

Lemma emits_extern c : P Returned [Call c] -> emits P (extern W c).
Proof.
  intros H s. exists [Call c]. rewrite extern_eq. simpl.
  now rewrite trace_called, get_called.
Qed.

Hypothesis farewell : no_SIGINT W = true \/ P Ended [bye].

Lemma emits_deliver : emits P (deliver W).
Proof.
  intros s. destruct farewell as [Q|Hb].
  - exists []. rewrite (deliver_quiet W Q). simpl.
    rewrite trace_delivered, app_nil_r.
    repeat split; [apply seq_nil|apply sticky_delivered].
  - destruct (deliver_cases W s) as [E|(s' & E & T & R)]; rewrite E; simpl.
    + exists []. rewrite trace_delivered, app_nil_r.
      repeat split; [apply seq_nil|apply sticky_delivered].
    + now exists [bye].
Qed.

Lemma emits_call c : P Returned [Call c] -> emits P (call W c).
Proof.
  intros H. unfold call. apply emits_bind; [apply emits_deliver|].
  intros _. now apply emits_extern.
Qed.

Lemma emits_run c : P Returned [Call c] -> emits P (run W c).
Proof.
  intros H. unfold run. apply emits_bind; [now apply emits_call|].
  intros _. apply emits_ret.
Qed.

Lemma emits_load f :
  (forall v, P Returned [Load f v]) -> emits P (load W f).
Proof.
  intros H. unfold load. apply emits_bind; [apply emits_deliver|].
  intros _ s. exists [Load f (get f s)]. simpl.
  repeat split; [apply H|easy].
Qed.

Lemma emits_store f v :
  f <> RESTART -> P Returned [Store f v] -> emits P (store W f v).
Proof.
  intros Hf H. unfold store. apply emits_bind; [apply emits_deliver|].
  intros _ s. exists [Store f v]. simpl.
  repeat split; [exact H|now destruct f].
Qed.

Lemma emits_exit {A} status : P Ended [] -> emits P (@exit W A status).
Proof.
  intros H. unfold exit. apply emits_bind; [apply emits_deliver|].
  intros _. now apply emits_halt.
Qed.

End Discipline.

#[export] Instance all_Sequential p : Sequential (all p).
Proof.
  split; [reflexivity|]. unfold all. intros _ a b Ha Hb.
  now rewrite forallb_app, Ha, Hb.
Qed.

Lemma since_app s s' new : trace s' = trace s ++ new -> since s s' = new.
Proof.
  unfold since. intros ->. rewrite skipn_app, skipn_all, Nat.sub_diag.
  reflexivity.
Qed.

(** ** Programs that do not return *)

Section Never.

Variable W : world.

Lemma never_halt {A} o : never (@halt A o).
Proof. intros s. easy. Qed.

Lemma never_bind_l {A C} (m : M A) (k : A -> M C) :
  never m -> never (x <- m ;; k x).
Proof.
  intros H s. specialize (H s). unfold bind.
  destruct (m s) as [[a| |] s']; easy.
Qed.

Lemma never_bind_r {A C} (m : M A) (k : A -> M C) :
  (forall a, never (k a)) -> never (x <- m ;; k x).
Proof.
  intros H s. unfold bind. destruct (m s) as [[a| |] s']; [apply H|easy|easy].
Qed.

Lemma never_exit {A} status : never (@exit W A status).
Proof. apply never_bind_r. intros _. apply never_halt. Qed.

Lemma bind_never {A} (m : M A) (k : A -> M A) s :
  never m -> (x <- m ;; k x) s = m s.
Proof.
  intros H. specialize (H s). unfold bind.
  destruct (m s) as [[a| |] s']; easy.
Qed.

End Never.

(** ** The restart branch *)

Ltac emits_side :=
  try solve [ typeclasses eauto | now right | now left | reflexivity
            | discriminate | intros ?; reflexivity
            | intros; repeat constructor ];
  try match goal with
      | |- forall _, emits _ _ => intros ?
      end.

Ltac emits_rule :=
  first
    [ apply emits_ret
    | apply emits_gets
    | apply emits_run
    | apply emits_call
    | apply emits_exit
    | apply emits_halt
    | apply emits_spin
    | apply emits_store
    | apply emits_load
    | apply emits_bind
    | match goal with
      | |- emits _ (if ?b then _ else _) => destruct b
      | |- emits _ (match ?o with Some _ => _ | None => _ end) => destruct o
      end ];
  emits_side.

Section Restart.

Variable B : build.
Variable W : world.
Variable argv : list string.

Lemma restart_never fuel : never (restart B W argv fuel).
Proof.
  unfold restart. apply never_bind_r. intros d.
  destruct (negb (d =? 0)); [apply never_exit|].
  do 2 (apply never_bind_r; intros ?).
  destruct (_ =? -1).
  - do 2 (apply never_bind_r; intros ?). apply never_exit.
  - do 3 (apply never_bind_r; intros ?). apply never_exit.
Qed.

Lemma cloexec_loop_quiescent fuel i limit :
  emits (all quiescent) (cloexec_loop W fuel i limit).
Proof.
  revert i. induction fuel as [|fuel IH]; intros i; simpl.
  - emits_rule.
  - destruct (i <? limit); [|emits_rule].
    emits_rule; [emits_rule|apply IH].
Qed.

Lemma restart_quiescent fuel : emits (all quiescent) (restart B W argv fuel).
Proof.
  unfold restart, do_execv.
  repeat first [apply cloexec_loop_quiescent | emits_rule].
Qed.

End Restart.

(** ** One turn of the loop, without [SIGINT] *)

Section Turn.

Variable B : build.
Variable W : world.
Variable argv : list string.
Hypothesis quiet : no_SIGINT W = true.

Lemma trace_progressed s :
  trace (progressed W s) = trace s ++ [Call irc_cycle; Call scan_cycle].
Proof.
  unfold progressed. autorewrite with frame. now rewrite <- app_assoc.
Qed.

Lemma OPT_DEBUG_progressed s : OPT_DEBUG (progressed W s) = OPT_DEBUG s.
Proof. unfold progressed. now autorewrite with frame. Qed.

Lemma loop_body_quiet fuel s :
  loop_body B W argv fuel s
  = let s0 := delivered W (progressed W s) in
    if get RESTART s0 =? 0
    then housekeeping W (loaded RESTART s0)
    else restart B W argv fuel (loaded RESTART s0).
Proof.
  unfold loop_body, restart_if_requested.
  rewrite !bind_run, bind_assoc, bind_load by exact quiet.
  fold (progressed W s). fold (housekeeping W). cbv zeta.
  destruct (get RESTART (delivered W (progressed W s)) =? 0).
  - now rewrite bind_ret.
  - apply bind_never, restart_never.
Qed.

Lemma trace_checked s :
  let s0 := delivered W (progressed W s) in
  trace (loaded RESTART s0)
  = trace s ++ [Call irc_cycle; Call scan_cycle; Load RESTART (get RESTART s0)].
Proof.
  cbv zeta. rewrite trace_loaded, trace_delivered, trace_progressed.
  now rewrite <- app_assoc.
Qed.

Lemma OPT_DEBUG_checked s :
  OPT_DEBUG (loaded RESTART (delivered W (progressed W s))) = OPT_DEBUG s.
Proof.
  unfold loaded. simpl. now rewrite OPT_DEBUG_delivered, OPT_DEBUG_progressed.
Qed.

Lemma restart_debug fuel s :
  OPT_DEBUG s <> 0 ->
  restart B W argv fuel s = (Halt (Exited 1), delivered W s).
Proof.
  intros H. unfold restart. rewrite bind_gets.
  destruct (Z.eqb_spec (OPT_DEBUG s) 0) as [E|_]; [contradiction|].
  apply exit_quiet, quiet.
Qed.

Lemma housekeeping_leaves_RESTART :
  emits (all (fun e => negb (reads RESTART e))) (housekeeping W).
Proof.
  unfold housekeeping, reopen_if_requested, timers_if_alarmed, reopen, timers.
  repeat emits_rule.
Qed.

(** A turn that does not read [RESTART] as set goes on to housekeeping,
    which does not read it again. *)
Lemma no_restart_seen fuel s v :
  get RESTART (delivered W (progressed W s)) = 0 ->
  In (Load RESTART v) (since s (snd (loop_body B W argv fuel s))) ->
  v = 0.
Proof.
  intros E H. rewrite loop_body_quiet in H. cbv zeta in H.
  rewrite E in H. simpl in H.
  destruct (housekeeping_leaves_RESTART
              (loaded RESTART (delivered W (progressed W s))))
    as (new & T & Hn & _).
  pose proof (trace_checked s) as Tc. cbv zeta in Tc. rewrite E in Tc.
  rewrite Tc, <- app_assoc in T. apply since_app in T. rewrite T in H.
  simpl in H. destruct H as [H|[H|[H|H]]]; try discriminate.
  - now injection H.
  - unfold all in Hn. rewrite forallb_forall in Hn. now apply Hn in H.
Qed.

Lemma restart_seen fuel s v :
  In (Load RESTART v) (since s (snd (loop_body B W argv fuel s))) ->
  v <> 0 ->
  get RESTART (delivered W (progressed W s)) <> 0.
Proof.
  intros H Hv E. apply Hv. now apply (no_restart_seen fuel s).
Qed.

Lemma to_int_small i : 0 <= i < 2 ^ 31 -> to_int i = i.
Proof. intros H. unfold to_int. rewrite Z.mod_small; lia. Qed.

Lemma to_uint_small i : 0 <= i < 2 ^ 32 -> to_uint i = i.
Proof. intros H. unfold to_uint. now rewrite Z.mod_small. Qed.

Lemma cloexec_loop_quiet k : forall fuel i limit s,
  (k < fuel)%nat -> 0 <= i -> limit = i + Z.of_nat k -> limit <= 2 ^ 31 ->
  exists s',
    cloexec_loop W fuel i limit s = (Done tt, s')
    /\ trace s' = trace s ++ map mark (upto i k).
Proof.
  induction k as [|k IH]; intros fuel i limit s Hf Hi Hl Hk;
    (destruct fuel as [|fuel]; [lia|]); simpl cloexec_loop.
  - destruct (Z.ltb_spec i limit) as [|_]; [lia|].
    exists s. now rewrite app_nil_r.
  - destruct (Z.ltb_spec i limit) as [_|]; [|lia].
    rewrite bind_run by exact quiet.
    rewrite to_int_small, to_uint_small by lia.
    destruct (IH fuel (i + 1) limit
                (called W (fcntl_setfd_cloexec i) (delivered W s)))
      as (s' & E & T); try lia.
    exists s'. split; [exact E|].
    rewrite T, trace_called, trace_delivered, <- app_assoc. reflexivity.
Qed.

Lemma restart_getrlimit_fails fuel s :
  OPT_DEBUG s = 0 ->
  returns W (getrlimit RLIMIT_NOFILE) = -1 ->
  exists s',
    restart B W argv fuel s = (Halt (Exited 1), s')
    /\ trace s' = trace s ++ [restarting_log; Call (getrlimit RLIMIT_NOFILE);
                              getrlimit_failed_log W].
Proof.
  intros Hd Hr. unfold restart. rewrite bind_gets, Hd, Z.eqb_refl.
  cbv beta iota delta [negb]. rewrite bind_run, bind_call by exact quiet.
  rewrite Hr, Z.eqb_refl.
  rewrite bind_gets, bind_run by exact quiet. rewrite exit_quiet by exact quiet.
  eexists. split; [reflexivity|].
  autorewrite with frame. rewrite errno_called. simpl failed.
  rewrite Hr, Z.eqb_refl, <- !app_assoc. reflexivity.
Qed.

Lemma restart_proceeds fuel s :
  OPT_DEBUG s = 0 ->
  returns W (getrlimit RLIMIT_NOFILE) <> -1 ->
  0 <= rlim_cur W RLIMIT_NOFILE <= INT_MAX ->
  (Z.to_nat (rlim_cur W RLIMIT_NOFILE) < fuel)%nat ->
  exists s',
    restart B W argv fuel s
    = (Halt (if returns W (execv (HOPM_BINPATH B) argv) =? -1
             then Exited 0
             else Replaced (HOPM_BINPATH B) argv), s')
    /\ trace s'
       = trace s ++ [restarting_log; Call (getrlimit RLIMIT_NOFILE)]
         ++ map mark (upto 0 (Z.to_nat (rlim_cur W RLIMIT_NOFILE)))
         ++ Call (execv (HOPM_BINPATH B) argv)
            :: (if returns W (execv (HOPM_BINPATH B) argv) =? -1
                then [execv_failed_log B W argv]
                else []).
Proof.
  intros Hd Hr Hl Hf. unfold restart. rewrite bind_gets, Hd, Z.eqb_refl.
  cbv beta iota delta [negb]. rewrite bind_run, bind_call by exact quiet.
  destruct (Z.eqb_spec (returns W (getrlimit RLIMIT_NOFILE)) (-1)) as [|_];
    [contradiction|].
  unfold INT_MAX in Hl.
  match goal with
  | |- context [cloexec_loop W fuel 0 _ ;; _] => idtac
  end.
  unfold bind at 1.
  match goal with
  | |- context [cloexec_loop W fuel 0 ?l ?s0] =>
      destruct (cloexec_loop_quiet (Z.to_nat l) fuel 0 l s0)
        as (s1 & E & T); try lia
  end.
  rewrite E.
  unfold do_execv. rewrite bind_assoc, bind_call by exact quiet.
  destruct (Z.eqb_spec (returns W (execv (HOPM_BINPATH B) argv)) (-1))
    as [Ex|Ex].
  - rewrite bind_ret. rewrite Ex, Z.eqb_refl.
    rewrite bind_assoc, bind_gets, bind_run by exact quiet.
    rewrite exit_quiet by exact quiet.
    eexists. split; [reflexivity|].
    autorewrite with frame. rewrite errno_called. simpl failed.
    rewrite Ex, Z.eqb_refl, T. autorewrite with frame.
    rewrite <- !app_assoc. reflexivity.
  - unfold bind, halt. eexists. split; [reflexivity|].
    autorewrite with frame. rewrite T. autorewrite with frame.
    rewrite <- !app_assoc. reflexivity.
Qed.

(** Beyond the range of [unsigned int] the counter wraps before it can
    reach the ceiling, and the loop has no end. *)
Lemma cloexec_loop_spins fuel : forall i limit s,
  0 <= i <= UINT_MAX -> UINT_MAX < limit ->
  fst (cloexec_loop W fuel i limit s) = Spin.
Proof.
  induction fuel as [|fuel IH]; intros i limit s Hi Hl; [reflexivity|].
  simpl cloexec_loop.
  destruct (Z.ltb_spec i limit) as [_|]; [|lia].
  rewrite bind_run by exact quiet. apply IH; [|exact Hl].
  unfold to_uint, UINT_MAX in *.
  pose proof (Z.mod_pos_bound (i + 1) (2 ^ 32)). lia.
Qed.

End Turn.

(** ** The restart branch: what it does *)

(** C7.  When a turn of the main loop reads [RESTART] as set while the
    debug level is above zero, the process ends with status 1, the turn
    has recorded the two progress calls and the read and nothing else
    (no log line, no [execv]); the interrupt handler, for comparison,
    ends the process with status 0. *)
Theorem restart_refused_in_debug B W argv fuel s v :
  no_SIGINT W = true ->
  0 < OPT_DEBUG s ->
  In (Load RESTART v) (since s (snd (loop_body B W argv fuel s))) ->
  v <> 0 ->
  fst (loop_body B W argv fuel s) = Halt (Exited 1)
  /\ since s (snd (loop_body B W argv fuel s))
     = [Call irc_cycle; Call scan_cycle; Load RESTART v]
  /\ fst (do_signal W SIGINT s) = Halt (Exited 0).
Proof.
  intros quiet Hd Hin Hv.
  pose proof (restart_seen B W argv quiet fuel s v Hin Hv) as Hr.
  revert Hin. rewrite loop_body_quiet by exact quiet. cbv zeta.
  destruct (Z.eqb_spec (get RESTART (delivered W (progressed W s))) 0)
    as [|_]; [contradiction|].
  rewrite restart_debug by (try exact quiet; rewrite OPT_DEBUG_checked; lia).
  cbn [fst snd].
  rewrite (since_app s _ [Call irc_cycle; Call scan_cycle;
             Load RESTART (get RESTART (delivered W (progressed W s)))])
    by (rewrite trace_delivered; apply trace_checked).
  intros Hin. split; [reflexivity|]. split.
  - simpl in Hin. destruct Hin as [H|[H|[H|[]]]]; try discriminate.
    now injection H as <-.
  - unfold do_signal, bind. now rewrite extern_eq.
Qed.

Lemma restart_refused_in_debug_witness :
  fst (loop_body sample_build (sample_world all_succeed [] hangup)
         ["hopm"%string] 8 (running 2)) = Halt (Exited 1)
  /\ since (running 2)
       (snd (loop_body sample_build (sample_world all_succeed [] hangup)
               ["hopm"%string] 8 (running 2)))
     = [Call irc_cycle; Call scan_cycle; Load RESTART 1]
  /\ fst (do_signal (sample_world all_succeed [] hangup) SIGINT (running 2))
     = Halt (Exited 0).
Proof.
  apply (restart_refused_in_debug sample_build
           (sample_world all_succeed [] hangup) ["hopm"%string] 8
           (running 2) 1).
  - reflexivity.
  - reflexivity.
  - vm_compute. auto.
  - discriminate.
Defined.

Lemma In_upto x k : forall i, In x (upto i k) <-> i <= x < i + Z.of_nat k.
Proof.
  induction k as [|k IH]; intros i; simpl upto.
  - simpl. lia.
  - simpl In. rewrite IH. lia.
Qed.

Lemma marked_app a b : marked (a ++ b) = marked a ++ marked b.
Proof. apply flat_map_app. Qed.

Lemma marked_marks l : marked (map mark l) = l.
Proof. induction l as [|x l IH]; simpl; [|rewrite IH]; reflexivity. Qed.

(** C6.  In the restart branch of a process that is not in debug mode:
    when [getrlimit] fails, the error is logged and the process exits
    with status 1; otherwise, for a ceiling within the range of a
    descriptor number, the descriptors marked close-on-exec are
    0, 1, ... up to the ceiling, each once and in order, that is exactly
    the numbers of [0, ceiling), whatever the individual [fcntl] calls
    return. *)
Theorem cloexec_marks_descriptors_below_ceiling B W argv fuel s :
  no_SIGINT W = true ->
  OPT_DEBUG s = 0 ->
  (returns W (getrlimit RLIMIT_NOFILE) = -1 ->
   fst (restart B W argv fuel s) = Halt (Exited 1)
   /\ since s (snd (restart B W argv fuel s))
      = [restarting_log; Call (getrlimit RLIMIT_NOFILE);
         getrlimit_failed_log W])
  /\ (returns W (getrlimit RLIMIT_NOFILE) <> -1 ->
      0 <= rlim_cur W RLIMIT_NOFILE <= INT_MAX ->
      (Z.to_nat (rlim_cur W RLIMIT_NOFILE) < fuel)%nat ->
      marked (since s (snd (restart B W argv fuel s)))
      = upto 0 (Z.to_nat (rlim_cur W RLIMIT_NOFILE))
      /\ forall fd,
           In fd (marked (since s (snd (restart B W argv fuel s))))
           <-> 0 <= fd < rlim_cur W RLIMIT_NOFILE).
Proof.
  intros quiet Hd. split.
  - intros Hr.
    destruct (restart_getrlimit_fails B W argv quiet fuel s Hd Hr)
      as (s' & E & T).
    rewrite E. cbn [fst snd]. split; [reflexivity|]. now apply since_app.
  - intros Hr Hl Hf.
    destruct (restart_proceeds B W argv quiet fuel s Hd Hr Hl Hf)
      as (s' & E & T).
    rewrite E. cbn [fst snd]. apply since_app in T. rewrite T.
    assert (M : marked
                  ([restarting_log; Call (getrlimit RLIMIT_NOFILE)]
                   ++ map mark (upto 0 (Z.to_nat (rlim_cur W RLIMIT_NOFILE)))
                   ++ Call (execv (HOPM_BINPATH B) argv)
                      :: (if returns W (execv (HOPM_BINPATH B) argv) =? -1
                          then [execv_failed_log B W argv] else []))
                = upto 0 (Z.to_nat (rlim_cur W RLIMIT_NOFILE))).
    { rewrite !marked_app, marked_marks.
      destruct (_ =? -1); simpl; now rewrite app_nil_r. }
    rewrite M. split; [reflexivity|].
    intros fd. rewrite In_upto. lia.
Qed.

Lemma cloexec_marks_descriptors_below_ceiling_witness :
  (fst (restart sample_build (sample_world getrlimit_fails [] [])
          ["hopm"%string] 8 (running 0)) = Halt (Exited 1)
   /\ since (running 0)
        (snd (restart sample_build (sample_world getrlimit_fails [] [])
                ["hopm"%string] 8 (running 0)))
      = [restarting_log; Call (getrlimit RLIMIT_NOFILE);
         getrlimit_failed_log (sample_world getrlimit_fails [] [])])
  /\ marked (since (running 0)
               (snd (restart sample_build (sample_world execv_fails [] [])
                       ["hopm"%string] 8 (running 0))))
     = [0; 1; 2; 3].
Proof.
  split.
  - refine (proj1 (cloexec_marks_descriptors_below_ceiling sample_build
                     (sample_world getrlimit_fails [] []) ["hopm"%string] 8
                     (running 0) _ _) _); reflexivity.
  - refine (proj1 (proj2 (cloexec_marks_descriptors_below_ceiling
                            sample_build (sample_world execv_fails [] [])
                            ["hopm"%string] 8 (running 0) _ _) _ _ _)).
    + reflexivity.
    + reflexivity.
    + discriminate.
    + vm_compute. split; discriminate.
    + vm_compute. lia.
Defined.

(** What the loop does once [execv] has failed: the failure is logged
    and the process exits, with status 0. *)
Lemma execv_failure_exits_0 B W argv fuel s :
  no_SIGINT W = true ->
  OPT_DEBUG s = 0 ->
  returns W (getrlimit RLIMIT_NOFILE) <> -1 ->
  0 <= rlim_cur W RLIMIT_NOFILE <= INT_MAX ->
  (Z.to_nat (rlim_cur W RLIMIT_NOFILE) < fuel)%nat ->
  returns W (execv (HOPM_BINPATH B) argv) = -1 ->
  fst (restart B W argv fuel s) = Halt (Exited 0)
  /\ exists l, since s (snd (restart B W argv fuel s))
               = l ++ [Call (execv (HOPM_BINPATH B) argv);
                       execv_failed_log B W argv].
Proof.
  intros quiet Hd Hr Hl Hf Hx.
  destruct (restart_proceeds B W argv quiet fuel s Hd Hr Hl Hf)
    as (s' & E & T).
  rewrite E, Hx. cbn [fst snd]. split; [reflexivity|].
  apply since_app in T. rewrite T, Hx, Z.eqb_refl.
  eexists. rewrite app_assoc. reflexivity.
Qed.

(** C1.  A hang-up reaches a daemon whose [execv] then fails: the turn
    logs the failure and ends the process with status 0, the very
    status of an interrupt shutdown, where the other failures of the
    restart branch give 1. *)
Theorem execv_failure_exit_status :
  let W := sample_world execv_fails [] hangup in
  let r := loop_body sample_build W ["hopm"%string] 8 (running 0) in
  fst r = Halt (Exited 0)
  /\ since (running 0) (snd r)
     = [Call irc_cycle; Call scan_cycle; Load RESTART 1; restarting_log;
        Call (getrlimit RLIMIT_NOFILE); mark 0; mark 1; mark 2; mark 3;
        Call (execv "/usr/local/bin/hopm" ["hopm"%string]);
        execv_failed_log sample_build W ["hopm"%string]]
  /\ fst (do_signal W SIGINT (running 0)) = Halt (Exited 0)
  /\ fst (restart sample_build (sample_world getrlimit_fails [] [])
            ["hopm"%string] 8 (running 0)) = Halt (Exited 1).
Proof. vm_compute. repeat split. Qed.

(** ** Housekeeping without [SIGINT] *)

Ltac step quiet :=
  rewrite ?bind_assoc;
  first [ rewrite bind_run by exact quiet
        | rewrite bind_call by exact quiet
        | rewrite bind_load by exact quiet
        | rewrite bind_store by exact quiet
        | rewrite store_quiet by exact quiet
        | rewrite run_quiet by exact quiet
        | rewrite bind_gets
        | rewrite bind_ret
        | rewrite bind_modify ];
  cbv beta.

Lemma get_stored f g v s : f <> g -> get f (stored g v s) = get f s.
Proof. now destruct f, g. Qed.

Lemma get_loaded f g s : get f (loaded g s) = get f s.
Proof. now destruct f. Qed.

Section Housekeeping.

Variable W : world.
Hypothesis quiet : no_SIGINT W = true.

Lemma reopen_quiet {C} (k : unit -> M C) s :
  exists s',
    (x <- reopen W ;; k x) s = k tt s' /\ trace s' = trace s ++ rotation s.
Proof.
  unfold reopen. do 5 step quiet.
  autorewrite with frame. unfold rotation.
  destruct (scanlog (OptionsItem s)) as [p|].
  - do 4 step quiet. eexists. split; [reflexivity|].
    autorewrite with frame. rewrite <- !app_assoc. reflexivity.
  - do 3 step quiet. eexists. split; [reflexivity|].
    autorewrite with frame. rewrite <- !app_assoc. reflexivity.
Qed.

Lemma rotation_frame f s : rotation (loaded f (delivered W s)) = rotation s.
Proof.
  unfold rotation, loaded. simpl.
  now rewrite LOGFILE_delivered, OptionsItem_delivered.
Qed.

Lemma timers_if_alarmed_quiet s :
  exists a s',
    timers_if_alarmed W s = (Done tt, s')
    /\ trace s'
       = trace s ++ Load ALARMED a :: (if a =? 0 then [] else ticks)
    /\ (get RESTART s <> 0 -> get RESTART s' <> 0).
Proof.
  unfold timers_if_alarmed.
  replace (timers_if_alarmed W s)
    with ((a <- load W ALARMED ;; if a =? 0 then ret tt else timers W) s)
    by reflexivity.
  step quiet. exists (get ALARMED (delivered W s)).
  destruct (get ALARMED (delivered W s) =? 0).
  - eexists. split; [reflexivity|]. split; [now autorewrite with frame|].
    intros H. rewrite get_loaded. now apply sticky_delivered.
  - unfold timers. do 4 step quiet. eexists. split; [reflexivity|]. split.
    + autorewrite with frame. rewrite <- !app_assoc. reflexivity.
    + intros H. rewrite get_stored by discriminate.
      repeat first [ rewrite get_called | rewrite get_loaded
                   | apply sticky_delivered ].
      exact H.
Qed.

Lemma housekeeping_quiet s :
  exists o a s',
    housekeeping W s = (Done tt, s')
    /\ trace s'
       = trace s ++ Load REOPEN o :: (if o =? 0 then [] else rotation s)
         ++ Load ALARMED a :: (if a =? 0 then [] else ticks).
Proof.
  unfold housekeeping, reopen_if_requested. step quiet.
  exists (get REOPEN (delivered W s)).
  destruct (get REOPEN (delivered W s) =? 0).
  - step quiet.
    destruct (timers_if_alarmed_quiet (loaded REOPEN (delivered W s)))
      as (a & s' & E & T & _).
    exists a, s'. split; [exact E|]. rewrite T.
    autorewrite with frame. rewrite <- !app_assoc. reflexivity.
  - destruct (reopen_quiet (fun _ => timers_if_alarmed W)
                (loaded REOPEN (delivered W s))) as (s1 & E1 & T1).
    rewrite E1.
    destruct (timers_if_alarmed_quiet s1) as (a & s' & E & T & _).
    exists a, s'. split; [exact E|]. rewrite T, T1, rotation_frame.
    autorewrite with frame. rewrite <- !app_assoc. reflexivity.
Qed.

End Housekeeping.

(** ** The order of a turn *)

Lemma rotation_checked W s :
  rotation (loaded RESTART (delivered W (progressed W s))) = rotation s.
Proof.
  rewrite rotation_frame. unfold rotation, progressed.
  now autorewrite with frame.
Qed.

(** C3.  Every turn of the main loop records the two progress calls and
    then the read of [RESTART].  When the flag is read as set, the turn
    does not return to the loop and what it records afterwards holds no
    event of log rotation or of the timers, whatever [REOPEN] and
    [ALARMED] hold.  When it is read as clear, the turn goes on with the
    read of [REOPEN] and the rotation it may trigger, and only then with
    the read of [ALARMED] and the timers it may trigger. *)
Theorem restart_before_rotation_before_timers B W argv fuel s :
  no_SIGINT W = true ->
  exists v tail,
    since s (snd (loop_body B W argv fuel s))
    = Call irc_cycle :: Call scan_cycle :: Load RESTART v :: tail
    /\ (v <> 0 ->
        status_of (fst (loop_body B W argv fuel s)) <> Returned
        /\ forallb quiescent tail = true)
    /\ (v = 0 ->
        fst (loop_body B W argv fuel s) = Done tt
        /\ exists o a,
             tail = Load REOPEN o :: (if o =? 0 then [] else rotation s)
                    ++ Load ALARMED a :: (if a =? 0 then [] else ticks)).
Proof.
  intros quiet. rewrite loop_body_quiet by exact quiet. cbv zeta.
  exists (get RESTART (delivered W (progressed W s))).
  pose proof (trace_checked W s) as Tc. cbv zeta in Tc.
  destruct (Z.eqb_spec (get RESTART (delivered W (progressed W s))) 0)
    as [E|E].
  - destruct (housekeeping_quiet W quiet
                (loaded RESTART (delivered W (progressed W s))))
      as (o & a & s' & Eh & T).
    rewrite Eh. cbn [fst snd]. rewrite Tc, rotation_checked, <- app_assoc in T.
    apply since_app in T. eexists. split; [exact T|].
    split; [contradiction|]. intros _. split; [reflexivity|]. now exists o, a.
  - destruct (restart_quiescent B W argv fuel
                (loaded RESTART (delivered W (progressed W s))))
      as (new & T & Q & _).
    rewrite Tc, <- app_assoc in T. apply since_app in T.
    exists new. split; [exact T|]. split; [|contradiction].
    intros _. split; [apply restart_never|exact Q].
Qed.

Lemma restart_before_rotation_before_timers_witness :
  exists v tail,
    since (running 0)
      (snd (loop_body sample_build
              (sample_world all_succeed []
                 [[Signal SIGUSR1; Signal SIGALRM]; [Signal SIGHUP]])
              ["hopm"%string] 8 (running 0)))
    = Call irc_cycle :: Call scan_cycle :: Load RESTART v :: tail
    /\ v <> 0 /\ forallb quiescent tail = true.
Proof.
  destruct (restart_before_rotation_before_timers sample_build
              (sample_world all_succeed []
                 [[Signal SIGUSR1; Signal SIGALRM]; [Signal SIGHUP]])
              ["hopm"%string] 8 (running 0) eq_refl)
    as (v & tail & E & Hr & _).
  exists v, tail. split; [exact E|].
  assert (Hv : v <> 0).
  { vm_compute in E. injection E as <- _. discriminate. }
  split; [exact Hv|]. now apply Hr.
Defined.

(** ** Requests that arrive during a run *)

Lemma get_noted f s i :
  get f (noted s i) = if raises f i then 1 else get f s.
Proof. destruct i as [[]|], f; reflexivity. Qed.

Lemma get_noted_all f l : forall s,
  get f (fold_left noted l s) = if existsb (raises f) l then 1 else get f s.
Proof.
  induction l as [|i l IH]; intros s; [reflexivity|].
  simpl. rewrite IH, get_noted.
  destruct (raises f i); simpl; [|reflexivity].
  now destruct (existsb (raises f) l).
Qed.

Lemma raised_nil W f a : raised W f a a = false.
Proof. unfold raised. now rewrite Nat.sub_diag. Qed.

Lemma raised_one W f a :
  raised W f a (S a) = existsb (raises f) (nth a (signals W) []).
Proof.
  unfold raised. replace (S a - a)%nat with 1%nat by lia.
  cbn [seq existsb]. apply orb_false_r.
Qed.

Lemma raised_split W f a b c :
  (a <= b)%nat -> (b <= c)%nat ->
  raised W f a c = raised W f a b || raised W f b c.
Proof.
  intros Hab Hbc. unfold raised.
  replace (c - a)%nat with ((b - a) + (c - b))%nat by lia.
  rewrite List.seq_app, existsb_app.
  now replace (a + (b - a))%nat with b by lia.
Qed.

Lemma carries_refl W f s : carries W f s s.
Proof.
  split; [lia|]. rewrite raised_nil. intros [H|H]; [exact H|discriminate].
Qed.

Lemma carries_trans W f s1 s2 s3 :
  carries W f s1 s2 -> carries W f s2 s3 -> carries W f s1 s3.
Proof.
  intros (C1 & G1) (C2 & G2). split; [lia|].
  rewrite (raised_split W f _ _ _ C1 C2). intros [H|H].
  - apply G2. left. apply G1. now left.
  - apply orb_true_iff in H. destruct H as [H|H].
    + apply G2. left. apply G1. now right.
    + apply G2. now right.
Qed.

Lemma carries_same W f s s' :
  clock s' = clock s -> (get f s <> 0 -> get f s' <> 0) -> carries W f s s'.
Proof.
  intros C G. unfold carries. rewrite C, raised_nil. split; [lia|].
  intros [H|H]; [now apply G|discriminate].
Qed.

Lemma clock_called W c s : clock (called W c s) = clock s.
Proof. unfold called. now destruct (failed _ _). Qed.

Lemma carries_called W f c s : carries W f s (called W c s).
Proof. apply carries_same; [apply clock_called|now rewrite get_called]. Qed.

Lemma carries_loaded W f g s : carries W f s (loaded g s).
Proof. apply carries_same; [reflexivity|now rewrite get_loaded]. Qed.

Lemma carries_stored W f g v s : f <> g -> carries W f s (stored g v s).
Proof.
  intros N. apply carries_same; [now destruct g|now rewrite get_stored].
Qed.

Lemma carries_delivered W f s : carries W f s (delivered W s).
Proof.
  unfold delivered. destruct (handling s); [|apply carries_refl]. cbv zeta.
  pose proof (noted_all_frame (pending W s) s) as F. cbv zeta in F.
  destruct F as (_ & _ & _ & _ & _ & _ & C & _).
  unfold carries. cbn [clock with_clock]. rewrite C, raised_one.
  split; [lia|].
  replace (get f (with_clock (S (clock s)) (fold_left noted (pending W s) s)))
    with (get f (fold_left noted (pending W s) s)) by now destruct f.
  rewrite get_noted_all. fold (pending W s).
  destruct (existsb (raises f) (pending W s)); [discriminate|].
  intros [H|H]; [exact H|discriminate].
Qed.

Section Retains.

Variable W : world.
Variable f : flag.

Lemma handle_all_carries l : forall s,
  clock (snd (handle_all W l s)) = clock s
  /\ (get f s <> 0 -> get f (snd (handle_all W l s)) <> 0).
Proof.
  induction l as [|i l IH]; intros s; [now split|].
  simpl. unfold bind.
  destruct (is_SIGINT i) eqn:Ei.
  - destruct i as [[]|]; try discriminate.
    simpl. unfold bind. rewrite extern_eq. simpl. split.
    + unfold called. now destruct (failed _ _).
    + intros H. unfold called. now destruct (failed _ _), f.
  - assert (Hh : handle W i s = (Done tt, noted s i)).
    { destruct i as [[]|]; try reflexivity. discriminate. }
    rewrite Hh. destruct (IH (noted s i)) as [C G]. split.
    + rewrite C. now destruct i as [[]|].
    + intros H. apply G. rewrite get_noted.
      destruct (raises f i); [discriminate|exact H].
Qed.

Lemma retains_ret {A} (a : A) : retains W f (ret a).
Proof. intros s. apply carries_refl. Qed.

Lemma retains_gets {A} (g : state -> A) : retains W f (gets g).
Proof. intros s. apply carries_refl. Qed.

Lemma retains_halt {A} o : retains W f (@halt A o).
Proof. intros s. apply carries_refl. Qed.

Lemma retains_spin {A} : retains W f (@spin A).
Proof. intros s. apply carries_refl. Qed.

Lemma retains_bind {A C} (m : M A) (k : A -> M C) :
  retains W f m -> (forall a, retains W f (k a)) ->
  retains W f (x <- m ;; k x).
Proof.
  intros Hm Hk s. specialize (Hm s). unfold bind.
  destruct (m s) as [[a| |] s1]; cbn [snd] in *; try exact Hm.
  exact (carries_trans _ _ _ _ _ Hm (Hk a s1)).
Qed.

Lemma retains_extern c : retains W f (extern W c).
Proof. intros s. rewrite extern_eq. apply carries_called. Qed.

Lemma retains_deliver : retains W f (deliver W).
Proof.
  intros s. unfold deliver. destruct (handling s) eqn:Hh;
    [|apply carries_refl].
  unfold bind.
  destruct (handle_all_cases W (pending W s) s) as [E|(s' & E & _)].
  - rewrite E. cbn [snd modify].
    pose proof (carries_delivered W f s) as D. unfold delivered in D.
    now rewrite Hh in D.
  - destruct (handle_all_carries (pending W s) s) as [C G].
    rewrite E in *. cbn [snd] in *. now apply carries_same.
Qed.

Lemma retains_call c : retains W f (call W c).
Proof.
  apply retains_bind; [apply retains_deliver|]. intros _.
  apply retains_extern.
Qed.

Lemma retains_run c : retains W f (run W c).
Proof.
  apply retains_bind; [apply retains_call|]. intros _. apply retains_ret.
Qed.

Lemma retains_load g : retains W f (load W g).
Proof.
  apply retains_bind; [apply retains_deliver|]. intros _ s.
  apply (carries_loaded W f g s).
Qed.

Lemma retains_store g v : f <> g -> retains W f (store W g v).
Proof.
  intros N. apply retains_bind; [apply retains_deliver|]. intros _ s.
  apply (carries_stored W f g v s N).
Qed.

Lemma retains_exit {A} status : retains W f (@exit W A status).
Proof.
  apply retains_bind; [apply retains_deliver|]. intros _.
  apply retains_halt.
Qed.

End Retains.

Ltac retains_rule :=
  first
    [ apply retains_ret
    | apply retains_gets
    | apply retains_run
    | apply retains_call
    | apply retains_exit
    | apply retains_halt
    | apply retains_spin
    | apply retains_store; discriminate
    | apply retains_load
    | apply retains_bind; [|intros ?]
    | match goal with
      | |- retains _ _ (if ?b then _ else _) => destruct b
      | |- retains _ _ (match ?o with Some _ => _ | None => _ end) =>
          destruct o
      end ].

Section Loop_retains.

Variable B : build.
Variable W : world.
Variable argv : list string.

Lemma cloexec_loop_retains f fuel i limit :
  retains W f (cloexec_loop W fuel i limit).
Proof.
  revert i. induction fuel as [|fuel IH]; intros i; simpl.
  - retains_rule.
  - destruct (i <? limit); [|retains_rule].
    retains_rule; [retains_rule|apply IH].
Qed.

Lemma reopen_if_requested_retains : retains W ALARMED (reopen_if_requested W).
Proof. unfold reopen_if_requested, reopen. repeat retains_rule. Qed.

(** The loop writes [REOPEN] and [ALARMED], never [RESTART]. *)
Lemma loop_body_retains fuel : retains W RESTART (loop_body B W argv fuel).
Proof.
  unfold loop_body, restart_if_requested, restart, do_execv,
    reopen_if_requested, reopen, timers_if_alarmed, timers.
  repeat first [ apply cloexec_loop_retains | retains_rule ].
Qed.

Lemma main_loop_retains fuel n :
  retains W RESTART (main_loop B W argv fuel n).
Proof.
  induction n as [|n IH]; simpl.
  - retains_rule.
  - retains_rule; [apply loop_body_retains|apply IH].
Qed.

End Loop_retains.

(** ** Requests that are served *)

Lemma done_not_never {A} (m : M A) s a s' :
  never m -> m s = (Done a, s') -> False.
Proof. intros N E. specialize (N s). rewrite E in N. now apply N. Qed.

Lemma bind_done {A C} (m : M A) (k : A -> M C) s c s' :
  (x <- m ;; k x) s = (Done c, s') ->
  exists a s1, m s = (Done a, s1) /\ k a s1 = (Done c, s').
Proof.
  unfold bind. destruct (m s) as [[a| |] s1]; try discriminate.
  intros E. now exists a, s1.
Qed.

Lemma bind_ret_r {A} (m : M A) s : (x <- m ;; ret x) s = m s.
Proof. unfold bind. now destruct (m s) as [[a| |] s']. Qed.

Lemma bind_halted {A C} (m : M A) (k : A -> M C) s o s' :
  m s = (Halt o, s') -> (x <- m ;; k x) s = (Halt o, s').
Proof. unfold bind. now intros ->. Qed.


Lemma get_stored_same f v s : get f (stored f v s) = v.
Proof. now destruct f. Qed.

Section Served.

Variable B : build.
Variable W : world.
Variable argv : list string.
Hypothesis quiet : no_SIGINT W = true.

Lemma reopen_if_requested_served s :
  exists s1,
    reopen_if_requested W s = (Done tt, s1)
    /\ trace s1
       = trace s ++ Load REOPEN (get REOPEN (delivered W s))
         :: (if get REOPEN (delivered W s) =? 0 then [] else rotation s).
Proof.
  rewrite <- (bind_ret_r (reopen_if_requested W) s).
  unfold reopen_if_requested. step quiet.
  destruct (get REOPEN (delivered W s) =? 0).
  - step quiet. eexists. split; [reflexivity|]. now autorewrite with frame.
  - destruct (reopen_quiet W quiet (fun x => ret x)
                (loaded REOPEN (delivered W s))) as (s1 & E1 & T1).
    rewrite E1. exists s1. split; [reflexivity|].
    rewrite T1, rotation_frame. autorewrite with frame.
    now rewrite <- app_assoc.
Qed.

Lemma timers_if_alarmed_served s :
  exists s',
    timers_if_alarmed W s = (Done tt, s')
    /\ trace s'
       = trace s ++ Load ALARMED (get ALARMED (delivered W s))
         :: (if get ALARMED (delivered W s) =? 0 then [] else ticks)
    /\ get ALARMED s' = 0
    /\ (get ALARMED (delivered W s) = 0 -> clock s' = clock (delivered W s)).
Proof.
  replace (timers_if_alarmed W s)
    with ((a <- load W ALARMED ;; if a =? 0 then ret tt else timers W) s)
    by reflexivity.
  step quiet.
  destruct (Z.eqb_spec (get ALARMED (delivered W s)) 0) as [Ha|Ha].
  - eexists. split; [reflexivity|]. split; [now autorewrite with frame|].
    split; [now rewrite get_loaded|]. reflexivity.
  - unfold timers. do 4 step quiet. eexists. split; [reflexivity|]. split.
    + autorewrite with frame. rewrite <- !app_assoc. reflexivity.
    + split; [apply get_stored_same|]. intros H. contradiction.
Qed.

(** A turn that returns has read the three flags. *)
Lemma loop_body_returns fuel s s' :
  loop_body B W argv fuel s = (Done tt, s') ->
  let s0 := loaded RESTART (delivered W (progressed W s)) in
  get RESTART s0 = 0
  /\ exists s1,
       reopen_if_requested W s0 = (Done tt, s1)
       /\ timers_if_alarmed W s1 = (Done tt, s').
Proof.
  intros E. rewrite loop_body_quiet in E by exact quiet. cbv zeta in *.
  destruct (Z.eqb_spec (get RESTART (delivered W (progressed W s))) 0)
    as [R|R].
  - split; [now rewrite get_loaded|].
    unfold housekeeping in E.
    apply bind_done in E as ([] & s1 & E1 & E2). now exists s1.
  - exfalso. revert E. apply done_not_never. apply restart_never.
Qed.

Lemma carries_checked f s :
  carries W f s (loaded RESTART (delivered W (progressed W s))).
Proof.
  unfold progressed.
  repeat first
    [ apply carries_refl
    | eapply carries_trans; [|apply carries_loaded]
    | eapply carries_trans; [|apply carries_called]
    | eapply carries_trans; [|apply carries_delivered] ].
Qed.

Lemma loop_body_serves_tick fuel s s' :
  loop_body B W argv fuel s = (Done tt, s') ->
  get ALARMED s' = 0
  /\ exists pre a,
       since s s' = pre ++ Load ALARMED a :: (if a =? 0 then [] else ticks)
       /\ (get ALARMED s <> 0
           \/ raised W ALARMED (clock s) (clock s') = true ->
           a <> 0).
Proof.
  intros E. apply loop_body_returns in E. cbv zeta in E.
  destruct E as (R & s1 & E1 & E2).
  set (s0 := loaded RESTART (delivered W (progressed W s))) in *.
  destruct (reopen_if_requested_served s0) as (s1' & E1' & T1).
  rewrite E1 in E1'. injection E1' as <-.
  destruct (timers_if_alarmed_served s1) as (s2 & E2' & T2 & Z2 & C2).
  rewrite E2 in E2'. injection E2' as <-.
  split; [exact Z2|].
  pose proof (trace_checked W s) as T0. cbv zeta in T0. fold s0 in T0.
  exists ([Call irc_cycle; Call scan_cycle;
           Load RESTART (get RESTART (delivered W (progressed W s)))]
          ++ Load REOPEN (get REOPEN (delivered W s0))
             :: (if get REOPEN (delivered W s0) =? 0 then []
                 else rotation s0)),
    (get ALARMED (delivered W s1)). split.
  - apply since_app. rewrite T2, T1, T0, <- !app_assoc. reflexivity.
  - intros H Ha.
    assert (K : carries W ALARMED s (delivered W s1)).
    { eapply carries_trans; [apply carries_checked|].
      eapply carries_trans; [|apply carries_delivered].
      pose proof (reopen_if_requested_retains W s0) as K.
      fold s0. now rewrite E1 in K. }
    destruct K as (_ & K). apply K; [|exact Ha].
    now rewrite <- (C2 Ha).
Qed.

Lemma loop_body_serves_reopen fuel s s' :
  loop_body B W argv fuel s = (Done tt, s') ->
  exists pre o post,
    since s s'
    = pre ++ Load REOPEN o :: (if o =? 0 then [] else rotation s) ++ post
    /\ (get REOPEN s <> 0 -> o <> 0).
Proof.
  intros E. apply loop_body_returns in E. cbv zeta in E.
  destruct E as (R & s1 & E1 & E2).
  set (s0 := loaded RESTART (delivered W (progressed W s))) in *.
  destruct (reopen_if_requested_served s0) as (s1' & E1' & T1).
  rewrite E1 in E1'. injection E1' as <-.
  destruct (timers_if_alarmed_served s1) as (s2 & E2' & T2 & _).
  rewrite E2 in E2'. injection E2' as <-.
  pose proof (trace_checked W s) as T0. cbv zeta in T0. fold s0 in T0.
  exists [Call irc_cycle; Call scan_cycle;
          Load RESTART (get RESTART (delivered W (progressed W s)))],
    (get REOPEN (delivered W s0)). eexists. split.
  - apply since_app. rewrite T2, T1, T0. unfold s0 at 3.
    rewrite rotation_checked, <- !app_assoc. reflexivity.
  - intros H. apply (carries_delivered W REOPEN s0). left.
    apply (carries_checked REOPEN s). now left.
Qed.

End Served.

(** ** Timer handling *)

Lemma ticked_app a b : ticked a -> ticked b -> ticked (a ++ b).
Proof.
  intros Ha Hb. induction Ha as [|e l He _ IH|v l Hv _ IH]; simpl.
  - exact Hb.
  - now apply ticked_idle.
  - change (ticked (Load ALARMED v :: ticks ++ l ++ b)).
    now apply ticked_block.
Qed.

#[export] Instance ticked_Sequential : Sequential (always ticked).
Proof. split; [apply ticked_nil|]. intros d a b. apply ticked_app. Qed.

(** In a [ticked] trace, a read of [ALARMED] that finds it set is
    followed by the three timers, in order, and the clearing. *)
Lemma ticked_alarm l :
  ticked l ->
  forall pre v post,
    l = pre ++ Load ALARMED v :: post -> v <> 0 ->
    exists post', post = ticks ++ post'.
Proof.
  induction 1 as [|e l He _ IH|w l Hw _ IH]; intros pre v post E Hv.
  - now destruct pre.
  - destruct pre as [|e' pre]; simpl in E; injection E as E1 E2.
    + subst e. simpl in He. apply Z.eqb_eq in He. contradiction.
    + now apply (IH pre v post).
  - destruct pre as [|e1 pre]; simpl in E.
    { injection E as _ E. exists l. now rewrite <- E. }
    injection E as _ E.
    do 4 (destruct pre as [|? pre]; simpl in E; [discriminate|];
          injection E as _ E).
    now apply (IH pre v post).
Qed.

Section Ticks.

Variable B : build.
Variable W : world.
Variable argv : list string.
Hypothesis quiet : no_SIGINT W = true.

Lemma timers_if_alarmed_ticked : emits (always ticked) (timers_if_alarmed W).
Proof.
  intros s. destruct (timers_if_alarmed_quiet W quiet s)
    as (a & s' & E & T & R).
  rewrite E. cbn [fst snd].
  exists (Load ALARMED a :: (if a =? 0 then [] else ticks)).
  split; [exact T|]. split; [|exact R]. unfold always.
  destruct (Z.eqb_spec a 0) as [->|Ha].
  - now repeat constructor.
  - rewrite <- (app_nil_r ticks). apply ticked_block; [exact Ha|constructor].
Qed.

Lemma cloexec_loop_ticked fuel i limit :
  emits (always ticked) (cloexec_loop W fuel i limit).
Proof.
  revert i. induction fuel as [|fuel IH]; intros i; simpl.
  - emits_rule.
  - destruct (i <? limit); [|emits_rule].
    emits_rule; [emits_rule|apply IH].
Qed.

Lemma loop_body_ticked fuel : emits (always ticked) (loop_body B W argv fuel).
Proof.
  unfold loop_body, restart_if_requested, restart, do_execv,
    reopen_if_requested, reopen.
  repeat first [ apply timers_if_alarmed_ticked
               | apply cloexec_loop_ticked
               | emits_rule ].
Qed.

Lemma main_loop_ticked fuel n : emits (always ticked) (main_loop B W argv fuel n).
Proof.
  induction n as [|n IH]; simpl.
  - emits_rule.
  - emits_rule; [apply loop_body_ticked|apply IH].
Qed.

End Ticks.

(** C4.  In a run of the main loop, however long and whatever signals
    arrive (short of an interrupt), each read of [ALARMED] that finds it
    set is followed at once by [irc_timer], [scan_timer] and
    [command_timer], once each and in this order, and only then by the
    clearing of the flag; no timer runs and the flag is not written
    outside such a block.  The read does take place: every turn that
    returns to the loop ends with the read of [ALARMED], followed by
    the three timers and the clearing when the flag is found set, and
    leaves the flag clear.  A tick is not missed: if the flag was set
    when the turn began, or a [SIGALRM] was delivered during the turn,
    the read finds the flag set. *)
Theorem timers_once_in_order B W argv fuel n s :
  no_SIGINT W = true ->
  ticked (since s (snd (main_loop B W argv fuel n s)))
  /\ (forall pre v post,
        since s (snd (main_loop B W argv fuel n s))
        = pre ++ Load ALARMED v :: post ->
        v <> 0 ->
        exists post',
          post = Call irc_timer :: Call scan_timer :: Call command_timer
                 :: Store ALARMED 0 :: post')
  /\ forall s',
       loop_body B W argv fuel s = (Done tt, s') ->
       get ALARMED s' = 0
       /\ exists pre a,
            since s s'
            = pre ++ Load ALARMED a
              :: (if a =? 0 then []
                  else [Call irc_timer; Call scan_timer; Call command_timer;
                        Store ALARMED 0])
            /\ (get ALARMED s <> 0
                \/ raised W ALARMED (clock s) (clock s') = true ->
                a <> 0).
Proof.
  intros quiet.
  destruct (main_loop_ticked B W argv quiet fuel n s) as (new & T & H & _).
  apply since_app in T. rewrite T. split; [exact H|]. split.
  - intros pre v post E Hv. exact (ticked_alarm new H pre v post E Hv).
  - intros s' E. exact (loop_body_serves_tick B W argv quiet fuel s s' E).
Qed.

Lemma timers_once_in_order_witness :
  ticked
    (since (running 0)
       (snd (main_loop sample_build
               (sample_world all_succeed []
                  [[Signal SIGALRM]; []; []; []; []; [Signal SIGALRM]])
               ["hopm"%string] 8 3 (running 0))))
  /\ exists pre a,
       a <> 0
       /\ since (running 0)
            (snd (loop_body sample_build
                    (sample_world all_succeed []
                       [[Signal SIGALRM]; []; []; []; []; [Signal SIGALRM]])
                    ["hopm"%string] 8 (running 0)))
          = pre ++ [Load ALARMED a; Call irc_timer; Call scan_timer;
                    Call command_timer; Store ALARMED 0].
Proof.
  pose proof (timers_once_in_order sample_build
                (sample_world all_succeed []
                   [[Signal SIGALRM]; []; []; []; []; [Signal SIGALRM]])
                ["hopm"%string] 8 3 (running 0) eq_refl) as (T & _ & L).
  split; [exact T|].
  assert (D : loop_body sample_build
                (sample_world all_succeed []
                   [[Signal SIGALRM]; []; []; []; []; [Signal SIGALRM]])
                ["hopm"%string] 8 (running 0)
              = (Done tt,
                 snd (loop_body sample_build
                        (sample_world all_succeed []
                           [[Signal SIGALRM]; []; []; []; [];
                            [Signal SIGALRM]])
                        ["hopm"%string] 8 (running 0))))
    by (vm_compute; reflexivity).
  destruct (L _ D) as (_ & pre & a & E & Ha).
  assert (R : raised
                (sample_world all_succeed []
                   [[Signal SIGALRM]; []; []; []; []; [Signal SIGALRM]])
                ALARMED (clock (running 0))
                (clock
                   (snd (loop_body sample_build
                           (sample_world all_succeed []
                              [[Signal SIGALRM]; []; []; []; [];
                               [Signal SIGALRM]])
                           ["hopm"%string] 8 (running 0))))
              = true) by (vm_compute; reflexivity).
  exists pre, a. split; [exact (Ha (or_intror R))|].
  destruct (Z.eqb_spec a 0) as [Z0|_]; [|exact E].
  destruct (Ha (or_intror R) Z0).
Defined.

(** ** Once the restart request is seen *)

Lemma calm_final l : calm l -> final l.
Proof. intros H. exists l, []. now rewrite app_nil_r. Qed.

Lemma phased_calm b k l : calm l -> phased b k l.
Proof.
  intros H. destruct k; simpl; [exact H|now apply calm_final|].
  destruct b; [exact H|now apply calm_final].
Qed.

Lemma calm_app_final a l : calm a -> final l -> final (a ++ l).
Proof.
  intros Ha (pre & post & -> & Hp & Hq). exists (a ++ pre), post.
  rewrite app_assoc, forallb_app, Ha, Hp. now repeat split.
Qed.

#[export] Instance phased_Sequential b : Sequential (phased b).
Proof.
  split; [reflexivity|]. intros d a l Ha Hl. simpl in Ha.
  destruct d; simpl in *.
  - unfold calm in *. now rewrite forallb_app, Ha, Hl.
  - now apply calm_app_final.
  - destruct b.
    + unfold calm in *. now rewrite forallb_app, Ha, Hl.
    + now apply calm_app_final.
Qed.

(** A read that finds [RESTART] set lies in the second part of a final
    trace, and what follows it is quiescent. *)
Lemma final_after l :
  final l ->
  forall a v b, l = a ++ Load RESTART v :: b -> v <> 0 ->
  forallb quiescent b = true.
Proof.
  intros (pre & post & -> & Hp & Hq). revert Hp.
  induction pre as [|e pre IH]; intros Hp a v b E Hv.
  - simpl in E. rewrite E, forallb_app in Hq.
    apply andb_true_iff in Hq as [_ Hq]. exact Hq.
  - simpl in Hp. apply andb_true_iff in Hp as [He Hp].
    destruct a as [|e' a]; simpl in E; injection E as E1 E2.
    + subst e. simpl in He. apply Z.eqb_eq in He. contradiction.
    + now apply (IH Hp a v b).
Qed.

Lemma calm_never_set l a v b :
  calm l -> l = a ++ Load RESTART v :: b -> v = 0.
Proof.
  unfold calm. intros H ->. rewrite forallb_app in H.
  apply andb_true_iff in H as [_ H]. simpl in H.
  apply andb_true_iff in H as [H _]. now apply Z.eqb_eq.
Qed.

Section Finishes.

Variable W : world.

Lemma finishes_ret {A} (a : A) : finishes (ret a).
Proof. intros s. discriminate. Qed.

Lemma finishes_gets {A} (f : state -> A) : finishes (gets f).
Proof. intros s. discriminate. Qed.

Lemma finishes_halt {A} o : finishes (@halt A o).
Proof. intros s. discriminate. Qed.

Lemma finishes_bind {A C} (m : M A) (k : A -> M C) :
  finishes m -> (forall a, finishes (k a)) -> finishes (x <- m ;; k x).
Proof.
  intros Hm Hk s. specialize (Hm s). unfold bind.
  destruct (m s) as [[a| |] s']; [apply Hk|discriminate|now simpl in Hm].
Qed.

Lemma finishes_deliver : finishes (deliver W).
Proof.
  intros s. destruct (deliver_cases W s) as [E|(s' & E & _)];
    rewrite E; discriminate.
Qed.

Lemma finishes_call c : finishes (call W c).
Proof.
  apply finishes_bind; [apply finishes_deliver|]. intros _ s.
  rewrite extern_eq. discriminate.
Qed.

Lemma finishes_run c : finishes (run W c).
Proof.
  apply finishes_bind; [apply finishes_call|]. intros _. apply finishes_ret.
Qed.

Lemma finishes_exit {A} status : finishes (@exit W A status).
Proof.
  apply finishes_bind; [apply finishes_deliver|]. intros _.
  apply finishes_halt.
Qed.

Lemma cloexec_loop_finishes k : forall fuel i limit,
  (k < fuel)%nat -> 0 <= i -> limit = i + Z.of_nat k -> limit <= 2 ^ 31 ->
  finishes (cloexec_loop W fuel i limit).
Proof.
  induction k as [|k IH]; intros fuel i limit Hf Hi Hl Hk;
    (destruct fuel as [|fuel]; [lia|]); simpl cloexec_loop.
  - destruct (Z.ltb_spec i limit) as [|_]; [lia|]. apply finishes_ret.
  - destruct (Z.ltb_spec i limit) as [_|]; [|lia].
    apply finishes_bind; [apply finishes_run|]. intros _.
    rewrite to_uint_small by lia. apply IH; lia.
Qed.

Lemma restart_finishes B argv fuel :
  0 <= rlim_cur W RLIMIT_NOFILE <= INT_MAX ->
  (Z.to_nat (rlim_cur W RLIMIT_NOFILE) < fuel)%nat ->
  finishes (restart B W argv fuel).
Proof.
  intros Hl Hf. unfold INT_MAX in Hl. unfold restart, do_execv.
  repeat first
    [ apply finishes_exit | apply finishes_run | apply finishes_call
    | apply finishes_ret | apply finishes_gets | apply finishes_halt
    | apply (cloexec_loop_finishes (Z.to_nat (rlim_cur W RLIMIT_NOFILE)));
      lia
    | apply finishes_bind; [|intros ?]
    | match goal with
      | |- finishes (if ?b then _ else _) => destruct b
      end ].
Qed.

Lemma load_cases f s :
  load W f s = (Done (get f (delivered W s)), loaded f (delivered W s))
  \/ exists s', load W f s = (Halt (Exited 0), s')
                /\ trace s' = trace s ++ [bye]
                /\ (get RESTART s <> 0 -> get RESTART s' <> 0).
Proof.
  unfold load, bind.
  destruct (deliver_cases W s) as [E|(s' & E & T)]; rewrite E.
  - now left.
  - right. now exists s'.
Qed.

End Finishes.

Section Final.

Variable B : build.
Variable W : world.
Variable argv : list string.
Variable fuel : nat.
Variable bounded : bool.
Hypothesis in_bounds :
  bounded = true ->
  0 <= rlim_cur W RLIMIT_NOFILE <= INT_MAX
  /\ (Z.to_nat (rlim_cur W RLIMIT_NOFILE) < fuel)%nat.

Lemma restart_if_requested_phased :
  emits (phased bounded) (restart_if_requested B W argv fuel).
Proof.
  intros s. unfold restart_if_requested, bind.
  destruct (load_cases W RESTART s) as [E|(s' & E & T & R)]; rewrite E;
    cbv beta iota.
  - destruct (Z.eqb_spec (get RESTART (delivered W s)) 0) as [Ev|Ev].
    + exists [Load RESTART (get RESTART (delivered W s))].
      unfold ret. cbn [fst snd].
      rewrite trace_loaded, trace_delivered. split; [reflexivity|]. split.
      * simpl. unfold calm. simpl. now rewrite Ev.
      * intros H. rewrite get_loaded. now apply sticky_delivered.
    + destruct (restart_quiescent B W argv fuel
                  (loaded RESTART (delivered W s))) as (new & T & Q & R).
      exists (Load RESTART (get RESTART (delivered W s)) :: new).
      rewrite T, trace_loaded, trace_delivered, <- app_assoc.
      split; [reflexivity|]. split.
      * assert (F : final (Load RESTART (get RESTART (delivered W s)) :: new)).
        { exists [], (Load RESTART (get RESTART (delivered W s)) :: new).
          repeat split. exact Q. }
        pose proof (restart_never B W argv fuel
                      (loaded RESTART (delivered W s))) as N.
        destruct (status_of _) eqn:K; simpl; [contradiction|exact F|].
        destruct bounded; [|exact F].
        destruct (in_bounds eq_refl) as [Hl Hf].
        now destruct (restart_finishes W B argv fuel Hl Hf
                        (loaded RESTART (delivered W s))).
      * intros H. apply R. rewrite get_loaded. now apply sticky_delivered.
  - exists [bye]. cbn [fst snd]. split; [exact T|]. split; [|exact R].
    now apply calm_final.
Qed.

Ltac phased_side :=
  try solve [ right; now apply calm_final
            | apply phased_calm; reflexivity
            | intros ?; apply phased_calm; reflexivity ].

Lemma loop_body_phased :
  emits (phased bounded) (loop_body B W argv fuel).
Proof.
  unfold loop_body, reopen_if_requested, timers_if_alarmed, reopen, timers.
  repeat first [ apply restart_if_requested_phased
               | emits_rule; phased_side ].
Qed.

Lemma main_loop_phased n :
  emits (phased bounded) (main_loop B W argv fuel n).
Proof.
  induction n as [|n IH]; simpl.
  - emits_rule; phased_side.
  - emits_rule; [apply loop_body_phased|apply IH].
Qed.

End Final.

(** C9.  The hang-up handler and [main_restart] raise [RESTART]; a run
    of the main loop, however long and under any schedule of signals,
    leaves a raised [RESTART] raised, and a request that arrives during
    the run, at whatever statement, is not lost either: if [RESTART] was
    set when the run began, or a hang-up or a restart request was
    delivered at one of its delivery points, the flag is set where the
    run stands.  Once a turn has read the flag as set, the run records
    no further progress call, log rotation or timer event.  When the
    descriptor ceiling is within range (and the model is given the fuel
    to walk up to it) the process has then ended. *)
Theorem restart_request_is_final B W argv fuel n s :
  get RESTART (snd (main_restart s)) = 1
  /\ get RESTART (snd (do_signal W SIGHUP s)) = 1
  /\ (get RESTART s <> 0 ->
      get RESTART (snd (main_loop B W argv fuel n s)) <> 0)
  /\ (get RESTART s <> 0
      \/ raised W RESTART (clock s)
           (clock (snd (main_loop B W argv fuel n s))) = true ->
      get RESTART (snd (main_loop B W argv fuel n s)) <> 0)
  /\ forall pre v post,
       since s (snd (main_loop B W argv fuel n s))
       = pre ++ Load RESTART v :: post ->
       v <> 0 ->
       forallb quiescent post = true
       /\ (0 <= rlim_cur W RLIMIT_NOFILE <= INT_MAX ->
           (Z.to_nat (rlim_cur W RLIMIT_NOFILE) < fuel)%nat ->
           exists o, fst (main_loop B W argv fuel n s) = Halt o).
Proof.
  split; [reflexivity|]. split; [reflexivity|].
  split; [intros H; apply (main_loop_retains B W argv fuel n s); now left|].
  split; [apply (main_loop_retains B W argv fuel n s)|].
  assert (U : false = true ->
              0 <= rlim_cur W RLIMIT_NOFILE <= INT_MAX
              /\ (Z.to_nat (rlim_cur W RLIMIT_NOFILE) < fuel)%nat)
    by discriminate.
  destruct (main_loop_phased B W argv fuel false U n s) as (new & T & P & _).
  intros pre v post E Hv.
  apply since_app in T. rewrite T in E. split.
  - destruct (status_of (fst (main_loop B W argv fuel n s))); simpl in P.
    + now destruct (Hv (calm_never_set new pre v post P E)).
    + exact (final_after new P pre v post E Hv).
    + exact (final_after new P pre v post E Hv).
  - intros Hl Hf.
    destruct (main_loop_phased B W argv fuel true (fun _ => conj Hl Hf) n s)
      as (new' & T' & P' & _).
    apply since_app in T'. rewrite T' in T. subst new'.
    destruct (fst (main_loop B W argv fuel n s)) as [a|o|]; simpl in P'.
    + now destruct (Hv (calm_never_set new pre v post P' E)).
    + now exists o.
    + now destruct (Hv (calm_never_set new pre v post P' E)).
Qed.

Lemma restart_request_is_final_witness :
  forallb quiescent
    [restarting_log; Call (getrlimit RLIMIT_NOFILE); mark 0; mark 1; mark 2;
     mark 3; Call (execv "/usr/local/bin/hopm" ["hopm"%string]);
     execv_failed_log sample_build (sample_world execv_fails [] hangup)
       ["hopm"%string]] = true
  /\ (exists o,
        fst (main_loop sample_build (sample_world execv_fails [] hangup)
               ["hopm"%string] 8 3 (running 0)) = Halt o)
  /\ get RESTART
       (snd (loop_body sample_build
               (sample_world all_succeed [] hangup_in_rotation)
               ["hopm"%string] 8 (running 0))) <> 0.
Proof.
  destruct (proj2 (proj2 (proj2 (proj2
             (restart_request_is_final sample_build
                (sample_world execv_fails [] hangup) ["hopm"%string] 8 3
                (running 0)))))
             [Call irc_cycle; Call scan_cycle] 1
             [restarting_log; Call (getrlimit RLIMIT_NOFILE); mark 0; mark 1;
              mark 2; mark 3;
              Call (execv "/usr/local/bin/hopm" ["hopm"%string]);
              execv_failed_log sample_build
                (sample_world execv_fails [] hangup) ["hopm"%string]])
    as [Q H].
  - vm_compute. reflexivity.
  - discriminate.
  - split; [exact Q|]. split.
    + apply H.
      * vm_compute. split; discriminate.
      * vm_compute. lia.
    + assert (R : raised (sample_world all_succeed [] hangup_in_rotation)
                    RESTART (clock (running 0))
                    (clock
                       (snd (main_loop sample_build
                               (sample_world all_succeed []
                                  hangup_in_rotation)
                               ["hopm"%string] 8 1 (running 0))))
                  = true) by (vm_compute; reflexivity).
      pose proof (proj1 (proj2 (proj2 (proj2
                   (restart_request_is_final sample_build
                      (sample_world all_succeed [] hangup_in_rotation)
                      ["hopm"%string] 8 1 (running 0)))))
                   (or_intror R)) as G.
      assert (S1 : snd (main_loop sample_build
                          (sample_world all_succeed [] hangup_in_rotation)
                          ["hopm"%string] 8 1 (running 0))
                   = snd (loop_body sample_build
                            (sample_world all_succeed [] hangup_in_rotation)
                            ["hopm"%string] 8 (running 0)))
        by (vm_compute; reflexivity).
      now rewrite <- S1.
Defined.

(** ** Option parsing *)

Lemma parse_options_returns argv rets : forall s,
  fst (parse_options argv rets s) = Done tt.
Proof.
  induction rets as [|[c optarg] rets IH]; intros s; [reflexivity|].
  simpl. unfold bind. simpl.
  destruct (c =? -1); [reflexivity|].
  destruct (c =? opt_c); [apply IH|].
  destruct (c =? opt_d); apply IH.
Qed.

(** The outcome of the option loop, as far as the configuration name and
    the debug level go, depends on nothing else in the state. *)
Lemma parse_options_agree argv rets : forall s1 s2,
  CONFNAME s1 = CONFNAME s2 -> OPT_DEBUG s1 = OPT_DEBUG s2 ->
  CONFNAME (snd (parse_options argv rets s1))
  = CONFNAME (snd (parse_options argv rets s2))
  /\ OPT_DEBUG (snd (parse_options argv rets s1))
     = OPT_DEBUG (snd (parse_options argv rets s2)).
Proof.
  induction rets as [|[c optarg] rets IH]; intros s1 s2 Hn Hd.
  - now split.
  - simpl. unfold bind. simpl.
    destruct (c =? -1); [now split|].
    destruct (c =? opt_c); [now apply IH|].
    destruct (c =? opt_d); apply IH; simpl; congruence.
Qed.

Lemma parse_options_unknown argv c optarg rets s :
  c <> -1 -> c <> opt_c -> c <> opt_d ->
  parse_options argv ((c, optarg) :: rets) s
  = parse_options argv rets
      (with_trace (trace s ++ [Call (getopt argv "dc:")]) s).
Proof.
  intros H1 Hc Hd. simpl. unfold bind. simpl.
  destruct (Z.eqb_spec c (-1)); [contradiction|].
  destruct (Z.eqb_spec c opt_c); [contradiction|].
  destruct (Z.eqb_spec c opt_d); [contradiction|].
  reflexivity.
Qed.

(** C10.  When [getopt] hands back anything but ['c'], ['d'] or the
    final [-1], the option loop goes on to the next option from a state
    that differs only by the record of that [getopt] call; it always
    returns to [main]; and the configuration name and debug level it
    ends with are those it would have ended with had the unknown option
    not been on the command line. *)
Theorem unknown_option_ignored argv c optarg pre post s :
  c <> -1 -> c <> opt_c -> c <> opt_d ->
  Forall (fun r => fst r <> -1) pre ->
  parse_options argv ((c, optarg) :: post) s
  = parse_options argv post
      (with_trace (trace s ++ [Call (getopt argv "dc:")]) s)
  /\ fst (parse_options argv (pre ++ (c, optarg) :: post) s) = Done tt
  /\ CONFNAME (snd (parse_options argv (pre ++ (c, optarg) :: post) s))
     = CONFNAME (snd (parse_options argv (pre ++ post) s))
  /\ OPT_DEBUG (snd (parse_options argv (pre ++ (c, optarg) :: post) s))
     = OPT_DEBUG (snd (parse_options argv (pre ++ post) s)).
Proof.
  intros H1 Hc Hd Hpre.
  split; [now apply parse_options_unknown|].
  split; [apply parse_options_returns|].
  revert s. induction Hpre as [|[c' o'] pre Hc' _ IH]; intros s.
  - simpl app. rewrite parse_options_unknown by assumption.
    now apply parse_options_agree.
  - simpl in Hc'. simpl. unfold bind. simpl.
    destruct (Z.eqb_spec c' (-1)); [contradiction|].
    destruct (c' =? opt_c); [apply IH|].
    destruct (c' =? opt_d); apply IH.
Qed.

Lemma unknown_option_ignored_witness :
  parse_options ["hopm"; "-d"; "-x"; "-c"; "irc"]%string
    ((120, EmptyString) :: [(opt_c, "irc"%string)]) (initial sample_build)
  = parse_options ["hopm"; "-d"; "-x"; "-c"; "irc"]%string
      [(opt_c, "irc"%string)]
      (with_trace
         (trace (initial sample_build)
          ++ [Call (getopt ["hopm"; "-d"; "-x"; "-c"; "irc"]%string "dc:")])
         (initial sample_build))
  /\ fst (parse_options ["hopm"; "-d"; "-x"; "-c"; "irc"]%string
            ([(opt_d, EmptyString)] ++ (120, EmptyString)
             :: [(opt_c, "irc"%string)]) (initial sample_build)) = Done tt
  /\ CONFNAME (snd (parse_options ["hopm"; "-d"; "-x"; "-c"; "irc"]%string
                      ([(opt_d, EmptyString)] ++ (120, EmptyString)
                       :: [(opt_c, "irc"%string)]) (initial sample_build)))
     = CONFNAME (snd (parse_options ["hopm"; "-d"; "-x"; "-c"; "irc"]%string
                        ([(opt_d, EmptyString)] ++ [(opt_c, "irc"%string)])
                        (initial sample_build)))
  /\ OPT_DEBUG (snd (parse_options ["hopm"; "-d"; "-x"; "-c"; "irc"]%string
                       ([(opt_d, EmptyString)] ++ (120, EmptyString)
                        :: [(opt_c, "irc"%string)]) (initial sample_build)))
     = OPT_DEBUG (snd (parse_options ["hopm"; "-d"; "-x"; "-c"; "irc"]%string
                         ([(opt_d, EmptyString)] ++ [(opt_c, "irc"%string)])
                         (initial sample_build))).
Proof.
  apply (unknown_option_ignored ["hopm"; "-d"; "-x"; "-c"; "irc"]%string
           120 EmptyString [(opt_d, EmptyString)]
           [(opt_c, "irc"%string)] (initial sample_build)).
  - discriminate.
  - discriminate.
  - discriminate.
  - repeat constructor. discriminate.
Defined.

(** ** The bootstrap

    Until the handlers are installed a delivery point does nothing. *)

Lemma settled_refl s : settled s s.
Proof. now repeat split. Qed.

Lemma settled_trans s1 s2 s3 : settled s1 s2 -> settled s2 s3 -> settled s1 s3.
Proof. unfold settled. intuition congruence. Qed.

Lemma settled_called W c s : settled s (called W c s).
Proof.
  unfold settled, called. now destruct (failed c (returns W c)).
Qed.

Section Boot.

Variable B : build.
Variable W : world.

Lemma deliver_off s : handling s = false -> deliver W s = (Done tt, s).
Proof. unfold deliver. now intros ->. Qed.

Lemma bind_call_off {C} c (k : Z -> M C) s :
  handling s = false ->
  (r <- call W c ;; k r) s = k (returns W c) (called W c s).
Proof.
  intros H. unfold call. rewrite bind_assoc. unfold bind at 1.
  rewrite deliver_off by exact H. unfold bind. now rewrite extern_eq.
Qed.

Lemma bind_run_off {C} c (k : unit -> M C) s :
  handling s = false ->
  (x <- run W c ;; k x) s = k tt (called W c s).
Proof.
  intros H. unfold run. rewrite bind_assoc. now rewrite bind_call_off.
Qed.

Lemma run_off c s :
  handling s = false -> run W c s = (Done tt, called W c s).
Proof.
  intros H.
  transitivity ((x <- run W c ;; ret x) s); [|now rewrite bind_run_off].
  unfold bind. now destruct (run W c s) as [[[]| |] s'].
Qed.

Lemma exit_off {A} status s :
  handling s = false -> @exit W A status s = (Halt (Exited status), s).
Proof. intros H. unfold exit, bind. now rewrite deliver_off. Qed.

Lemma never_do_err {A} eval fmt : never (@do_err W A eval fmt).
Proof.
  unfold do_err. do 2 (apply never_bind_r; intros ?). apply never_exit.
Qed.

Lemma do_err_off {A} eval fmt s :
  handling s = false ->
  @do_err W A eval fmt s
  = (Halt (Exited eval), called W (err eval fmt (errno s)) s).
Proof.
  intros H. unfold do_err. rewrite bind_gets, bind_run_off by exact H.
  apply exit_off. now rewrite handling_called.
Qed.

End Boot.

(** One step of a bootstrap that is known to have returned. *)
Lemma handling_with_OptionsItem o s :
  handling (with_OptionsItem o s) = handling s.
Proof. reflexivity. Qed.

Ltac off_side :=
  repeat first [ rewrite handling_called
               | rewrite handling_with_OptionsItem ];
  first [ assumption | reflexivity ].

Ltac boot H :=
  rewrite ?bind_assoc in H;
  first [ rewrite bind_call_off in H by off_side
        | rewrite bind_run_off in H by off_side
        | rewrite run_off in H by off_side
        | rewrite bind_gets in H
        | rewrite bind_ret in H
        | rewrite bind_modify in H ];
  cbv beta in H.

Ltac never_tac :=
  first [ apply never_do_err
        | apply never_exit
        | apply never_halt
        | apply never_bind_l; never_tac
        | apply never_bind_r; intros ?; never_tac ].

(** A test whose first branch does not return. *)
Ltac pass H :=
  match type of H with
  | context [if ?b then _ else _] =>
      let E := fresh "E" in
      destruct b eqn:E;
      [ exfalso; revert H; rewrite ?bind_assoc;
        apply done_not_never; never_tac
      | try boot H ]
  end.

Lemma trace_repeat_getopt argv rets : forall s,
  exists k,
    trace (snd (parse_options argv rets s))
    = trace s ++ repeat (Call (getopt argv "dc:")) k
    /\ handling (snd (parse_options argv rets s)) = handling s.
Proof.
  induction rets as [|[c optarg] rets IH]; intros s.
  - now exists 1%nat.
  - simpl. unfold bind. simpl.
    destruct (c =? -1); [now exists 1%nat|].
    assert (G : forall s1,
              trace s1 = trace s ++ [Call (getopt argv "dc:")] ->
              handling s1 = handling s ->
              exists k,
                trace (snd (parse_options argv rets s1))
                = trace s ++ repeat (Call (getopt argv "dc:")) k
                /\ handling (snd (parse_options argv rets s1)) = handling s).
    { intros s1 T1 H1. destruct (IH s1) as (k & T & H).
      exists (S k). rewrite T, T1, H, H1, <- app_assoc. now split. }
    destruct (c =? opt_c); [now apply G|].
    destruct (c =? opt_d); now apply G.
Qed.

Lemma substring_all s : forall n,
  (String.length s <= n)%nat -> substring 0 n s = s.
Proof.
  induction s as [|c s IH]; intros n H.
  - now destruct n.
  - destruct n as [|n]; simpl in *; [lia|]. rewrite IH; [reflexivity|lia].
Qed.

Lemma length_append s1 s2 :
  String.length (s1 ++ s2) = (String.length s1 + String.length s2)%nat.
Proof. induction s1 as [|c s1 IH]; simpl; [|rewrite IH]; reflexivity. Qed.

Lemma length_path_of d n e :
  String.length (path_of d n e)
  = (String.length d + String.length n + String.length e + 2)%nat.
Proof.
  unfold path_of. rewrite !length_append. simpl. lia.
Qed.

(** The buffers are large enough: nothing is cut off. *)
Lemma snprintf_path_of d n e :
  snprintf (String.length d + String.length n + String.length e + 3)
    (path_of d n e) = path_of d n e.
Proof.
  unfold snprintf. apply substring_all. rewrite length_path_of. lia.
Qed.

Section Phases.

Variable B : build.
Variable W : world.

Lemma enter_sandbox_done s s' :
  handling s = false ->
  enter_sandbox W s = (Done tt, s') ->
  trace s' = trace s ++ [Call (pledge broad_promises); Call (unveil "/" "")]
  /\ settled s s'.
Proof.
  intros Hh H. unfold enter_sandbox in H.
  boot H. pass H. boot H. pass H.
  injection H as <-. split.
  - autorewrite with frame. now rewrite <- app_assoc.
  - eapply settled_trans; apply settled_called.
Qed.

Lemma setup_corelimit_done s s' :
  handling s = false ->
  setup_corelimit W s = (Done tt, s') ->
  trace s'
  = trace s ++ Call (getrlimit RLIMIT_CORE)
    :: (if returns W (getrlimit RLIMIT_CORE) =? 0
        then [Call (setrlimit RLIMIT_CORE (rlim_max W RLIMIT_CORE)
                      (rlim_max W RLIMIT_CORE))]
        else [])
  /\ settled s s'.
Proof.
  intros Hh H. unfold setup_corelimit in H.
  rewrite <- (bind_ret_r _ s) in H. boot H.
  destruct (returns W (getrlimit RLIMIT_CORE) =? 0).
  - boot H. injection H as <-. split.
    + autorewrite with frame. now rewrite <- app_assoc.
    + eapply settled_trans; apply settled_called.
  - boot H. injection H as <-. split.
    + now autorewrite with frame.
    + apply settled_called.
Qed.

Lemma enter_prefix_done s s' :
  handling s = false ->
  enter_prefix B W s = (Done tt, s') ->
  trace s' = trace s ++ prefix_events B /\ settled s s'.
Proof.
  intros Hh H. unfold enter_prefix in H.
  boot H. pass H. boot H. pass H.
  injection H as <-. split.
  - autorewrite with frame. now rewrite <- app_assoc.
  - eapply settled_trans; apply settled_called.
Qed.

Lemma detach_done s s' :
  handling s = false ->
  detach W s = (Done tt, s') ->
  trace s' = trace s ++ detach_events W s /\ settled s s'.
Proof.
  intros Hh H. unfold detach, detach_events in *. rewrite bind_gets in H.
  destruct (OPT_DEBUG s =? 0).
  - unfold daemonize, do_perror in H.
    boot H. pass H. pass H. boot H. pass H. boot H. boot H. pass H.
    do 3 boot H. unfold daemon_events. cbv zeta.
    destruct (returns W (open_rdwr "/dev/null") >? 2).
    + do 3 boot H. pass H. rewrite run_off in H by off_side.
      injection H as <-. split.
      * autorewrite with frame. now rewrite <- !app_assoc.
      * repeat (eapply settled_trans; [|apply settled_called]).
        apply settled_refl.
    + do 3 boot H. pass H. rewrite run_off in H by off_side.
      injection H as <-. split.
      * autorewrite with frame. now rewrite <- !app_assoc.
      * repeat (eapply settled_trans; [|apply settled_called]).
        apply settled_refl.
  - rewrite run_off in H by exact Hh. injection H as <-. split.
    + now autorewrite with frame.
    + apply settled_called.
Qed.

Lemma load_config_done s s' :
  handling s = false ->
  load_config B W s = (Done tt, s') ->
  trace s' = trace s ++ config_events B W s
  /\ handling s' = false /\ OPT_DEBUG s' = OPT_DEBUG s
  /\ CONFNAME s' = CONFNAME s
  /\ CONFFILE s' = CONFFILE s /\ LOGFILE s' = LOGFILE s
  /\ OptionsItem s' = loaded_options W.
Proof.
  intros Hh H. unfold load_config, config_events in *.
  do 4 boot H. autorewrite with frame in H. pass H. do 3 boot H.
  cbn [OptionsItem with_OptionsItem] in H.
  destruct (scanlog (loaded_options W)) as [p|].
  - boot H. pass H. rewrite run_off in H by off_side.
    injection H as <-.
    autorewrite with frame.
    cbn [trace handling OPT_DEBUG CONFNAME CONFFILE LOGFILE OptionsItem
         with_OptionsItem].
    autorewrite with frame. rewrite <- !app_assoc.
    repeat split; try reflexivity; try off_side.
  - injection H as <-.
    cbn [trace handling OPT_DEBUG CONFNAME CONFFILE LOGFILE OptionsItem
         with_OptionsItem].
    autorewrite with frame. rewrite <- !app_assoc.
    repeat split; try reflexivity; try off_side.
Qed.

Lemma write_pidfile_done s s' :
  handling s = false ->
  OptionsItem s = loaded_options W ->
  write_pidfile B W s = (Done tt, s') ->
  trace s' = trace s ++ pidfile_events B W
  /\ returns W (fopen (pidfile (loaded_options W)) "w") <> 0
  /\ settled s s'.
Proof.
  intros Hh Ho H. unfold write_pidfile, pidfile_events in *.
  rewrite bind_gets, Ho in H.
  boot H. pass H. do 2 boot H. pass H. boot H. pass H.
  destruct (Z.eqb_spec (returns W (fopen (pidfile (loaded_options W)) "w")) 0)
    as [E2|E2]; cbn [negb] in H.
  - exfalso. revert H. apply done_not_never.
    do 2 (apply never_bind_r; intros ?). apply never_exit.
  - do 2 boot H. rewrite run_off in H by off_side. injection H as <-.
    split; [|split; [exact E2|]].
    + cbv zeta. autorewrite with frame. now rewrite <- !app_assoc.
    + repeat (eapply settled_trans; [|apply settled_called]).
      apply settled_refl.
Qed.

Lemma write_pidfile_fails s :
  handling s = false ->
  OptionsItem s = loaded_options W ->
  returns W (fopen (pidfile (loaded_options W)) "w") = 0 ->
  exists s',
    write_pidfile B W s = (Halt (Exited 1), s')
    /\ (returns W (unveil (pidfile (loaded_options W)) "wc") = 0 ->
        returns W (unveil (HOPM_BINPATH B) "x") <> -1 ->
        returns W (pledge final_promises) <> -1 ->
        trace s'
        = trace s ++ [Call (unveil (pidfile (loaded_options W)) "wc");
                      Call (fopen (pidfile (loaded_options W)) "w");
                      Call (unveil (HOPM_BINPATH B) "x");
                      Call (pledge final_promises);
                      pidfile_error_log W]).
Proof.
  intros Hh Ho Hf. unfold write_pidfile.
  rewrite bind_gets, Ho, bind_call_off by exact Hh.
  destruct (Z.eqb_spec (returns W (unveil (pidfile (loaded_options W)) "wc"))
              0) as [E1|E1]; cbn [negb].
  2:{ erewrite bind_halted
        by (rewrite do_err_off by off_side; reflexivity).
      eexists. split; [reflexivity|]. intros C. contradiction. }
  rewrite bind_ret, !bind_call_off by off_side.
  destruct (Z.eqb_spec (returns W (unveil (HOPM_BINPATH B) "x")) (-1))
    as [E2|E2].
  { erewrite bind_halted
      by (rewrite do_err_off by off_side; reflexivity).
    eexists. split; [reflexivity|]. intros _ C. contradiction. }
  rewrite bind_ret, bind_call_off by off_side.
  destruct (Z.eqb_spec (returns W (pledge final_promises)) (-1)) as [E3|E3].
  { erewrite bind_halted
      by (rewrite do_err_off by off_side; reflexivity).
    eexists. split; [reflexivity|]. intros _ _ C. contradiction. }
  rewrite bind_ret, Hf. cbn [Z.eqb negb].
  rewrite bind_gets, bind_run_off, exit_off by off_side.
  eexists. split; [reflexivity|]. intros _ _ _.
  autorewrite with frame. rewrite <- !app_assoc. simpl app.
  unfold pidfile_error_log. cbv zeta.
  rewrite !errno_called. cbn [failed].
  destruct (Z.eqb_spec (returns W (pledge final_promises)) (-1));
    [contradiction|].
  destruct (Z.eqb_spec (returns W (unveil (HOPM_BINPATH B) "x")) (-1));
    [contradiction|].
  now rewrite Hf.
Qed.

Lemma run_cases c s :
  run W c s = (Done tt, called W c (delivered W s))
  \/ exists s', run W c s = (Halt (Exited 0), s').
Proof.
  unfold run, call, bind.
  destruct (deliver_cases W s) as [E|(s' & E & _)]; rewrite E.
  - left. now rewrite extern_eq.
  - right. now exists s'.
Qed.

Lemma install_handlers_done s s' :
  handling s = false ->
  install_handlers W s = (Done tt, s') ->
  trace s' = trace s ++ handler_events
  /\ OPT_DEBUG s' = OPT_DEBUG s /\ CONFNAME s' = CONFNAME s
  /\ CONFFILE s' = CONFFILE s /\ LOGFILE s' = LOGFILE s
  /\ OptionsItem s' = OptionsItem s.
Proof.
  intros Hh H. unfold install_handlers in H.
  do 6 boot H. apply bind_done in H as (a & s1 & H1 & H2).
  match type of H1 with
  | run W _ ?s0 = _ =>
      destruct (run_cases (alarm 1) s0) as [E|(s2 & E)];
      rewrite E in H1; [|discriminate]
  end.
  injection H1 as Ha Hs. subst a s1. injection H2 as <-.
  cbn [trace OPT_DEBUG CONFNAME CONFFILE LOGFILE OptionsItem with_timer].
  autorewrite with frame.
  cbn [trace OPT_DEBUG CONFNAME CONFFILE LOGFILE OptionsItem with_handling].
  autorewrite with frame. rewrite <- !app_assoc. now repeat split.
Qed.

Lemma bring_up_done argv s s' :
  handling s = false ->
  bring_up B W argv s = (Done tt, s') ->
  (exists k, trace s' = trace s ++ bring_up_events B W argv k s')
  /\ handling s' = false
  /\ OptionsItem s' = loaded_options W
  /\ CONFFILE s' = path_of (HOPM_ETCDIR B) (CONFNAME s') (CONFEXT B)
  /\ LOGFILE s' = path_of (HOPM_LOGDIR B) (CONFNAME s') (LOGEXT B).
Proof.
  intros Hh H. unfold bring_up in H.
  apply bind_done in H as ([] & s1 & H1 & H).
  apply enter_sandbox_done in H1 as [T1 S1]; [|exact Hh].
  assert (Hh1 : handling s1 = false) by (destruct S1 as [-> _]; exact Hh).
  apply bind_done in H as ([] & s2 & H2 & H).
  apply setup_corelimit_done in H2 as [T2 S2]; [|exact Hh1].
  assert (Hh2 : handling s2 = false) by (destruct S2 as [-> _]; exact Hh1).
  apply bind_done in H as ([] & s3 & H3 & H).
  destruct (trace_repeat_getopt argv (getopt_returns W) s2) as (k & T3 & Hh3).
  rewrite H3 in T3, Hh3. cbn [snd] in T3, Hh3. rewrite Hh2 in Hh3.
  apply bind_done in H as ([] & s4 & H4 & H).
  unfold resolve_paths, modify in H4. injection H4 as <-.
  rewrite !snprintf_path_of in H.
  apply bind_done in H as ([] & s5 & H5 & H).
  apply enter_prefix_done in H5 as [T5 S5]; [|exact Hh3].
  assert (Hh5 : handling s5 = false) by (destruct S5 as [-> _]; exact Hh3).
  apply bind_done in H as ([] & s6 & H6 & H).
  apply detach_done in H6 as [T6 S6]; [|exact Hh5].
  assert (Hh6 : handling s6 = false) by (destruct S6 as [-> _]; exact Hh5).
  apply load_config_done in H as (T7 & Hh7 & D7 & N7 & C7 & L7 & O7);
    [|exact Hh6].
  pose proof (settled_trans _ _ _ S5 S6) as S56.
  destruct S56 as (_ & D & N & C & L & _).
  cbn [OPT_DEBUG CONFNAME CONFFILE LOGFILE with_files] in D, N, C, L.
  split; [|repeat split; congruence].
  exists k. unfold bring_up_events, sandbox_events.
  assert (Ed : detach_events W s' = detach_events W s5).
  { unfold detach_events. destruct S6 as (_ & D6 & _ & _ & L6 & _).
    now rewrite D7, L7, D6, L6. }
  assert (Ec : config_events B W s' = config_events B W s6).
  { unfold config_events. now rewrite C7. }
  rewrite Ed, Ec, T7, T6, T5. cbn [trace with_files]. rewrite T3, T2, T1.
  rewrite <- !app_assoc. reflexivity.
Qed.

Lemma startup_done argv s s' :
  handling s = false ->
  startup B W argv s = (Done tt, s') ->
  (exists k, trace s' = trace s ++ bring_up_events B W argv k s'
                        ++ pidfile_events B W ++ handler_events)
  /\ returns W (fopen (pidfile (loaded_options W)) "w") <> 0
  /\ CONFFILE s' = path_of (HOPM_ETCDIR B) (CONFNAME s') (CONFEXT B)
  /\ LOGFILE s' = path_of (HOPM_LOGDIR B) (CONFNAME s') (LOGEXT B).
Proof.
  intros Hh H. unfold startup in H.
  apply bind_done in H as ([] & s1 & H1 & H).
  apply bring_up_done in H1 as ((k & T1) & Hh1 & O1 & C1 & L1); [|exact Hh].
  apply bind_done in H as ([] & s2 & H2 & H).
  apply write_pidfile_done in H2 as (T2 & F2 & S2); [|exact Hh1|exact O1].
  assert (Hh2 : handling s2 = false) by (destruct S2 as [-> _]; exact Hh1).
  apply install_handlers_done in H as (T3 & D3 & N3 & C3 & L3 & O3);
    [|exact Hh2].
  destruct S2 as (_ & D2 & N2 & C2 & L2 & O2).
  split; [|repeat split; congruence].
  exists k.
  assert (E : bring_up_events B W argv k s' = bring_up_events B W argv k s1).
  { unfold bring_up_events, detach_events, config_events.
    now rewrite D3, L3, C3, D2, L2, C2. }
  rewrite E, T3, T2, T1, <- !app_assoc. reflexivity.
Qed.

End Phases.

(** ** What a completed bootstrap has recorded *)

Lemma forallb_repeat {A} (p : A -> bool) e k :
  p e = true -> forallb p (repeat e k) = true.
Proof. intros H. induction k as [|k IH]; simpl; [|rewrite H, IH]; easy. Qed.

Lemma unveils_app a b : unveils (a ++ b) = unveils a ++ unveils b.
Proof. apply flat_map_app. Qed.

Lemma unveils_repeat_getopt argv k :
  unveils (repeat (Call (getopt argv "dc:")) k) = [].
Proof. induction k as [|k IH]; simpl; [|rewrite IH]; reflexivity. Qed.

Lemma after_app p pre l :
  forallb (fun e => negb (p e)) pre = true ->
  after p (pre ++ l) = after p l.
Proof.
  induction pre as [|e pre IH]; intros H; [reflexivity|].
  simpl in *. apply andb_true_iff in H as [He Hp].
  apply negb_true_iff in He. rewrite He. now apply IH.
Qed.

Lemma position_app p pre l :
  forallb (fun e => negb (p e)) pre = true ->
  position p (pre ++ l)
  = option_map (Nat.add (List.length pre)) (position p l).
Proof.
  induction pre as [|e pre IH]; intros H.
  - simpl. now destruct (position p l).
  - simpl in *. apply andb_true_iff in H as [He Hp].
    apply negb_true_iff in He. rewrite He, (IH Hp).
    now destruct (position p l).
Qed.

Lemma filter_none {A} (p : A -> bool) l :
  forallb (fun e => negb (p e)) l = true -> filter p l = [].
Proof.
  induction l as [|e l IH]; intros H; [reflexivity|].
  simpl in *. apply andb_true_iff in H as [He Hp].
  apply negb_true_iff in He. rewrite He. now apply IH.
Qed.

Lemma append_assoc (a b c : string) :
  ((a ++ b) ++ c = a ++ (b ++ c))%string.
Proof. induction a as [|x a IH]; simpl; [|rewrite IH]; reflexivity. Qed.

Lemma append_nil_r (a : string) : (a ++ EmptyString)%string = a.
Proof. induction a as [|x a IH]; simpl; [|rewrite IH]; reflexivity. Qed.

Lemma written_app st a b :
  written st (a ++ b) = (written st a ++ written st b)%string.
Proof.
  induction a as [|e a IH]; [reflexivity|].
  destruct e as [c| |]; simpl; try exact IH.
  destruct c; simpl; try exact IH.
  destruct (_ =? st); [|exact IH].
  rewrite IH. now rewrite append_assoc.
Qed.

Lemma written_none st l :
  forallb (fun e => negb (is_pid_write e)) l = true ->
  written st l = EmptyString.
Proof.
  induction l as [|e l IH]; intros H; [reflexivity|].
  simpl in H. apply andb_true_iff in H as [He Hp].
  destruct e as [c| |]; simpl; try now apply IH.
  destruct c; simpl in *; try discriminate; now apply IH.
Qed.

Lemma bring_up_events_early B W argv k s :
  forallb early (bring_up_events B W argv k s) = true.
Proof.
  unfold bring_up_events, sandbox_events, prefix_events, detach_events,
    daemon_events, config_events.
  rewrite !forallb_app.
  rewrite forallb_repeat by reflexivity.
  destruct (returns W (getrlimit RLIMIT_CORE) =? 0),
    (OPT_DEBUG s =? 0), (scanlog (loaded_options W));
    cbv zeta; rewrite ?forallb_app;
    try destruct (returns W (open_rdwr "/dev/null") >? 2); reflexivity.
Qed.

Lemma early_weaken (p : event -> bool) l :
  (forall e, early e = true -> p e = false) ->
  forallb early l = true ->
  forallb (fun e => negb (p e)) l = true.
Proof.
  intros Hp H. rewrite forallb_forall in *. intros e He.
  now rewrite (Hp e (H e He)).
Qed.

Lemma early_not_final e : early e = true -> is_final_pledge e = false.
Proof.
  unfold early. destruct (is_final_pledge e); [discriminate|reflexivity].
Qed.

Lemma early_not_fopen e : early e = true -> is_fopen e = false.
Proof.
  unfold early. destruct (is_fopen e); [|reflexivity].
  now rewrite andb_false_r.
Qed.

Lemma early_not_write e : early e = true -> is_pid_write e = false.
Proof.
  unfold early. destruct (is_pid_write e); [|reflexivity].
  now rewrite andb_false_r.
Qed.

Lemma unveils_bring_up B W argv k s :
  unveils (bring_up_events B W argv k s)
  = ("/", "")%string :: (HOPM_PREFIX B, "r"%string)
    :: (if OPT_DEBUG s =? 0 then [(LOGFILE s, "wc"%string)] else [])
    ++ (CONFFILE s, "r"%string)
    :: match scanlog (loaded_options W) with
       | Some p => [(p, "wc"%string)]
       | None => []
       end.
Proof.
  unfold bring_up_events, sandbox_events, prefix_events, detach_events,
    daemon_events, config_events.
  rewrite !unveils_app, unveils_repeat_getopt.
  destruct (returns W (getrlimit RLIMIT_CORE) =? 0),
    (OPT_DEBUG s =? 0), (scanlog (loaded_options W));
    cbv zeta; rewrite ?unveils_app;
    try destruct (returns W (open_rdwr "/dev/null") >? 2); reflexivity.
Qed.

(** C5.  In a bootstrap that reaches the main loop, the calls of
    [unveil] are, in order: the whole filesystem with no right, then the
    grants -- the installation root to read; the log file to write and
    create, unless the debug level is not zero; the configuration file
    to read; the scan log to write and create, if one is configured; the
    pid file to write and create; the binary to execute.  The final
    [pledge] takes place and no [unveil] follows it.  (The model has no
    operation that takes a grant back.) *)
Theorem grants_in_order B W argv s s' :
  handling s = false ->
  startup B W argv s = (Done tt, s') ->
  unveils (since s s') = ("/", "")%string :: grants (since s s')
  /\ grants (since s s')
     = (HOPM_PREFIX B, "r"%string)
       :: (if OPT_DEBUG s' =? 0 then [(LOGFILE s', "wc"%string)] else [])
       ++ (CONFFILE s', "r"%string)
       :: match scanlog (loaded_options W) with
          | Some p => [(p, "wc"%string)]
          | None => []
          end
       ++ [(pidfile (loaded_options W), "wc"%string);
           (HOPM_BINPATH B, "x"%string)]
  /\ CONFFILE s' = path_of (HOPM_ETCDIR B) (CONFNAME s') (CONFEXT B)
  /\ LOGFILE s' = path_of (HOPM_LOGDIR B) (CONFNAME s') (LOGEXT B)
  /\ (exists n, position is_final_pledge (since s s') = Some n)
  /\ unveils (after is_final_pledge (since s s')) = [].
Proof.
  intros Hh H.
  destruct (startup_done B W argv s s' Hh H) as ((k & T) & _ & C & L).
  apply since_app in T. rewrite T.
  assert (U : unveils (bring_up_events B W argv k s' ++ pidfile_events B W
                       ++ handler_events)
              = ("/", "")%string :: (HOPM_PREFIX B, "r"%string)
                :: (if OPT_DEBUG s' =? 0
                    then [(LOGFILE s', "wc"%string)] else [])
                ++ (CONFFILE s', "r"%string)
                :: match scanlog (loaded_options W) with
                   | Some p => [(p, "wc"%string)]
                   | None => []
                   end
                ++ [(pidfile (loaded_options W), "wc"%string);
                    (HOPM_BINPATH B, "x"%string)]).
  { rewrite !unveils_app, unveils_bring_up.
    destruct (OPT_DEBUG s' =? 0), (scanlog (loaded_options W)); reflexivity. }
  assert (G : grants (bring_up_events B W argv k s' ++ pidfile_events B W
                      ++ handler_events)
              = (HOPM_PREFIX B, "r"%string)
                :: (if OPT_DEBUG s' =? 0
                    then [(LOGFILE s', "wc"%string)] else [])
                ++ (CONFFILE s', "r"%string)
                :: match scanlog (loaded_options W) with
                   | Some p => [(p, "wc"%string)]
                   | None => []
                   end
                ++ [(pidfile (loaded_options W), "wc"%string);
                    (HOPM_BINPATH B, "x"%string)]).
  { unfold grants. rewrite U.
    destruct (OPT_DEBUG s' =? 0), (scanlog (loaded_options W)); reflexivity. }
  pose proof (early_weaken is_final_pledge _ early_not_final
                (bring_up_events_early B W argv k s')) as E.
  split; [now rewrite U, G|]. split; [exact G|].
  split; [exact C|]. split; [exact L|]. split.
  - rewrite (position_app _ _ _ E). now eexists.
  - now rewrite (after_app _ _ _ E).
Qed.


Lemma grants_in_order_witness :
  grants
    (since (initial sample_build)
       (snd (startup sample_build (sample_world all_succeed [] [])
               ["hopm"%string] (initial sample_build))))
  = [("/usr/local", "r"); ("/usr/local/var/log/hopm.log", "wc");
     ("/usr/local/etc/hopm.conf", "r"); ("/var/log/hopm-scan.log", "wc");
     ("/var/run/hopm.pid", "wc"); ("/usr/local/bin/hopm", "x")]%string.
Proof.
  assert (D : startup sample_build (sample_world all_succeed [] [])
                ["hopm"%string] (initial sample_build)
              = (Done tt,
                 snd (startup sample_build (sample_world all_succeed [] [])
                        ["hopm"%string] (initial sample_build))))
    by (vm_compute; reflexivity).
  pose proof (proj1 (proj2
                (grants_in_order sample_build
                   (sample_world all_succeed [] []) ["hopm"%string]
                   (initial sample_build) _ eq_refl D))) as H.
  rewrite H. vm_compute. reflexivity.
Defined.

(** ** The final narrowing and the pid file *)

(** C2, as stated, fails: in a bootstrap where every call succeeds the
    final [pledge] is event 26 of the trace and the pid is written by
    event 28. *)
Lemma narrowing_precedes_pid_write :
  fst (startup sample_build (sample_world all_succeed [] [])
         ["hopm"%string] (initial sample_build)) = Done tt
  /\ ~ narrowed_after_pid_write
         (trace (snd (startup sample_build (sample_world all_succeed [] [])
                        ["hopm"%string] (initial sample_build)))).
Proof.
  split; [vm_compute; reflexivity|].
  intros (i & j & Hi & Hj & Hlt).
  vm_compute in Hi. vm_compute in Hj.
  injection Hi as <-. injection Hj as <-. lia.
Qed.

(** C2, amended.  In a bootstrap that reaches the main loop the final
    [pledge] is called exactly once; the pid file is opened first, the
    final [pledge] is the second call after that, and the pid is written
    by the second call after the final [pledge]. *)
Theorem final_narrowing_between_open_and_write B W argv s s' :
  handling s = false ->
  startup B W argv s = (Done tt, s') ->
  List.length (filter is_final_pledge (since s s')) = 1%nat
  /\ exists i,
       position is_fopen (since s s') = Some i
       /\ position is_final_pledge (since s s') = Some (i + 2)%nat
       /\ position is_pid_write (since s s') = Some (i + 4)%nat
       /\ firstn 5 (skipn i (since s s'))
          = [Call (fopen (pidfile (loaded_options W)) "w");
             Call (unveil (HOPM_BINPATH B) "x");
             Call (pledge final_promises);
             Call getpid;
             Call (fprintf (returns W (fopen (pidfile (loaded_options W)) "w"))
                     pid_fmt [A_uint (to_uint (returns W getpid))])].
Proof.
  intros Hh H.
  destruct (startup_done B W argv s s' Hh H) as ((k & T) & _).
  apply since_app in T. rewrite T.
  pose proof (bring_up_events_early B W argv k s') as E.
  pose proof (early_weaken _ _ early_not_final E) as E1.
  pose proof (early_weaken _ _ early_not_fopen E) as E2.
  pose proof (early_weaken _ _ early_not_write E) as E3.
  split.
  - rewrite filter_app, (filter_none _ _ E1). reflexivity.
  - exists (List.length (bring_up_events B W argv k s') + 1)%nat.
    rewrite (position_app _ _ _ E1), (position_app _ _ _ E2),
      (position_app _ _ _ E3).
    repeat split.
    + simpl. f_equal. lia.
    + simpl. f_equal. lia.
    + rewrite skipn_app, skipn_all2 by lia.
      replace (List.length (bring_up_events B W argv k s') + 1
               - List.length (bring_up_events B W argv k s'))%nat
        with 1%nat by lia.
      reflexivity.
Qed.

Lemma final_narrowing_between_open_and_write_witness :
  List.length
    (filter is_final_pledge
       (since (initial sample_build)
          (snd (startup sample_build (sample_world all_succeed [] [])
                  ["hopm"%string] (initial sample_build))))) = 1%nat.
Proof.
  assert (D : startup sample_build (sample_world all_succeed [] [])
                ["hopm"%string] (initial sample_build)
              = (Done tt,
                 snd (startup sample_build (sample_world all_succeed [] [])
                        ["hopm"%string] (initial sample_build))))
    by (vm_compute; reflexivity).
  exact (proj1 (final_narrowing_between_open_and_write sample_build
                  (sample_world all_succeed [] []) ["hopm"%string]
                  (initial sample_build) _ eq_refl D)).
Defined.

Lemma written_pid B W argv k s :
  written (returns W (fopen (pidfile (loaded_options W)) "w"))
    (bring_up_events B W argv k s ++ pidfile_events B W ++ handler_events)
  = (decimal (to_uint (returns W getpid)) ++ newline)%string.
Proof.
  rewrite written_app, written_none
    by exact (early_weaken _ _ early_not_write
                (bring_up_events_early B W argv k s)).
  unfold pidfile_events. cbv zeta. simpl. rewrite Z.eqb_refl.
  now rewrite append_nil_r.
Qed.

Lemma write_pidfile_no_progress B W :
  emits (all (fun e => negb (progress_event e))) (write_pidfile B W).
Proof. unfold write_pidfile, do_err. repeat emits_rule. Qed.

(** C8.  In a bootstrap that reaches the main loop, the pid file has
    been opened with mode ["w"] and what has been written to its stream
    is the process id in decimal followed by a newline.  When the
    bootstrap gets as far as the pid file and [fopen] returns a null
    pointer, [main] ends with status 1 in the state the bootstrap ended
    in, the main loop having added nothing; and if the three sandbox
    calls around the [fopen] succeed, the last thing recorded is the log
    line that names the pid file and the error [fopen] failed with. *)
Theorem pidfile_written_or_fatal B W argv fuel n s :
  handling s = false ->
  (forall s',
     startup B W argv s = (Done tt, s') ->
     In (Call (fopen (pidfile (loaded_options W)) "w")) (since s s')
     /\ written (returns W (fopen (pidfile (loaded_options W)) "w"))
          (since s s')
        = (decimal (to_uint (returns W getpid)) ++ newline)%string)
  /\ (forall s1,
        bring_up B W argv s = (Done tt, s1) ->
        returns W (fopen (pidfile (loaded_options W)) "w") = 0 ->
        fst (main B W argv fuel n s) = Halt (Exited 1)
        /\ snd (main B W argv fuel n s) = snd (startup B W argv s)
        /\ forallb (fun e => negb (progress_event e))
             (since s1 (snd (main B W argv fuel n s))) = true
        /\ (returns W (unveil (pidfile (loaded_options W)) "wc") = 0 ->
            returns W (unveil (HOPM_BINPATH B) "x") <> -1 ->
            returns W (pledge final_promises) <> -1 ->
            since s1 (snd (main B W argv fuel n s))
            = [Call (unveil (pidfile (loaded_options W)) "wc");
               Call (fopen (pidfile (loaded_options W)) "w");
               Call (unveil (HOPM_BINPATH B) "x");
               Call (pledge final_promises);
               pidfile_error_log W])).
Proof.
  intros Hh. split.
  - intros s' H.
    destruct (startup_done B W argv s s' Hh H) as ((k & T) & _).
    apply since_app in T. rewrite T. split.
    + apply in_or_app. right. apply in_or_app. left. simpl. auto.
    + apply written_pid.
  - intros s1 H1 Hf.
    destruct (bring_up_done B W argv s s1 Hh H1) as (_ & Hh1 & O1 & _).
    destruct (write_pidfile_fails B W s1 Hh1 O1 Hf) as (s2 & E & T).
    assert (S : startup B W argv s = (Halt (Exited 1), s2)).
    { unfold startup, bind. rewrite H1, E. reflexivity. }
    assert (Mn : main B W argv fuel n s = (Halt (Exited 1), s2)).
    { unfold main. now apply bind_halted. }
    rewrite Mn, S. cbn [fst snd]. repeat split.
    + destruct (write_pidfile_no_progress B W s1) as (new & Tn & Q & _).
      rewrite E in Tn. cbn [snd] in Tn. apply since_app in Tn.
      now rewrite Tn.
    + intros U1 U2 U3. apply since_app. now apply T.
Qed.

Lemma pidfile_written_or_fatal_witness :
  written 7
    (since (initial sample_build)
       (snd (startup sample_build (sample_world all_succeed [] [])
               ["hopm"%string] (initial sample_build))))
  = ("4242" ++ newline)%string
  /\ fst (main sample_build (sample_world fopen_fails [] [])
            ["hopm"%string] 8 3 (initial sample_build)) = Halt (Exited 1).
Proof.
  assert (D : startup sample_build (sample_world all_succeed [] [])
                ["hopm"%string] (initial sample_build)
              = (Done tt,
                 snd (startup sample_build (sample_world all_succeed [] [])
                        ["hopm"%string] (initial sample_build))))
    by (vm_compute; reflexivity).
  assert (U : bring_up sample_build (sample_world fopen_fails [] [])
                ["hopm"%string] (initial sample_build)
              = (Done tt,
                 snd (bring_up sample_build (sample_world fopen_fails [] [])
                        ["hopm"%string] (initial sample_build))))
    by (vm_compute; reflexivity).
  split.
  - exact (proj2 (proj1 (pidfile_written_or_fatal sample_build
                           (sample_world all_succeed [] []) ["hopm"%string]
                           8 3 (initial sample_build) eq_refl) _ D)).
  - exact (proj1 (proj2 (pidfile_written_or_fatal sample_build
                           (sample_world fopen_fails [] []) ["hopm"%string]
                           8 3 (initial sample_build) eq_refl) _ U eq_refl)).
Defined.

(** * Further properties *)

(** ** The signal handler *)

(** X1.  A batch of interrupts without [SIGINT] is handled without
    ending the process and without recording anything; afterwards a
    flag holds 1 if the batch held an interrupt that raises it, however
    many, and its former value otherwise.  [SIGPIPE] raises nothing. *)
Theorem signals_coalesce W l s f :
  existsb is_SIGINT l = false ->
  fst (handle_all W l s) = Done tt
  /\ trace (snd (handle_all W l s)) = trace s
  /\ errno (snd (handle_all W l s)) = errno s
  /\ get f (snd (handle_all W l s))
     = if existsb (raises f) l then 1 else get f s.
Proof.
  intros H. rewrite (handle_all_quiet W l s H). cbn [fst snd].
  split; [reflexivity|]. split; [apply noted_all_frame|].
  split; [apply noted_all_frame|]. apply get_noted_all.
Qed.

Lemma signals_coalesce_witness :
  get ALARMED
    (snd (handle_all (sample_world all_succeed [] [])
            [Signal SIGALRM; Signal SIGPIPE; Signal SIGALRM; Signal SIGALRM]
            (running 0))) = 1
  /\ get REOPEN
       (snd (handle_all (sample_world all_succeed [] [])
               [Signal SIGALRM; Signal SIGPIPE; Signal SIGALRM;
                Signal SIGALRM]
               (running 0))) = 0.
Proof.
  split.
  - exact (proj2 (proj2 (proj2
             (signals_coalesce (sample_world all_succeed [] [])
                [Signal SIGALRM; Signal SIGPIPE; Signal SIGALRM;
                 Signal SIGALRM]
                (running 0) ALARMED eq_refl)))).
  - exact (proj2 (proj2 (proj2
             (signals_coalesce (sample_world all_succeed [] [])
                [Signal SIGALRM; Signal SIGPIPE; Signal SIGALRM;
                 Signal SIGALRM]
                (running 0) REOPEN eq_refl)))).
Defined.

Lemma handle_all_interrupted W l : forall s,
  existsb is_SIGINT l = true ->
  fst (handle_all W l s) = Halt (Exited 0)
  /\ trace (snd (handle_all W l s)) = trace s ++ [bye].
Proof.
  induction l as [|i l IH]; intros s H; [discriminate|].
  simpl in H. simpl handle_all. unfold bind.
  destruct (is_SIGINT i) eqn:Ei.
  - destruct i as [[]|]; try discriminate.
    simpl. unfold bind. rewrite extern_eq. cbn [fst snd].
    split; [reflexivity|apply trace_called].
  - assert (Hh : handle W i s = (Done tt, noted s i)).
    { destruct i as [[]|]; try reflexivity. discriminate. }
    rewrite Hh. simpl in H. destruct (IH (noted s i) H) as [E T].
    split; [exact E|]. rewrite T. f_equal.
    destruct i as [[]|]; reflexivity.
Qed.

(** X2.  Once the handlers are installed, a statement before which a
    [SIGINT] is delivered is not executed: the process ends there with
    status 0, having recorded the farewell of the handler and nothing
    else -- not the call the statement was about to make. *)
Theorem interrupt_ends_process W c s :
  handling s = true ->
  existsb is_SIGINT (pending W s) = true ->
  fst (call W c s) = Halt (Exited 0)
  /\ trace (snd (call W c s)) = trace s ++ [bye].
Proof.
  intros Hh Hp. unfold call, bind, deliver. rewrite Hh. unfold bind.
  destruct (handle_all_interrupted W (pending W s) s Hp) as [E T].
  destruct (handle_all W (pending W s) s) as [[[]|o|] s']; cbn [fst snd] in *;
    try discriminate.
  injection E as ->. now split.
Qed.

Lemma interrupt_ends_process_witness :
  fst (call (sample_world all_succeed [] [[Signal SIGUSR1; Signal SIGINT]])
         irc_cycle (running 0)) = Halt (Exited 0)
  /\ trace (snd (call (sample_world all_succeed [] 
                        [[Signal SIGUSR1; Signal SIGINT]])
                   irc_cycle (running 0)))
     = trace (running 0) ++ [bye].
Proof.
  apply (interrupt_ends_process
           (sample_world all_succeed [] [[Signal SIGUSR1; Signal SIGINT]])
           irc_cycle (running 0)); reflexivity.
Defined.

(** ** Option parsing, in full *)

Lemma to_uint_succ x k :
  to_uint (to_uint (x + 1) + Z.of_nat k) = to_uint (x + Z.of_nat (S k)).
Proof.
  unfold to_uint. rewrite Zplus_mod_idemp_l. f_equal. lia.
Qed.

Lemma parse_options_result argv rets : forall s,
  CONFNAME (snd (parse_options argv rets s))
  = last_name (CONFNAME s) (seen_options rets)
  /\ OPT_DEBUG (snd (parse_options argv rets s))
     = (if debug_flags (seen_options rets) =? 0 then OPT_DEBUG s
        else to_uint (OPT_DEBUG s
                      + Z.of_nat (debug_flags (seen_options rets))))%nat
  /\ trace (snd (parse_options argv rets s))
     = trace s ++ repeat (Call (getopt argv "dc:"))
                    (S (List.length (seen_options rets))).
Proof.
  induction rets as [|[c optarg] rets IH]; intros s.
  - repeat split.
  - simpl parse_options. unfold bind. cbn [emit modify fst snd].
    simpl seen_options.
    destruct (Z.eqb_spec c (-1)) as [|Hc1]; [repeat split|].
    unfold debug_flags, last_name. cbn [filter fold_left fst snd List.length].
    destruct (Z.eqb_spec c opt_c) as [->|Hc].
    + destruct (IH (with_CONFNAME optarg
                      (with_trace (trace s ++ [Call (getopt argv "dc:")]) s)))
        as (N & D & T).
      cbn [modify fst snd]. rewrite N, D, T. cbn.
      rewrite <- app_assoc. repeat split.
    + destruct (Z.eqb_spec c opt_d) as [->|Hd].
      * destruct (IH (with_OPT_DEBUG
                        (to_uint
                           (OPT_DEBUG
                              (with_trace
                                 (trace s ++ [Call (getopt argv "dc:")]) s)
                            + 1))
                        (with_trace (trace s ++ [Call (getopt argv "dc:")])
                           s)))
          as (N & D & T).
        cbn [modify fst snd]. rewrite N, D, T. cbn.
        rewrite <- app_assoc. repeat split.
        fold (debug_flags (seen_options rets)).
        destruct (debug_flags (seen_options rets)) as [|k] eqn:Ek.
        -- cbn. f_equal.
        -- cbn [Nat.eqb]. apply to_uint_succ.
      * destruct (IH (with_trace (trace s ++ [Call (getopt argv "dc:")]) s))
          as (N & D & T).
        cbn [ret fst snd]. rewrite N, D, T. cbn.
        rewrite <- app_assoc. repeat split.
Qed.

(** X3.  The option loop always returns to [main].  Afterwards the
    configuration name is the argument of the last [-c] that [getopt]
    reported before its first [-1] (the former name if there was none),
    the debug level has grown by the number of [-d] reported before that
    [-1], modulo 2^32, and [getopt] has been called once more than it
    reported options; whatever it would report after the [-1] plays no
    part. *)
Theorem options_parsed argv rets s :
  0 <= OPT_DEBUG s <= UINT_MAX ->
  fst (parse_options argv rets s) = Done tt
  /\ CONFNAME (snd (parse_options argv rets s))
     = last_name (CONFNAME s) (seen_options rets)
  /\ OPT_DEBUG (snd (parse_options argv rets s))
     = to_uint (OPT_DEBUG s + Z.of_nat (debug_flags (seen_options rets)))
  /\ since s (snd (parse_options argv rets s))
     = repeat (Call (getopt argv "dc:")) (S (List.length (seen_options rets))).
Proof.
  intros Hd. split; [apply parse_options_returns|].
  destruct (parse_options_result argv rets s) as (N & D & T).
  split; [exact N|]. split; [|now apply since_app].
  rewrite D. destruct (debug_flags (seen_options rets)); [|reflexivity].
  cbn [Nat.eqb Z.of_nat]. rewrite Z.add_0_r, to_uint_small; [reflexivity|].
  unfold UINT_MAX in Hd. lia.
Qed.

Lemma options_parsed_witness :
  CONFNAME
    (snd (parse_options ["hopm"; "-d"; "-c"; "a"; "-d"; "-c"; "b"]%string
            [(opt_d, EmptyString); (opt_c, "a"%string);
             (opt_d, EmptyString); (opt_c, "b"%string);
             (-1, EmptyString); (opt_d, EmptyString)]
            (initial sample_build))) = "b"%string
  /\ OPT_DEBUG
       (snd (parse_options ["hopm"; "-d"; "-c"; "a"; "-d"; "-c"; "b"]%string
               [(opt_d, EmptyString); (opt_c, "a"%string);
                (opt_d, EmptyString); (opt_c, "b"%string);
                (-1, EmptyString); (opt_d, EmptyString)]
               (initial sample_build))) = 2.
Proof.
  assert (H : 0 <= OPT_DEBUG (initial sample_build) <= UINT_MAX)
    by (vm_compute; split; discriminate).
  destruct (options_parsed ["hopm"; "-d"; "-c"; "a"; "-d"; "-c"; "b"]%string
              [(opt_d, EmptyString); (opt_c, "a"%string);
               (opt_d, EmptyString); (opt_c, "b"%string);
               (-1, EmptyString); (opt_d, EmptyString)]
              (initial sample_build) H) as (_ & N & D & _).
  split; [exact N|exact D].
Defined.

(** ** Path resolution *)

Lemma length_substring s : forall n,
  String.length (substring 0 n s) = Nat.min n (String.length s).
Proof.
  induction s as [|c s IH]; intros n; destruct n as [|n]; simpl;
    [reflexivity|reflexivity|reflexivity|].
  now rewrite IH.
Qed.

(** X4.  Whatever the lengths of the directory, name and extension, the
    buffers [main] allocates hold the two paths in full: the
    configuration file is [CONFDIR/CONFNAME.CONFEXT] and the log file
    [LOGDIR/CONFNAME.LOGEXT], each one character shorter than its
    buffer.  The bound is tight: in a buffer one character smaller
    [snprintf] would cut the path. *)
Theorem paths_resolved_in_full B s :
  CONFFILE (snd (resolve_paths B s))
  = path_of (HOPM_ETCDIR B) (CONFNAME s) (CONFEXT B)
  /\ LOGFILE (snd (resolve_paths B s))
     = path_of (HOPM_LOGDIR B) (CONFNAME s) (LOGEXT B)
  /\ S (String.length (CONFFILE (snd (resolve_paths B s))))
     = (String.length (HOPM_ETCDIR B) + String.length (CONFNAME s)
        + String.length (CONFEXT B) + 3)%nat
  /\ S (String.length (LOGFILE (snd (resolve_paths B s))))
     = (String.length (HOPM_LOGDIR B) + String.length (CONFNAME s)
        + String.length (LOGEXT B) + 3)%nat
  /\ (forall d n e,
        snprintf (String.length d + String.length n + String.length e + 2)
          (path_of d n e) <> path_of d n e)
  /\ fst (resolve_paths B s) = Done tt
  /\ trace (snd (resolve_paths B s)) = trace s.
Proof.
  unfold resolve_paths, modify. cbn [fst snd CONFFILE LOGFILE with_files trace].
  rewrite !snprintf_path_of, !length_path_of.
  repeat split; try lia.
  intros d n e H. apply (f_equal String.length) in H.
  unfold snprintf in H. rewrite length_substring, length_path_of in H. lia.
Qed.

(** ** Restart, when it succeeds *)

(** X5.  In the restart branch of a process that is not in debug mode,
    when [getrlimit] and [execv] succeed (and the ceiling is within the
    range of a descriptor number), the process image is replaced by
    [HOPM_BINPATH] run with the argument vector [argv] the branch is
    handed, that is the array [main] holds at that point, in whatever
    order [getopt] has left it.  The branch records its log line, the
    query of the ceiling, the marking of every descriptor below it, and
    the [execv] as its last event: nothing is logged, closed or removed
    on the way out. *)
Theorem restart_replaces_image B W argv fuel s :
  no_SIGINT W = true ->
  OPT_DEBUG s = 0 ->
  returns W (getrlimit RLIMIT_NOFILE) <> -1 ->
  0 <= rlim_cur W RLIMIT_NOFILE <= INT_MAX ->
  (Z.to_nat (rlim_cur W RLIMIT_NOFILE) < fuel)%nat ->
  returns W (execv (HOPM_BINPATH B) argv) <> -1 ->
  fst (restart B W argv fuel s) = Halt (Replaced (HOPM_BINPATH B) argv)
  /\ since s (snd (restart B W argv fuel s))
     = [restarting_log; Call (getrlimit RLIMIT_NOFILE)]
       ++ map mark (upto 0 (Z.to_nat (rlim_cur W RLIMIT_NOFILE)))
       ++ [Call (execv (HOPM_BINPATH B) argv)].
Proof.
  intros quiet Hd Hr Hl Hf Hx.
  destruct (restart_proceeds B W argv quiet fuel s Hd Hr Hl Hf)
    as (s' & E & T).
  rewrite E. cbn [fst snd]. apply since_app in T. rewrite T.
  destruct (Z.eqb_spec (returns W (execv (HOPM_BINPATH B) argv)) (-1));
    [contradiction|].
  now split.
Qed.

Lemma restart_replaces_image_witness :
  fst (restart sample_build (sample_world all_succeed [] [])
         ["hopm"; "-c"; "irc"]%string 8 (running 0))
  = Halt (Replaced "/usr/local/bin/hopm" ["hopm"; "-c"; "irc"]%string).
Proof.
  refine (proj1 (restart_replaces_image sample_build
                   (sample_world all_succeed [] [])
                   ["hopm"; "-c"; "irc"]%string 8 (running 0) _ _ _ _ _ _)).
  - reflexivity.
  - reflexivity.
  - discriminate.
  - vm_compute. split; discriminate.
  - vm_compute. lia.
  - discriminate.
Defined.

(** ** What the main loop never does *)

Section Loop_events.

Variable B : build.
Variable W : world.
Variable argv : list string.

Lemma cloexec_loop_events fuel i limit :
  emits (all loop_event) (cloexec_loop W fuel i limit).
Proof.
  revert i. induction fuel as [|fuel IH]; intros i; simpl.
  - emits_rule.
  - destruct (i <? limit); [|emits_rule].
    emits_rule; [emits_rule|apply IH].
Qed.

Lemma loop_body_events fuel : emits (all loop_event) (loop_body B W argv fuel).
Proof.
  unfold loop_body, restart_if_requested, restart, do_execv,
    reopen_if_requested, reopen, timers_if_alarmed, timers.
  repeat first [ apply cloexec_loop_events | emits_rule ].
Qed.

Lemma main_loop_events fuel n :
  emits (all loop_event) (main_loop B W argv fuel n).
Proof.
  induction n as [|n IH]; simpl.
  - emits_rule.
  - emits_rule; [apply loop_body_events|apply IH].
Qed.

End Loop_events.

(** X6.  Whatever the state, the schedule of signals and the number of
    turns, the statements of the main loop only read and write the three
    flags and call the two progress functions, the three timers, the log
    functions, [getrlimit(RLIMIT_NOFILE)], [fcntl] and [execv], and the
    only call of the signal handler that the trace lists, its farewell,
    is a log line: the loop never calls [pledge] or [unveil], never
    forks, never opens or writes the pid file and never installs a
    handler.  The handler's own [alarm(1)] is not an event of the
    trace. *)
Theorem main_loop_leaves_bootstrap_alone B W argv fuel n s :
  forallb loop_event (since s (snd (main_loop B W argv fuel n s))) = true.
Proof.
  destruct (main_loop_events B W argv fuel n s) as (new & T & H & _).
  apply since_app in T. now rewrite T.
Qed.

(** ** What the main loop leaves as it is *)

Section Keeps.

Variable W : world.

Lemma keeps_ret {A} (a : A) : keeps (ret a).
Proof. intros s. apply settled_refl. Qed.

Lemma keeps_gets {A} (f : state -> A) : keeps (gets f).
Proof. intros s. apply settled_refl. Qed.

Lemma keeps_halt {A} o : keeps (@halt A o).
Proof. intros s. apply settled_refl. Qed.

Lemma keeps_spin {A} : keeps (@spin A).
Proof. intros s. apply settled_refl. Qed.

Lemma keeps_bind {A C} (m : M A) (k : A -> M C) :
  keeps m -> (forall a, keeps (k a)) -> keeps (x <- m ;; k x).
Proof.
  intros Hm Hk s. specialize (Hm s). unfold bind.
  destruct (m s) as [[a| |] s1]; cbn [snd] in *; try exact Hm.
  exact (settled_trans _ _ _ Hm (Hk a s1)).
Qed.

Lemma keeps_extern c : keeps (extern W c).
Proof. intros s. rewrite extern_eq. apply settled_called. Qed.

Lemma settled_noted s i : settled s (noted s i).
Proof. destruct i as [[]|]; now repeat split. Qed.

Lemma keeps_handle i : keeps (handle W i).
Proof.
  intros s. destruct (is_SIGINT i) eqn:E.
  - destruct i as [[]|]; try discriminate.
    simpl. unfold bind. rewrite extern_eq. apply settled_called.
  - assert (Hh : handle W i s = (Done tt, noted s i)).
    { destruct i as [[]|]; try reflexivity. discriminate. }
    rewrite Hh. apply settled_noted.
Qed.

Lemma keeps_handle_all l : keeps (handle_all W l).
Proof.
  induction l as [|i l IH]; [apply keeps_ret|].
  simpl. apply keeps_bind; [apply keeps_handle|]. intros _. exact IH.
Qed.

Lemma keeps_deliver : keeps (deliver W).
Proof.
  intros s. unfold deliver. destruct (handling s) eqn:Hh;
    [|apply settled_refl].
  apply (keeps_bind (handle_all W (pending W s))
           (fun _ => modify (fun s' => with_clock (S (clock s')) s'))).
  - apply keeps_handle_all.
  - intros _ s1. now repeat split.
Qed.

Lemma keeps_call c : keeps (call W c).
Proof.
  apply keeps_bind; [apply keeps_deliver|]. intros _. apply keeps_extern.
Qed.

Lemma keeps_run c : keeps (run W c).
Proof.
  apply keeps_bind; [apply keeps_call|]. intros _. apply keeps_ret.
Qed.

Lemma keeps_load f : keeps (load W f).
Proof.
  apply keeps_bind; [apply keeps_deliver|]. intros _ s. now repeat split.
Qed.

Lemma keeps_store f v : keeps (store W f v).
Proof.
  apply keeps_bind; [apply keeps_deliver|]. intros _ s. now repeat split.
Qed.

Lemma keeps_exit {A} status : keeps (@exit W A status).
Proof.
  apply keeps_bind; [apply keeps_deliver|]. intros _. apply keeps_halt.
Qed.

End Keeps.

Ltac keeps_rule :=
  first
    [ apply keeps_ret
    | apply keeps_gets
    | apply keeps_run
    | apply keeps_call
    | apply keeps_exit
    | apply keeps_halt
    | apply keeps_spin
    | apply keeps_store
    | apply keeps_load
    | apply keeps_bind; [|intros ?]
    | match goal with
      | |- keeps (if ?b then _ else _) => destruct b
      | |- keeps (match ?o with Some _ => _ | None => _ end) => destruct o
      end ].

Section Loop_keeps.

Variable B : build.
Variable W : world.
Variable argv : list string.

Lemma cloexec_loop_keeps fuel i limit : keeps (cloexec_loop W fuel i limit).
Proof.
  revert i. induction fuel as [|fuel IH]; intros i; simpl.
  - keeps_rule.
  - destruct (i <? limit); [|keeps_rule].
    keeps_rule; [keeps_rule|apply IH].
Qed.

Lemma loop_body_keeps fuel : keeps (loop_body B W argv fuel).
Proof.
  unfold loop_body, restart_if_requested, restart, do_execv,
    reopen_if_requested, reopen, timers_if_alarmed, timers.
  repeat first [ apply cloexec_loop_keeps | keeps_rule ].
Qed.

Lemma main_loop_keeps fuel n : keeps (main_loop B W argv fuel n).
Proof.
  induction n as [|n IH]; simpl.
  - keeps_rule.
  - keeps_rule; [apply loop_body_keeps|apply IH].
Qed.

End Loop_keeps.

(** X7.  Whatever the state, the schedule of signals ([SIGINT]
    included) and the number of turns, neither the main loop nor the
    signal handler running between its statements changes the debug
    level, the configuration name, the paths of the configuration and
    log files or the loaded options, and the handlers stay installed. *)
Theorem main_loop_keeps_configuration B W argv fuel n s :
  OPT_DEBUG (snd (main_loop B W argv fuel n s)) = OPT_DEBUG s
  /\ CONFNAME (snd (main_loop B W argv fuel n s)) = CONFNAME s
  /\ CONFFILE (snd (main_loop B W argv fuel n s)) = CONFFILE s
  /\ LOGFILE (snd (main_loop B W argv fuel n s)) = LOGFILE s
  /\ OptionsItem (snd (main_loop B W argv fuel n s)) = OptionsItem s
  /\ handling (snd (main_loop B W argv fuel n s)) = handling s.
Proof.
  destruct (main_loop_keeps B W argv fuel n s) as (H & D & N & C & L & O).
  now repeat split.
Qed.

(** ** The loop left to itself *)

Lemma undisturbed_quiet W : undisturbed W = true -> no_SIGINT W = true.
Proof.
  unfold undisturbed, no_SIGINT. rewrite !forallb_forall.
  intros H l Hl. specialize (H l Hl). rewrite forallb_forall in H.
  destruct (existsb is_SIGINT l) eqn:E; [|reflexivity].
  apply existsb_exists in E. destruct E as (i & Hi & Si).
  specialize (H i Hi). now rewrite Si in H.
Qed.

Lemma undisturbed_pending W s :
  undisturbed W = true -> existsb (raises RESTART) (pending W s) = false.
Proof.
  unfold undisturbed, pending. rewrite forallb_forall. intros H.
  destruct (nth_in_or_default (clock s) (signals W) []) as [Hin|E];
    [|now rewrite E].
  specialize (H _ Hin). rewrite forallb_forall in H.
  destruct (existsb _ _) eqn:E; [|reflexivity].
  apply existsb_exists in E. destruct E as (i & Hi & Ri).
  specialize (H i Hi). rewrite Ri, orb_true_r in H. discriminate.
Qed.

Section Undisturbed.

Variable B : build.
Variable W : world.
Variable argv : list string.
Hypothesis alone : undisturbed W = true.

Lemma RESTART_delivered s :
  get RESTART (delivered W s) = get RESTART s.
Proof.
  unfold delivered. destruct (handling s); [|reflexivity]. cbv zeta.
  replace (get RESTART (with_clock _ (fold_left noted (pending W s) s)))
    with (get RESTART (fold_left noted (pending W s) s)) by reflexivity.
  rewrite get_noted_all. now rewrite undisturbed_pending.
Qed.

Lemma rests_ret {A} (a : A) : rests (ret a).
Proof. now intros s. Qed.

Lemma rests_bind {A C} (m : M A) (k : A -> M C) :
  rests m -> (forall a, rests (k a)) -> rests (x <- m ;; k x).
Proof.
  intros Hm Hk s H. specialize (Hm s H). unfold bind.
  destruct (m s) as [[a| |] s1]; cbn [snd] in *; try exact Hm.
  now apply Hk.
Qed.

Lemma rests_run c : rests (run W c).
Proof.
  intros s H. rewrite run_quiet by now apply undisturbed_quiet.
  cbn [snd]. now rewrite get_called, RESTART_delivered.
Qed.

Lemma rests_gets {A} (f : state -> A) : rests (gets f).
Proof. now intros s. Qed.

Lemma rests_load f : rests (load W f).
Proof.
  intros s H.
  replace (load W f s) with ((v <- load W f ;; ret v) s)
    by apply bind_ret_r.
  rewrite bind_load by now apply undisturbed_quiet.
  cbn [snd ret]. now rewrite get_loaded, RESTART_delivered.
Qed.

Lemma rests_store f : f <> RESTART -> rests (store W f 0).
Proof.
  intros N s H. rewrite store_quiet by now apply undisturbed_quiet.
  cbn [snd]. rewrite get_stored by congruence.
  now rewrite RESTART_delivered.
Qed.

Lemma housekeeping_rests : rests (housekeeping W).
Proof.
  unfold housekeeping, reopen_if_requested, reopen, timers_if_alarmed,
    timers.
  repeat first
    [ apply rests_ret | apply rests_gets | apply rests_run
    | apply rests_load | apply rests_store; discriminate
    | apply rests_bind; [|intros ?]
    | match goal with
      | |- rests (if ?b then _ else _) => destruct b
      | |- rests (match ?o with Some _ => _ | None => _ end) => destruct o
      end ].
Qed.

Lemma turns_app a b : turns (a ++ b) = (turns a + turns b)%nat.
Proof. unfold turns. now rewrite filter_app, length_app. Qed.

Lemma loop_body_alone fuel s :
  get RESTART s = 0 ->
  exists s' new,
    loop_body B W argv fuel s = (Done tt, s')
    /\ trace s' = trace s ++ new
    /\ turns new = 1%nat
    /\ get RESTART s' = 0.
Proof.
  intros H. pose proof (undisturbed_quiet W alone) as quiet.
  rewrite loop_body_quiet by exact quiet. cbv zeta.
  assert (R : get RESTART (delivered W (progressed W s)) = 0).
  { unfold progressed.
    now rewrite RESTART_delivered, get_called, RESTART_delivered,
      get_called, RESTART_delivered. }
  rewrite R. cbn [Z.eqb].
  destruct (housekeeping_quiet W quiet
              (loaded RESTART (delivered W (progressed W s))))
    as (o & a & s' & E & T).
  exists s'. eexists. split; [exact E|].
  pose proof (trace_checked W s) as C. cbv zeta in C.
  rewrite T, C, R, <- app_assoc. split; [reflexivity|].
  split.
  - unfold rotation.
    destruct (o =? 0), (a =? 0),
      (scanlog (OptionsItem
                  (loaded RESTART (delivered W (progressed W s)))));
      reflexivity.
  - pose proof (housekeeping_rests
                  (loaded RESTART (delivered W (progressed W s)))) as K.
    rewrite E in K. apply K. now rewrite get_loaded.
Qed.

Lemma main_loop_alone fuel n : forall s,
  get RESTART s = 0 ->
  exists s' new,
    main_loop B W argv fuel n s = (Spin, s')
    /\ trace s' = trace s ++ new
    /\ turns new = n
    /\ get RESTART s' = 0.
Proof.
  induction n as [|n IH]; intros s H.
  - exists s, []. now rewrite app_nil_r.
  - destruct (loop_body_alone fuel s H) as (s1 & new1 & E1 & T1 & N1 & R1).
    destruct (IH s1 R1) as (s2 & new2 & E2 & T2 & N2 & R2).
    exists s2, (new1 ++ new2). simpl. unfold bind. rewrite E1, E2.
    rewrite T2, T1, <- app_assoc, turns_app, N1, N2. now repeat split.
Qed.

End Undisturbed.

(** X8.  The loop does not end by itself: as long as neither [SIGINT],
    [SIGHUP] nor a restart request arrives and [RESTART] is clear, every
    turn returns, whatever other signals are delivered and whatever the
    cycles and timers do; after any number [n] of turns the loop is
    still running, has made [n] IRC cycles and [RESTART] is still
    clear. *)
Theorem main_loop_runs_on B W argv fuel n s :
  undisturbed W = true ->
  get RESTART s = 0 ->
  fst (main_loop B W argv fuel n s) = Spin
  /\ turns (since s (snd (main_loop B W argv fuel n s))) = n
  /\ get RESTART (snd (main_loop B W argv fuel n s)) = 0.
Proof.
  intros U H.
  destruct (main_loop_alone B W argv U fuel n s H) as (s' & new & E & T & N & R).
  rewrite E. cbn [fst snd]. now rewrite (since_app _ _ _ T).
Qed.

Lemma main_loop_runs_on_witness :
  turns
    (since (running 0)
       (snd (main_loop sample_build
               (sample_world all_succeed []
                  [[Signal SIGALRM]; [Signal SIGUSR1]; []; [Signal SIGALRM]])
               ["hopm"%string] 8 3 (running 0))))
  = 3%nat.
Proof.
  refine (proj1 (proj2 (main_loop_runs_on sample_build
                          (sample_world all_succeed []
                             [[Signal SIGALRM]; [Signal SIGUSR1]; [];
                              [Signal SIGALRM]])
                          ["hopm"%string] 8 3 (running 0) _ _))).
  - reflexivity.
  - reflexivity.
Defined.

(** ** Log rotation *)

Lemma rotated_app block a b :
  rotated block a -> rotated block b -> rotated block (a ++ b).
Proof.
  intros Ha Hb. induction Ha as [|e l He _ IH|v l Hv _ IH]; simpl.
  - exact Hb.
  - now apply rotated_steady.
  - rewrite <- app_assoc. now apply rotated_block.
Qed.

Lemma rotated_quiescent block l :
  forallb quiescent l = true -> rotated block l.
Proof.
  induction l as [|e l IH]; simpl; [constructor|].
  intros H. apply andb_prop in H. destruct H as (He & Hl).
  apply rotated_steady; [|now apply IH].
  unfold quiescent in He. destruct e as [c|[]|[]]; try reflexivity;
    try discriminate.
  destruct c; try reflexivity; discriminate.
Qed.

(** In a [rotated] trace, a read of [REOPEN] that finds it set is
    followed by the whole block. *)
Lemma rotated_reopen block l :
  rotated block l ->
  forallb (fun e => negb (reads REOPEN e)) block = true ->
  forall pre v post,
    l = pre ++ Load REOPEN v :: post -> v <> 0 ->
    exists post', post = block ++ post'.
Proof.
  intros H Hb.
  induction H as [|e l He _ IH|w l Hw _ IH]; intros pre v post E Hv.
  - now destruct pre.
  - destruct pre as [|e' pre]; simpl in E; injection E as E1 E2.
    + subst e. simpl in He. apply Z.eqb_eq in He. contradiction.
    + now apply (IH pre v post).
  - destruct pre as [|e1 pre]; simpl in E.
    { injection E as _ E. exists l. now rewrite <- E. }
    injection E as _ E.
    assert (G : forall blk pre,
              forallb (fun e => negb (reads REOPEN e)) blk = true ->
              blk ++ l = pre ++ Load REOPEN v :: post ->
              exists post', post = block ++ post').
    { clear E pre. induction blk as [|b blk IHb]; intros pre Hk E.
      - now apply (IH pre v post).
      - simpl in Hk. apply andb_prop in Hk. destruct Hk as (Hb1 & Hb2).
        destruct pre as [|e2 pre]; simpl in E; injection E as E1 E2.
        + subst b. discriminate.
        + now apply (IHb pre). }
    exact (G block pre Hb E).
Qed.

Lemma rotation_unread s :
  forallb (fun e => negb (reads REOPEN e)) (rotation s) = true.
Proof. unfold rotation. now destruct (scanlog (OptionsItem s)). Qed.

Lemma rotation_settled s s' : settled s s' -> rotation s' = rotation s.
Proof.
  intros (_ & _ & _ & _ & L & O). unfold rotation. now rewrite L, O.
Qed.

Section Rotation.

Variable B : build.
Variable W : world.
Variable argv : list string.
Hypothesis quiet : no_SIGINT W = true.

Lemma loop_body_rotated fuel s :
  exists new,
    trace (snd (loop_body B W argv fuel s)) = trace s ++ new
    /\ rotated (rotation s) new.
Proof.
  rewrite loop_body_quiet by exact quiet. cbv zeta.
  pose proof (trace_checked W s) as C. cbv zeta in C.
  set (s0 := delivered W (progressed W s)) in *.
  destruct (get RESTART s0 =? 0).
  - destruct (housekeeping_quiet W quiet (loaded RESTART s0))
      as (o & a & s' & E & T).
    rewrite E. cbn [snd]. eexists. rewrite T, C, <- app_assoc.
    split; [reflexivity|].
    unfold s0. rewrite rotation_checked. simpl.
    do 3 (apply rotated_steady; [reflexivity|]).
    assert (K : rotated (rotation s)
                  (Load ALARMED a :: (if a =? 0 then [] else ticks))).
    { destruct (a =? 0); unfold ticks;
        repeat (apply rotated_steady; [reflexivity|]); apply rotated_nil. }
    destruct (Z.eqb_spec o 0) as [->|Ho].
    + now apply rotated_steady.
    + now apply rotated_block.
  - destruct (restart_quiescent B W argv fuel (loaded RESTART s0))
      as (new & T & Q & _).
    eexists. rewrite T, C, <- app_assoc. split; [reflexivity|]. simpl.
    do 3 (apply rotated_steady; [reflexivity|]).
    now apply rotated_quiescent.
Qed.

Lemma main_loop_rotated fuel n : forall s,
  exists new,
    trace (snd (main_loop B W argv fuel n s)) = trace s ++ new
    /\ rotated (rotation s) new.
Proof.
  induction n as [|n IH]; intros s.
  - exists []. split; [now rewrite app_nil_r|constructor].
  - destruct (loop_body_rotated fuel s) as (new1 & T1 & R1).
    pose proof (loop_body_keeps B W argv fuel s) as K.
    simpl. unfold bind.
    destruct (loop_body B W argv fuel s) as [[[]| |] s1]; cbn [snd] in *.
    + destruct (IH s1) as (new2 & T2 & R2).
      exists (new1 ++ new2). rewrite T2, T1, app_assoc.
      split; [reflexivity|]. apply rotated_app; [exact R1|].
      now rewrite <- (rotation_settled s s1 K).
    + now exists new1.
    + now exists new1.
Qed.

End Rotation.

(** X9.  In a run of the main loop, however long and whatever signals
    arrive (short of an interrupt), each read of [REOPEN] that finds it
    set is followed at once by one whole rotation: the announcement, the
    log closed and opened again under the path settled at start, the
    scan log closed and opened again when one is configured, the
    confirmation and only then the clearing of the flag; no log is
    closed or opened and the flag is not written outside such a block.
    The read does take place: every turn that returns to the loop has
    read [REOPEN] and, when it found it set, has made the rotation; and
    if the flag was set when the turn began, the read finds it set. *)
Theorem rotation_whole_and_only_on_request B W argv fuel n s :
  no_SIGINT W = true ->
  rotated (rotation s) (since s (snd (main_loop B W argv fuel n s)))
  /\ (forall pre v post,
        since s (snd (main_loop B W argv fuel n s))
        = pre ++ Load REOPEN v :: post ->
        v <> 0 ->
        exists post', post = rotation s ++ post')
  /\ forall s',
       loop_body B W argv fuel s = (Done tt, s') ->
       exists pre o post,
         since s s'
         = pre ++ Load REOPEN o
           :: (if o =? 0 then [] else rotation s) ++ post
         /\ (get REOPEN s <> 0 -> o <> 0).
Proof.
  intros quiet.
  destruct (main_loop_rotated B W argv quiet fuel n s) as (new & T & H).
  apply since_app in T. rewrite T. split; [exact H|]. split.
  - intros pre v post E Hv.
    exact (rotated_reopen _ new H (rotation_unread s) pre v post E Hv).
  - intros s' E. exact (loop_body_serves_reopen B W argv quiet fuel s s' E).
Qed.

Lemma rotation_whole_and_only_on_request_witness :
  rotated (rotation (running 0))
    (since (running 0)
       (snd (main_loop sample_build
               (sample_world all_succeed []
                  [[Signal SIGUSR1]; []; []; []; []; [Signal SIGALRM]])
               ["hopm"%string] 8 3 (running 0))))
  /\ exists pre o post,
       o <> 0
       /\ since (set REOPEN 1 (running 0))
            (snd (loop_body sample_build (sample_world all_succeed [] [])
                    ["hopm"%string] 8 (set REOPEN 1 (running 0))))
          = pre ++ Load REOPEN o
            :: [Call (log_printf "MAIN -> Caught SIGUSR1, reopening logfiles"
                        []);
                Call log_close; Call (log_open "/usr/local/var/log/hopm.log");
                Call scanlog_close;
                Call (scanlog_open "/var/log/hopm-scan.log");
                Call (log_printf "MAIN -> reopened logfiles" []);
                Store REOPEN 0]
            ++ post.
Proof.
  split.
  - exact (proj1 (rotation_whole_and_only_on_request sample_build
                    (sample_world all_succeed []
                       [[Signal SIGUSR1]; []; []; []; []; [Signal SIGALRM]])
                    ["hopm"%string] 8 3 (running 0) eq_refl)).
  - assert (D : loop_body sample_build (sample_world all_succeed [] [])
                  ["hopm"%string] 8 (set REOPEN 1 (running 0))
                = (Done tt,
                   snd (loop_body sample_build
                          (sample_world all_succeed [] [])
                          ["hopm"%string] 8 (set REOPEN 1 (running 0)))))
      by (vm_compute; reflexivity).
    destruct (proj2 (proj2 (rotation_whole_and_only_on_request sample_build
                              (sample_world all_succeed [] [])
                              ["hopm"%string] 8 1 (set REOPEN 1 (running 0))
                              eq_refl)) _ D)
      as (pre & o & post & E & Ho).
    assert (N : get REOPEN (set REOPEN 1 (running 0)) <> 0) by discriminate.
    exists pre, o, post. split; [exact (Ho N)|].
    destruct (Z.eqb_spec o 0) as [Z0|_]; [destruct (Ho N Z0)|exact E].
Defined.

(** ** How the bootstrap ends *)

Section Boots.

Variable W : world.
Variable Q : outcome -> list event -> Prop.

Lemma boots_ret {A} (a : A) : boots Q (ret a).
Proof. now intros s H. Qed.

Lemma boots_gets {A} (f : state -> A) : boots Q (gets f).
Proof. now intros s H. Qed.

Lemma boots_modify f :
  (forall s, handling (f s) = handling s) -> boots Q (modify f).
Proof. intros Hf s H. split; [|exact I]. cbn. now rewrite Hf. Qed.

Lemma boots_bind {A C} (m : M A) (k : A -> M C) :
  boots Q m -> (forall a, boots Q (k a)) -> boots Q (x <- m ;; k x).
Proof.
  intros Hm Hk s H. specialize (Hm s H). unfold bind.
  destruct (m s) as [[a| |] s1]; cbn [fst snd] in *; try exact Hm.
  now apply Hk.
Qed.

Lemma boots_call_bind {C} c (k : Z -> M C) :
  boots Q (k (returns W c)) -> boots Q (r <- call W c ;; k r).
Proof.
  intros Hk s H. rewrite bind_call_off by exact H.
  apply Hk. now rewrite handling_called.
Qed.

Lemma boots_run c : boots Q (run W c).
Proof.
  intros s H. rewrite run_off by exact H. cbn [fst snd].
  now rewrite handling_called.
Qed.

Lemma boots_at {A} (m : M A) s :
  boots Q m ->
  handling s = false ->
  handling (snd (m s)) = false
  /\ match fst (m s) with
     | Done _ => True
     | Halt o => Q o (trace (snd (m s)))
     | Spin => False
     end.
Proof. intros H. exact (H s). Qed.

Lemma boots_parse_options argv rets : boots Q (parse_options argv rets).
Proof.
  intros s H. destruct (trace_repeat_getopt argv rets s) as (k & _ & Hh).
  rewrite Hh, parse_options_returns. now split.
Qed.

End Boots.

Ltac boots_rule :=
  first
    [ apply boots_ret
    | apply boots_gets
    | apply boots_modify; reflexivity
    | apply boots_run
    | apply boots_parse_options
    | apply boots_call_bind
    | apply boots_bind; [|intros ?]
    | match goal with
      | |- boots _ (if ?b then _ else _) => destruct b
      | |- boots _ (match ?o with Some _ => _ | None => _ end) => destruct o
      end ].

Section Loud.

Variable B : build.
Variable W : world.

Lemma loud_do_err {A} fmt : boots (loudly W) (@do_err W A 1 fmt).
Proof.
  intros s H. rewrite do_err_off by exact H. cbn [fst snd].
  rewrite handling_called, trace_called. split; [exact H|].
  exists (trace s), (Call (err 1 fmt (errno s))). split; [reflexivity|].
  left. now split.
Qed.

Lemma loud_perror_exit {A} str :
  boots (loudly W) (do_perror W str ;; @exit W A EXIT_FAILURE).
Proof.
  intros s H. unfold do_perror.
  rewrite bind_assoc, bind_gets, bind_run_off by exact H.
  rewrite exit_off by now rewrite handling_called. cbn [fst snd].
  rewrite handling_called, trace_called. split; [exact H|].
  exists (trace s), (Call (perror str (errno s))). split; [reflexivity|].
  left. now split.
Qed.

Lemma loud_log_exit {A} fmt args :
  boots (loudly W) (run W (log_printf fmt args) ;; @exit W A EXIT_FAILURE).
Proof.
  intros s H. rewrite bind_run_off by exact H.
  rewrite exit_off by now rewrite handling_called. cbn [fst snd].
  rewrite handling_called, trace_called. split; [exact H|].
  exists (trace s), (Call (log_printf fmt args)). split; [reflexivity|].
  left. now split.
Qed.

Ltac loud_rule :=
  first [ apply loud_do_err | apply loud_perror_exit | apply loud_log_exit
        | boots_rule ].

Lemma enter_sandbox_loud : boots (loudly W) (enter_sandbox W).
Proof. unfold enter_sandbox. repeat loud_rule. Qed.

Lemma setup_corelimit_loud : boots (loudly W) (setup_corelimit W).
Proof. unfold setup_corelimit. repeat loud_rule. Qed.

Lemma resolve_paths_loud : boots (loudly W) (resolve_paths B).
Proof. unfold resolve_paths. repeat loud_rule. Qed.

Lemma enter_prefix_loud : boots (loudly W) (enter_prefix B W).
Proof. unfold enter_prefix. repeat loud_rule. Qed.

Lemma daemonize_loud : boots (loudly W) (daemonize W).
Proof.
  unfold daemonize. intros s H. rewrite bind_call_off by exact H.
  assert (H1 : handling (called W fork s) = false)
    by now rewrite handling_called.
  destruct (returns W fork <? 0) eqn:Neg;
    [|destruct (returns W fork =? 0) eqn:Zero; cbn [negb]].
  - apply boots_at; [|exact H1]. repeat loud_rule.
  - apply boots_at; [|exact H1]. repeat loud_rule.
  - cbv beta iota.
    rewrite (bind_halted _ _ _ _ _ (exit_off W EXIT_SUCCESS _ H1)).
    cbn [fst snd]. split; [exact H1|]. rewrite trace_called.
    exists (trace s), (Call fork). split; [reflexivity|]. right. left.
    repeat split. apply Z.ltb_ge in Neg. apply Z.eqb_neq in Zero. lia.
Qed.

Lemma detach_loud : boots (loudly W) (detach W).
Proof.
  unfold detach. apply boots_bind; [apply boots_gets|]. intros d.
  destruct (d =? 0); [apply daemonize_loud|apply boots_run].
Qed.

Lemma load_config_loud : boots (loudly W) (load_config B W).
Proof. unfold load_config. repeat loud_rule. Qed.

Lemma write_pidfile_loud : boots (loudly W) (write_pidfile B W).
Proof. unfold write_pidfile. repeat loud_rule. Qed.

Lemma bring_up_loud argv : boots (loudly W) (bring_up B W argv).
Proof.
  unfold bring_up.
  repeat first
    [ apply enter_sandbox_loud | apply setup_corelimit_loud
    | apply boots_parse_options | apply resolve_paths_loud
    | apply enter_prefix_loud | apply detach_loud | apply load_config_loud
    | apply boots_bind; [|intros ?] ].
Qed.

Lemma install_handlers_ends s :
  handling s = false ->
  match fst (install_handlers W s) with
  | Done _ => True
  | Halt o => loudly W o (trace (snd (install_handlers W s)))
  | Spin => False
  end.
Proof.
  intros H. unfold install_handlers.
  do 5 rewrite bind_run_off by off_side.
  rewrite bind_modify. unfold run, call. rewrite !bind_assoc.
  match goal with
  | |- context [bind (deliver W) _ ?s1] =>
      destruct (deliver_cases W s1) as [E|(s' & E & T & _)]
  end.
  - unfold bind. rewrite E, extern_eq. exact I.
  - rewrite (bind_halted _ _ _ _ _ E). cbn [fst snd]. eexists. exists bye.
    split; [exact T|]. right. right. now split.
Qed.

End Loud.

(** X10.  A bootstrap never hangs, and when it ends the process before
    the main loop is reached it does so in one of three ways: with exit
    status 1 right after a message ([err], [perror] or a line of the
    log); with exit status 0 right after a [fork] that returned the pid
    of a child, which is the parent leaving; or with exit status 0 right
    after the farewell of the interrupt handler, once the handlers are
    installed. *)
Theorem bootstrap_ends_loudly B W argv s :
  handling s = false ->
  fst (startup B W argv s) <> Spin
  /\ forall o,
       fst (startup B W argv s) = Halt o ->
       loudly W o (trace (snd (startup B W argv s))).
Proof.
  intros H. unfold startup, bind.
  pose proof (bring_up_loud B W argv s H) as (H1 & E1).
  destruct (bring_up B W argv s) as [[[]| |] s1]; cbn [fst snd] in *.
  - pose proof (write_pidfile_loud B W s1 H1) as (H2 & E2).
    destruct (write_pidfile B W s1) as [[[]| |] s2]; cbn [fst snd] in *.
    + pose proof (install_handlers_ends W s2 H2) as E3.
      destruct (install_handlers W s2) as [[[]| |] s3]; cbn [fst snd] in *.
      * split; [discriminate|]. intros o Ho. discriminate.
      * split; [discriminate|]. intros o' Ho. now injection Ho as <-.
      * contradiction.
    + split; [discriminate|]. intros o' Ho. now injection Ho as <-.
    + contradiction.
  - split; [discriminate|]. intros o' Ho. now injection Ho as <-.
  - contradiction.
Qed.

Lemma bootstrap_ends_loudly_witness :
  loudly (sample_world fopen_fails [] []) (Exited 1)
    (trace (snd (startup sample_build (sample_world fopen_fails [] [])
                   ["hopm"%string] (initial sample_build)))).
Proof.
  assert (D : fst (startup sample_build (sample_world fopen_fails [] [])
                     ["hopm"%string] (initial sample_build))
              = Halt (Exited 1)) by (vm_compute; reflexivity).
  exact (proj2 (bootstrap_ends_loudly sample_build
                  (sample_world fopen_fails [] []) ["hopm"%string]
                  (initial sample_build) eq_refl) (Exited 1) D).
Defined.

(** ** What a bootstrap needs *)

Section Passes.

Variable B : build.
Variable W : world.
Hypothesis pledge_ok : forall promises, returns W (pledge promises) <> -1.
Hypothesis unveil_ok : forall path perms, returns W (unveil path perms) = 0.
Hypothesis chdir_ok : returns W (chdir (HOPM_PREFIX B)) = 0.
Hypothesis fork_ok : returns W fork = 0.
Hypothesis setpgid_ok : 0 <= returns W (setpgid 0 0).
Hypothesis open_ok : 0 <= returns W (open_rdwr "/dev/null").
Hypothesis fopen_ok : forall path mode, returns W (fopen path mode) <> 0.

Ltac refute E :=
  exfalso;
  first
    [ apply Z.eqb_eq in E; now apply pledge_ok in E
    | rewrite unveil_ok in E; discriminate E
    | rewrite chdir_ok in E; discriminate E
    | rewrite fork_ok in E; discriminate E
    | apply Z.ltb_lt in E; lia
    | apply negb_true_iff, Z.eqb_eq in E; now apply fopen_ok in E
    | apply negb_false_iff, Z.eqb_eq in E; now apply fopen_ok in E ].

Ltac pass_rule :=
  first
    [ match goal with
      | |- boots _ (if ?b then _ else _) =>
          let E := fresh "E" in destruct b eqn:E; try refute E
      end
    | boots_rule ].

Lemma enter_sandbox_passes : boots nowhere (enter_sandbox W).
Proof. unfold enter_sandbox. repeat pass_rule. Qed.

Lemma setup_corelimit_passes : boots nowhere (setup_corelimit W).
Proof. unfold setup_corelimit. repeat pass_rule. Qed.

Lemma enter_prefix_passes : boots nowhere (enter_prefix B W).
Proof. unfold enter_prefix. repeat pass_rule. Qed.

Lemma detach_passes : boots nowhere (detach W).
Proof. unfold detach, daemonize. repeat pass_rule. Qed.

Lemma load_config_passes : boots nowhere (load_config B W).
Proof. unfold load_config. repeat pass_rule. Qed.

Lemma write_pidfile_passes : boots nowhere (write_pidfile B W).
Proof. unfold write_pidfile. repeat pass_rule. Qed.

Lemma bring_up_passes argv : boots nowhere (bring_up B W argv).
Proof.
  unfold bring_up, resolve_paths.
  repeat first
    [ apply enter_sandbox_passes | apply setup_corelimit_passes
    | apply enter_prefix_passes | apply detach_passes
    | apply load_config_passes | boots_rule ].
Qed.

End Passes.

Lemma handling_delivered W s : handling (delivered W s) = handling s.
Proof.
  unfold delivered. destruct (handling s) eqn:H; [|exact H]. cbv zeta.
  pose proof (noted_all_frame (pending W s) s) as F. cbv zeta in F.
  destruct F as (_ & _ & _ & _ & _ & F & _). cbn. now rewrite F.
Qed.

Lemma install_handlers_returns W s :
  no_SIGINT W = true ->
  handling s = false ->
  fst (install_handlers W s) = Done tt
  /\ handling (snd (install_handlers W s)) = true.
Proof.
  intros quiet H. unfold install_handlers.
  do 5 rewrite bind_run_off by off_side.
  rewrite bind_modify, bind_run by exact quiet.
  cbn [fst snd modify]. split; [reflexivity|].
  cbn [handling with_timer]. now rewrite handling_called, handling_delivered.
Qed.

(** X11.  A bootstrap whose calls of [pledge], [unveil], [chdir],
    [fork] (seen from the child), [setpgid], [open] and [fopen] succeed
    reaches the main loop with the handlers installed, whatever every
    other call returns: the results of [getrlimit], [setrlimit],
    [umask], [dup2], [close], the loading of the configuration, the
    opening of the logs, the writing and closing of the pid file,
    [sigaction], [signal] and [alarm] are not looked at. *)
Theorem bootstrap_completes B W argv s :
  handling s = false ->
  no_SIGINT W = true ->
  (forall promises, returns W (pledge promises) <> -1) ->
  (forall path perms, returns W (unveil path perms) = 0) ->
  returns W (chdir (HOPM_PREFIX B)) = 0 ->
  returns W fork = 0 ->
  0 <= returns W (setpgid 0 0) ->
  0 <= returns W (open_rdwr "/dev/null") ->
  (forall path mode, returns W (fopen path mode) <> 0) ->
  fst (startup B W argv s) = Done tt
  /\ handling (snd (startup B W argv s)) = true.
Proof.
  intros H quiet Hp Hu Hc Hf Hg Ho Hw. unfold startup, bind.
  pose proof (bring_up_passes B W Hp Hu Hc Hf Hg Ho argv s H) as (H1 & E1).
  destruct (bring_up B W argv s) as [[[]| |] s1]; cbn [fst snd] in *;
    try contradiction.
  pose proof (write_pidfile_passes B W Hp Hu Hw s1 H1) as (H2 & E2).
  destruct (write_pidfile B W s1) as [[[]| |] s2]; cbn [fst snd] in *;
    try contradiction.
  now apply install_handlers_returns.
Qed.

Lemma bootstrap_completes_witness :
  fst (startup sample_build (sample_world all_succeed [] [])
         ["hopm"%string] (initial sample_build))
  = Done tt.
Proof.
  refine (proj1 (bootstrap_completes sample_build
                   (sample_world all_succeed [] []) ["hopm"%string]
                   (initial sample_build) _ _ _ _ _ _ _ _ _)).
  - reflexivity.
  - reflexivity.
  - intros promises. discriminate.
  - intros path perms. reflexivity.
  - reflexivity.
  - reflexivity.
  - vm_compute. discriminate.
  - vm_compute. discriminate.
  - intros path mode. discriminate.
Defined.

(** ** Restrictions that took effect *)

Section Sealed.

Variable B : build.
Variable W : world.

Lemma sealed_ret {A} (a : A) : sealed W (ret a).
Proof. intros s pre new H T G. split; [exact H|]. intros _ _. now exists new. Qed.

Lemma sealed_gets {A} (f : state -> A) : sealed W (gets f).
Proof. intros s pre new H T G. split; [exact H|]. intros _ _. now exists new. Qed.

Lemma sealed_modify f :
  (forall s, handling (f s) = handling s) ->
  (forall s, trace (f s) = trace s) ->
  sealed W (modify f).
Proof.
  intros Hf Tf s pre new H T G. cbn. rewrite Hf, Tf. split; [exact H|].
  intros _ _. now exists new.
Qed.

Lemma sealed_bind {A C} (m : M A) (k : A -> M C) :
  sealed W m -> (forall a, sealed W (k a)) -> sealed W (x <- m ;; k x).
Proof.
  intros Hm Hk s pre new H T G. destruct (Hm s pre new H T G) as (H1 & D1).
  unfold bind. destruct (m s) as [[a| |] s1]; cbn [fst snd] in *.
  - destruct (D1 a eq_refl) as (new1 & T1 & G1).
    exact (Hk a s1 pre new1 H1 T1 G1).
  - split; [exact H1|]. discriminate.
  - split; [exact H1|]. discriminate.
Qed.

Lemma sealed_run c : granted W (Call c) = true -> sealed W (run W c).
Proof.
  intros Gc s pre new H T G. rewrite run_off by exact H. cbn [fst snd].
  rewrite handling_called, trace_called. split; [exact H|]. intros _ _.
  exists (new ++ [Call c]). rewrite T, app_assoc. split; [reflexivity|].
  rewrite forallb_app, G. cbn [forallb]. now rewrite Gc.
Qed.

(** A call whose failure ends the run. *)
Lemma sealed_call_bind {C} c (k : Z -> M C) :
  (granted W (Call c) = true -> sealed W (k (returns W c))) ->
  (granted W (Call c) = false ->
   forall s, handling s = false ->
             handling (snd (k (returns W c) s)) = false
             /\ status_of (fst (k (returns W c) s)) <> Returned) ->
  sealed W (r <- call W c ;; k r).
Proof.
  intros Hk Hn s pre new H T G. rewrite bind_call_off by exact H.
  assert (H1 : handling (called W c s) = false)
    by now rewrite handling_called.
  destruct (granted W (Call c)) eqn:Gc.
  - apply (Hk eq_refl (called W c s) pre (new ++ [Call c]) H1).
    + now rewrite trace_called, T, app_assoc.
    + rewrite forallb_app, G. cbn [forallb]. now rewrite Gc.
  - destruct (Hn eq_refl (called W c s) H1) as (H2 & N2).
    split; [exact H2|]. intros a E. now rewrite E in N2.
Qed.

Lemma sealed_parse_options argv rets : sealed W (parse_options argv rets).
Proof.
  intros s pre new H T G.
  destruct (trace_repeat_getopt argv rets s) as (k & Tk & Hh).
  rewrite Hh. split; [exact H|]. intros _ _.
  exists (new ++ repeat (Call (getopt argv "dc:")) k).
  rewrite Tk, T, app_assoc. split; [reflexivity|].
  rewrite forallb_app, G. now rewrite forallb_repeat.
Qed.

(** The run ends where a failed call is tested. *)
Lemma guard_fails {C} (b : bool) fmt (rest : M C) s :
  b = true ->
  handling s = false ->
  handling (snd (((if b then do_err W 1 fmt else ret tt) ;; rest) s))
  = false
  /\ status_of (fst (((if b then do_err W 1 fmt else ret tt) ;; rest) s))
     <> Returned.
Proof.
  intros -> H.
  rewrite (bind_halted _ _ _ _ _ (do_err_off W 1 fmt s H)). cbn [fst snd].
  rewrite handling_called. now split.
Qed.

Lemma guard_fails_last (b : bool) fmt s :
  b = true ->
  handling s = false ->
  handling (snd ((if b then do_err W 1 fmt else ret tt) s)) = false
  /\ status_of (fst ((if b then @do_err W unit 1 fmt else ret tt) s))
     <> Returned.
Proof.
  intros -> H. rewrite do_err_off by exact H. cbn [fst snd].
  rewrite handling_called. now split.
Qed.

Lemma sealed_exit {A} status : sealed W (@exit W A status).
Proof.
  intros s pre new H T G. rewrite exit_off by exact H. now split.
Qed.

Ltac failing G :=
  first
    [ discriminate G
    | let s := fresh "s" in
      let H := fresh "H" in
      intros s H; cbn [granted] in G; apply negb_false_iff in G;
      first [ apply guard_fails | apply guard_fails_last ];
      [ first [ exact G | apply Z.eqb_eq in G; rewrite G; reflexivity ]
      | exact H ] ].

Ltac sealed_rule :=
  first
    [ apply sealed_ret
    | apply sealed_gets
    | apply sealed_exit
    | apply sealed_modify; reflexivity
    | apply sealed_run; reflexivity
    | apply sealed_parse_options
    | apply sealed_call_bind; cbv beta;
      [ intros _ | let G := fresh "G" in intros G; failing G ]
    | apply sealed_bind; [|intros ?]
    | match goal with
      | |- sealed _ (if ?b then _ else _) => destruct b
      | |- sealed _ (match ?o with Some _ => _ | None => _ end) => destruct o
      end ].

Lemma bring_up_sealed argv : sealed W (bring_up B W argv).
Proof.
  unfold bring_up, enter_sandbox, setup_corelimit, resolve_paths,
    enter_prefix, detach, daemonize, load_config, do_err, do_perror.
  repeat sealed_rule.
Qed.

Lemma write_pidfile_sealed : sealed W (write_pidfile B W).
Proof. unfold write_pidfile, do_err, do_perror. repeat sealed_rule. Qed.

End Sealed.

(** X12.  The main loop is reached only from inside the sandbox: in a
    bootstrap that completes, the broad and the final [pledge] and the
    hiding of the filesystem were requested, and no call of [pledge] or
    [unveil] failed. *)
Theorem loop_entered_only_sandboxed B W argv s s' :
  handling s = false ->
  startup B W argv s = (Done tt, s') ->
  forallb (granted W) (since s s') = true
  /\ In (Call (pledge broad_promises)) (since s s')
  /\ In (Call (unveil "/" "")) (since s s')
  /\ In (Call (pledge final_promises)) (since s s').
Proof.
  intros H E. split.
  - unfold startup in E.
    apply bind_done in E as ([] & s1 & E1 & E).
    apply bind_done in E as ([] & s2 & E2 & E).
    pose proof (bring_up_sealed B W argv s (trace s) [] H
                  (eq_sym (app_nil_r _)) eq_refl) as (H1 & D1).
    rewrite E1 in H1, D1. cbn [fst snd] in H1, D1.
    destruct (D1 tt eq_refl) as (new1 & T1 & G1).
    pose proof (write_pidfile_sealed B W s1 (trace s) new1 H1 T1 G1)
      as (H2 & D2).
    rewrite E2 in H2, D2. cbn [fst snd] in H2, D2.
    destruct (D2 tt eq_refl) as (new2 & T2 & G2).
    apply install_handlers_done in E as (T3 & _); [|exact H2].
    rewrite T2, <- app_assoc in T3. rewrite (since_app _ _ _ T3).
    now rewrite forallb_app, G2.
  - apply startup_done in E as ((k & T) & _); [|exact H].
    rewrite (since_app _ _ _ T).
    unfold bring_up_events, sandbox_events, pidfile_events.
    repeat split.
    + now left.
    + right. now left.
    + rewrite !in_app_iff. right. left. do 3 right. now left.
Qed.

Lemma loop_entered_only_sandboxed_witness :
  forallb (granted (sample_world all_succeed [] []))
    (since (initial sample_build)
       (snd (startup sample_build (sample_world all_succeed [] [])
               ["hopm"%string] (initial sample_build))))
  = true.
Proof.
  assert (D : startup sample_build (sample_world all_succeed [] [])
                ["hopm"%string] (initial sample_build)
              = (Done tt,
                 snd (startup sample_build (sample_world all_succeed [] [])
                        ["hopm"%string] (initial sample_build))))
    by (vm_compute; reflexivity).
  exact (proj1 (loop_entered_only_sandboxed sample_build
                  (sample_world all_succeed [] []) ["hopm"%string]
                  (initial sample_build) _ eq_refl D)).
Defined.
